(** * maxus-motors: the vehicle comparator and the dealership locator

    A shallow embedding of [src/utils/comparateur/comparateur.ts],
    [src/utils/map/map.ts] and [src/utils/map/concessionCta.ts].

    Conventions of the embedding.
    - A JavaScript [number] is an IEEE 754 binary64 value: Rocq's primitive
      [float], whose operations the kernel evaluates exactly as the engine
      does ([+], [-], [*], [/], [Math.abs], [<], [===]).
    - [null] and [undefined] in an optional field are [None].
    - A JavaScript string is a sequence of 16-bit code units
      ([JsString16]); the queries and addresses given to the geocoding
      functions are such sequences, on which [encodeURIComponent] throws
      when a surrogate has no partner. The texts of the page, of the
      catalog and of [localStorage] are [string]s, one character per code
      unit, over the code units 0 to 255; [JsString16.of_string] takes them
      to strings in full.
    - [localStorage] is a finite map from keys to string values.
    - Timers ([setTimeout]) run on a logical clock in milliseconds: a timer
      set at time [t] with delay [d] is due at [t + d]. *)

From Stdlib Require Import ZArith List Bool Lia Floats String Ascii.
From Stdlib Require Import Sorted Permutation.
From stdpp Require Import gmap strings.
Import ListNotations.

Set Warnings "-inexact-float,-register-all".

(* ====================================================================== *)
(** * JavaScript numbers *)
(* ====================================================================== *)

Module JsNumber.

Local Open Scope float_scope.

(** [x] is a finite number: neither NaN nor an infinity. *)
Definition is_finite_number (x : float) : bool :=
  match Prim2SF x with
  | S754_zero _ | S754_finite _ _ _ => true
  | _ => false
  end.

(** [x] is not NaN and its sign bit is clear: +0, a positive number or
    +Infinity. *)
Definition nonneg (x : float) : bool :=
  match Prim2SF x with
  | S754_zero false | S754_finite false _ _ | S754_infinity false => true
  | _ => false
  end.

(** [x] is a positive finite number. *)
Definition positive_finite (x : float) : bool :=
  match Prim2SF x with
  | S754_finite false _ _ => true
  | _ => false
  end.

(** The number of elements of a list as a JavaScript number. *)
Definition float_of_nat (n : nat) : float :=
  of_uint63 (Uint63.of_Z (Z.of_nat n)).

End JsNumber.

(* ====================================================================== *)
(** * JavaScript strings and JSON text *)
(* ====================================================================== *)

Module JsString.

Local Open Scope string_scope.
Local Open Scope N_scope.

Definition code (c : ascii) : N := N_of_ascii c.

(** [!s] on a string: only the empty string is falsy. *)
Definition falsy (s : string) : bool :=
  match s with EmptyString => true | String _ _ => false end.

(** WhiteSpace and LineTerminator code units, as [trim] and the regular
    expression class [\s] take them: TAB, LF, VT, FF, CR, SP and NBSP. *)
Definition isWhiteSpace (c : ascii) : bool :=
  let n := code c in
  ((9 <=? n) && (n <=? 13)) || (n =? 32) || (n =? 160).

(** The class [\d]: the ASCII digits. *)
Definition isDigit (c : ascii) : bool :=
  let n := code c in (48 <=? n) && (n <=? 57).

Fixpoint trimStart (s : string) : string :=
  match s with
  | EmptyString => EmptyString
  | String c s' => if isWhiteSpace c then trimStart s' else s
  end.

Fixpoint trimEnd (s : string) : string :=
  match s with
  | EmptyString => EmptyString
  | String c s' =>
      match trimEnd s' with
      | EmptyString => if isWhiteSpace c then EmptyString else String c EmptyString
      | t => String c t
      end
  end.

(** [String.prototype.trim]. *)
Definition trim (s : string) : string := trimEnd (trimStart s).

(** [String.prototype.toLowerCase], on the code units 0 to 255: the ASCII
    capitals and the accented capitals of Latin-1. *)
Definition toLowerUnit (c : ascii) : ascii :=
  let n := code c in
  if ((65 <=? n) && (n <=? 90))
     || ((192 <=? n) && (n <=? 222) && negb (n =? 215))
  then ascii_of_N (n + 32) else c.

Fixpoint toLowerCase (s : string) : string :=
  match s with
  | EmptyString => EmptyString
  | String c s' => String (toLowerUnit c) (toLowerCase s')
  end.

(** [s.includes(part)]. *)
Fixpoint includes (s part : string) : bool :=
  String.prefix part s
  || match s with
     | EmptyString => false
     | String _ s' => includes s' part
     end.

(** The longest prefix of [s] in the class [p], and what follows it. *)
Fixpoint span (p : ascii -> bool) (s : string) : string * string :=
  match s with
  | EmptyString => (EmptyString, EmptyString)
  | String c s' =>
      if p c then let '(pre, rest) := span p s' in (String c pre, rest)
      else (EmptyString, s)
  end.

(** [/^\d{2,5}$/.test(s)]: the digits are taken greedily, up to five of
    them, and the end of the input must follow; giving digits back cannot
    help, since a digit would then precede the end. *)
Fixpoint digits_upto (n : nat) (s : string) : nat * string :=
  match n, s with
  | S n', String c s' =>
      if isDigit c then let '(k, rest) := digits_upto n' s' in (S k, rest)
      else (O, s)
  | _, _ => (O, s)
  end.

Definition test_digits_2_5 (s : string) : bool :=
  let '(k, rest) := digits_upto 5 s in
  (2 <=? k)%nat && falsy rest.

(** *** Hexadecimal *)

Definition hexDigit (upper : bool) (n : N) : ascii :=
  if n <? 10 then ascii_of_N (48 + n)
  else ascii_of_N ((if upper then 55 else 87) + n).

Definition hex2 (upper : bool) (n : N) : string :=
  String (hexDigit upper (n / 16)) (String (hexDigit upper (n mod 16)) EmptyString).

(** *** [encodeURIComponent] *)

Definition isAlpha (c : ascii) : bool :=
  let n := code c in
  ((65 <=? n) && (n <=? 90)) || ((97 <=? n) && (n <=? 122)).

(** The characters [encodeURIComponent] leaves alone: letters, digits and
    [- _ . ! ~ * ' ( )]. *)
Definition isUnreserved (c : ascii) : bool :=
  isAlpha c || isDigit c
  || existsb (N.eqb (code c)) [45; 95; 46; 33; 126; 42; 39; 40; 41].

Definition percent (byte : N) : string := String "%" (hex2 true byte).

(** A code unit below 128 is one UTF-8 byte, one from 128 to 255 is two. *)
Definition encodeUnit (c : ascii) : string :=
  let n := code c in
  if isUnreserved c then String c EmptyString
  else if n <? 128 then percent n
  else percent (192 + n / 64) ++ percent (128 + n mod 64).

Fixpoint encodeURIComponent (s : string) : string :=
  match s with
  | EmptyString => EmptyString
  | String c s' => encodeUnit c ++ encodeURIComponent s'
  end.

(** *** [JSON.stringify] on strings and on objects of strings *)

Definition dquote : ascii := ascii_of_N 34.
Definition backslash : ascii := ascii_of_N 92.

Definition escape2 (c : ascii) : string := String backslash (String c EmptyString).

(** QuoteJSONString, one code unit at a time. *)
Definition quoteUnit (c : ascii) : string :=
  let n := code c in
  if n =? 8 then escape2 "b"
  else if n =? 9 then escape2 "t"
  else if n =? 10 then escape2 "n"
  else if n =? 12 then escape2 "f"
  else if n =? 13 then escape2 "r"
  else if n =? 34 then escape2 dquote
  else if n =? 92 then escape2 backslash
  else if n <? 32 then String backslash ("u00" ++ hex2 false n)
  else String c EmptyString.

Fixpoint quoteUnits (s : string) : string :=
  match s with
  | EmptyString => EmptyString
  | String c s' => quoteUnit c ++ quoteUnits s'
  end.

Definition JSON_quote (s : string) : string :=
  String dquote (quoteUnits s ++ String dquote EmptyString).

Fixpoint JSON_members (props : list (string * string)) : string :=
  match props with
  | [] => EmptyString
  | [(k, v)] => JSON_quote k ++ ":" ++ JSON_quote v
  | (k, v) :: rest => JSON_quote k ++ ":" ++ JSON_quote v ++ "," ++ JSON_members rest
  end.

(** [JSON.stringify(obj)] for an object literal whose properties, in
    order, all hold strings. *)
Definition JSON_stringify (props : list (string * string)) : string :=
  "{" ++ JSON_members props ++ "}".

(** *** [parseFloat] on short decimal numerals *)

(** An integer as a number; exact below 2^53. *)
Definition float_of_Z (z : Z) : float := of_uint63 (Uint63.of_Z z).

Fixpoint digits_value (s : string) (acc : Z) : Z :=
  match s with
  | EmptyString => acc
  | String c s' => digits_value s' (10 * acc + (Z.of_N (code c) - 48))%Z
  end.

(** [parseFloat] on a text that starts with digits and goes on with no
    fraction: the digits, as a number. *)
Definition parseFloat_digits (s : string) : float :=
  float_of_Z (digits_value (fst (span isDigit s)) 0).

(** [parseFloat] on a decimal numeral of at most 15 digits: the digits as an
    integer and the power of ten of the fraction are both exact in binary64,
    and their quotient, rounded once, is the nearest number to the numeral. *)
Definition parseFloat_short (numeral : string) : float :=
  let '(int, rest) := span isDigit numeral in
  match rest with
  | String "." r =>
      let '(frac, _) := span isDigit r in
      (float_of_Z (digits_value (int ++ frac)%string 0)
       / float_of_Z (10 ^ Z.of_nat (String.length frac)))%float
  | _ => float_of_Z (digits_value int 0)
  end.

End JsString.

(* ====================================================================== *)
(** * JavaScript strings in full: sequences of 16-bit code units *)
(* ====================================================================== *)

Module JsString16.

Local Open Scope N_scope.

(** A code unit, by its two bytes. *)
Record CodeUnit := { high : ascii; low : ascii }.

Definition code (u : CodeUnit) : N :=
  256 * N_of_ascii (high u) + N_of_ascii (low u).

(** A code unit from 0 to 255. *)
Definition unit_of (c : ascii) : CodeUnit := {| high := Ascii.zero; low := c |}.

Definition of_code (n : N) : CodeUnit :=
  {| high := ascii_of_N (n / 256); low := ascii_of_N (n mod 256) |}.

(** A text of code units 0 to 255, as a string in full. *)
Definition of_string (s : string) : list CodeUnit :=
  map unit_of (list_ascii_of_string s).

(** The text of a string of code units 0 to 255. *)
Definition latin1 (s : list CodeUnit) : string :=
  string_of_list_ascii (map low s).

(** [!s]: only the empty string is falsy. *)
Definition falsy (s : list CodeUnit) : bool :=
  match s with [] => true | _ :: _ => false end.

(** WhiteSpace and LineTerminator, as [trim] takes them: TAB, LF, VT, FF,
    CR, SP, NBSP, U+1680, U+2000 to U+200A, U+2028, U+2029, U+202F, U+205F,
    U+3000 and U+FEFF. *)
Definition isWhiteSpace (u : CodeUnit) : bool :=
  let n := code u in
  ((9 <=? n) && (n <=? 13)) || (n =? 32) || (n =? 160) || (n =? 5760)
  || ((8192 <=? n) && (n <=? 8202)) || (n =? 8232) || (n =? 8233)
  || (n =? 8239) || (n =? 8287) || (n =? 12288) || (n =? 65279).

(** The class [\d]: the ASCII digits. *)
Definition isDigit (u : CodeUnit) : bool :=
  let n := code u in (48 <=? n) && (n <=? 57).

Fixpoint trimStart (s : list CodeUnit) : list CodeUnit :=
  match s with
  | [] => []
  | u :: s' => if isWhiteSpace u then trimStart s' else s
  end.

Fixpoint trimEnd (s : list CodeUnit) : list CodeUnit :=
  match s with
  | [] => []
  | u :: s' =>
      match trimEnd s' with
      | [] => if isWhiteSpace u then [] else [u]
      | t => u :: t
      end
  end.

(** [String.prototype.trim]. *)
Definition trim (s : list CodeUnit) : list CodeUnit := trimEnd (trimStart s).

(** The digits taken greedily, up to [n] of them, and what follows. *)
Fixpoint digits_upto (n : nat) (s : list CodeUnit) : nat * list CodeUnit :=
  match n, s with
  | S n', u :: s' =>
      if isDigit u then let '(k, rest) := digits_upto n' s' in (S k, rest)
      else (O, s)
  | _, _ => (O, s)
  end.

(** [/^\d{2,5}$/.test(s)]. *)
Definition test_digits_2_5 (s : list CodeUnit) : bool :=
  let '(k, rest) := digits_upto 5 s in
  (2 <=? k)%nat && falsy rest.

(** [/^\d{5}$/.test(s)]. *)
Definition test_digits_5 (s : list CodeUnit) : bool :=
  let '(k, rest) := digits_upto 5 s in
  (k =? 5)%nat && falsy rest.

(** ** [encodeURIComponent] *)

(** The characters left alone: ASCII letters, digits and [- _ . ! ~ * ' ( )]. *)
Definition isUnreserved (u : CodeUnit) : bool :=
  (code u <? 128) && JsString.isUnreserved (low u).

(** The two halves of a surrogate pair: U+D800 to U+DBFF, U+DC00 to U+DFFF. *)
Definition isLeadSurrogate (u : CodeUnit) : bool :=
  (55296 <=? code u) && (code u <=? 56319).
Definition isTrailSurrogate (u : CodeUnit) : bool :=
  (56320 <=? code u) && (code u <=? 57343).

(** The code point of a surrogate pair. *)
Definition pair_code_point (lead trail : CodeUnit) : N :=
  65536 + (code lead - 55296) * 1024 + (code trail - 56320).

(** The octets of a code point in UTF-8, each as a percent escape. *)
Definition utf8_escapes (cp : N) : string :=
  if cp <? 128 then JsString.percent cp
  else if cp <? 2048 then
    JsString.percent (192 + cp / 64) ++ JsString.percent (128 + cp mod 64)
  else if cp <? 65536 then
    JsString.percent (224 + cp / 4096)
    ++ JsString.percent (128 + (cp / 64) mod 64)
    ++ JsString.percent (128 + cp mod 64)
  else
    JsString.percent (240 + cp / 262144)
    ++ JsString.percent (128 + (cp / 4096) mod 64)
    ++ JsString.percent (128 + (cp / 64) mod 64)
    ++ JsString.percent (128 + cp mod 64).

(** [encodeURIComponent(s)]; [None] is the URIError thrown on a surrogate
    that has no partner. *)
Fixpoint encodeURIComponent (s : list CodeUnit) : option string :=
  match s with
  | [] => Some EmptyString
  | u :: rest =>
      if isUnreserved u
      then option_map (String (low u)) (encodeURIComponent rest)
      else if isTrailSurrogate u then None
      else if isLeadSurrogate u then
        match rest with
        | v :: rest' =>
            if isTrailSurrogate v
            then option_map (append (utf8_escapes (pair_code_point u v)))
                            (encodeURIComponent rest')
            else None
        | [] => None
        end
      else option_map (append (utf8_escapes (code u)))
                      (encodeURIComponent rest)
  end.

(** [String.prototype.isWellFormed]: no surrogate without its partner. *)
Fixpoint isWellFormed (s : list CodeUnit) : bool :=
  match s with
  | [] => true
  | u :: rest =>
      if isTrailSurrogate u then false
      else if isLeadSurrogate u then
        match rest with
        | v :: rest' => isTrailSurrogate v && isWellFormed rest'
        | [] => false
        end
      else isWellFormed rest
  end.

End JsString16.

(* ====================================================================== *)
(** * JSON texts, as the specification words them *)
(* ====================================================================== *)

Module JsonText.

Local Open Scope string_scope.
Local Open Scope N_scope.

(** The quotation mark, U+0022. *)
Definition quotation_mark : ascii := ascii_of_N 34.

(** A text between quotation marks. *)
Definition quoted (s : string) : string :=
  String quotation_mark (s ++ String quotation_mark EmptyString).

(** The value of a hexadecimal digit. *)
Definition hex_value (c : ascii) : option N :=
  let n := N_of_ascii c in
  if (48 <=? n) && (n <=? 57) then Some (n - 48)
  else if (97 <=? n) && (n <=? 102) then Some (n - 87)
  else if (65 <=? n) && (n <=? 70) then Some (n - 55)
  else None.

(** What the characters of a JSON string stand for, read from after the
    opening quotation mark to the closing one, which ends the text; none
    when the text is not a JSON string, or stands for a code unit above
    255. The escapes are those of the grammar of JSON: the quotation mark,
    the reverse solidus, the solidus, b, f, n, r, t and u with four
    hexadecimal digits; a control character is not allowed unescaped. *)
Fixpoint string_characters (s : string) : option string :=
  match s with
  | EmptyString => None
  | String c rest =>
      let n := N_of_ascii c in
      if n =? 34 then
        match rest with EmptyString => Some EmptyString | _ => None end
      else if n =? 92 then
        match rest with
        | EmptyString => None
        | String e rest' =>
            let k := N_of_ascii e in
            if (k =? 34) || (k =? 92) || (k =? 47)
            then option_map (String e) (string_characters rest')
            else if k =? 98
            then option_map (String (ascii_of_N 8)) (string_characters rest')
            else if k =? 102
            then option_map (String (ascii_of_N 12)) (string_characters rest')
            else if k =? 110
            then option_map (String (ascii_of_N 10)) (string_characters rest')
            else if k =? 114
            then option_map (String (ascii_of_N 13)) (string_characters rest')
            else if k =? 116
            then option_map (String (ascii_of_N 9)) (string_characters rest')
            else if k =? 117 then
              match rest' with
              | String h1 (String h2 (String h3 (String h4 rest''))) =>
                  match hex_value h1, hex_value h2, hex_value h3, hex_value h4 with
                  | Some d1, Some d2, Some d3, Some d4 =>
                      let v := ((d1 * 16 + d2) * 16 + d3) * 16 + d4 in
                      if v <? 256
                      then option_map (String (ascii_of_N v))
                                      (string_characters rest'')
                      else None
                  | _, _, _, _ => None
                  end
              | _ => None
              end
            else None
        end
      else if n <? 32 then None
      else option_map (String c) (string_characters rest)
  end.

(** The string a JSON string literal stands for. *)
Definition string_value (literal : string) : option string :=
  match literal with
  | EmptyString => None
  | String c body =>
      if N_of_ascii c =? 34 then string_characters body else None
  end.

(** White space, among the code units 0 to 255: TAB, LF, VT, FF, CR, SP
    and NBSP. *)
Definition white_space (c : ascii) : Prop :=
  9 <= N_of_ascii c <= 13 \/ N_of_ascii c = 32 \/ N_of_ascii c = 160.

End JsonText.

(* ====================================================================== *)
(** * comparateur.ts *)
(* ====================================================================== *)

Module Comparateur.

Import JsNumber JsString.
Local Open Scope float_scope.

(** [type VehicleType]: a union of four string literals. *)
Inductive VehicleType :=
  | utilitaire_thermique
  | utilitaire_electrique
  | pickup_thermique
  | pickup_electrique.

Definition VehicleType_eqb (a b : VehicleType) : bool :=
  match a, b with
  | utilitaire_thermique, utilitaire_thermique
  | utilitaire_electrique, utilitaire_electrique
  | pickup_thermique, pickup_thermique
  | pickup_electrique, pickup_electrique => true
  | _, _ => false
  end.

(** [interface Vehicle]; the optional fields are [option]s. *)
Record Vehicle := {
  id : string;
  name : string;
  type : VehicleType;
  charge : float;
  volume : option float;
  longueur : option float
}.

(** [interface SearchCriteria]; [null] is [None]. *)
Record SearchCriteria := {
  c_type : option VehicleType;
  c_charge : option float;
  c_volume : option float;
  c_longueur : option float
}.

Definition deliver7 : Vehicle :=
  {| id := "deliver7"; name := "Deliver 7"; type := utilitaire_thermique;
     charge := 1229; volume := Some 7.2; longueur := Some 2.8 |}.
Definition deliver9 : Vehicle :=
  {| id := "deliver9"; name := "Deliver 9"; type := utilitaire_thermique;
     charge := 1450; volume := Some 11.5; longueur := Some 3.413 |}.
Definition t60max : Vehicle :=
  {| id := "t60max"; name := "T60 Max"; type := pickup_thermique;
     charge := 1000; volume := Some 0; longueur := Some 0 |}.
Definition edeliver3 : Vehicle :=
  {| id := "edeliver3"; name := "eDeliver 3"; type := utilitaire_electrique;
     charge := 1080; volume := Some 6.3; longueur := Some 2.77 |}.
Definition edeliver5 : Vehicle :=
  {| id := "edeliver5"; name := "eDeliver 5"; type := utilitaire_electrique;
     charge := 1265; volume := Some 8.7; longueur := Some 0 |}.
Definition edeliver7 : Vehicle :=
  {| id := "edeliver7"; name := "eDeliver 7"; type := utilitaire_electrique;
     charge := 1200; volume := Some 8.7; longueur := Some 0 |}.
Definition edeliver9 : Vehicle :=
  {| id := "edeliver9"; name := "eDeliver 9"; type := utilitaire_electrique;
     charge := 1040; volume := Some 12.33; longueur := Some 0 |}.
Definition eterron9 : Vehicle :=
  {| id := "eterron9"; name := "eTerron 9"; type := pickup_electrique;
     charge := 650; volume := Some 0; longueur := Some 0 |}.
Definition t90ev : Vehicle :=
  {| id := "t90ev"; name := "T90 EV"; type := pickup_electrique;
     charge := 1000; volume := Some 0; longueur := Some 0 |}.

(** [const VEHICLES]: the catalog, in source order. *)
Definition VEHICLES : list Vehicle :=
  [deliver7; deliver9; t60max;
   edeliver3; edeliver5; edeliver7; edeliver9; eterron9; t90ev].

(** JavaScript truthiness of a number: [0], [-0] and NaN are falsy. *)
Definition truthy (x : float) : bool := negb (x =? 0) && negb (is_nan x).

Definition calculateScore (vehicle : Vehicle) (criteria : SearchCriteria)
    : option float :=
  let totalScore := 0 in
  let criteriaCount := 0 in
  (* Type (obligatoire) *)
  match c_type criteria with
  | None => None
  | Some criteria_type =>
  if negb (VehicleType_eqb (type vehicle) criteria_type) then None else
  (* Charge *)
  let '(totalScore, criteriaCount) :=
    match c_charge criteria with
    | Some criteria_charge =>
        if 0 <? charge vehicle then
          let diff := abs (charge vehicle - criteria_charge) in
          (totalScore + diff / 100, criteriaCount + 1)
        else (totalScore, criteriaCount)
    | None => (totalScore, criteriaCount)
    end in
  (* Volume *)
  let '(totalScore, criteriaCount) :=
    match c_volume criteria, volume vehicle with
    | Some criteria_volume, Some vehicle_volume =>
        if truthy vehicle_volume && (0 <? vehicle_volume) then
          let diff := abs (vehicle_volume - criteria_volume) in
          (totalScore + diff * 10, criteriaCount + 1)
        else (totalScore, criteriaCount)
    | _, _ => (totalScore, criteriaCount)
    end in
  (* Longueur *)
  let '(totalScore, criteriaCount) :=
    match c_longueur criteria, longueur vehicle with
    | Some criteria_longueur, Some vehicle_longueur =>
        if truthy vehicle_longueur && (0 <? vehicle_longueur) then
          let diff := abs (vehicle_longueur - criteria_longueur) in
          (totalScore + diff * 100, criteriaCount + 1)
        else (totalScore, criteriaCount)
    | _, _ => (totalScore, criteriaCount)
    end in
  if criteriaCount =? 0 then None
  else Some (totalScore / criteriaCount)
  end.

(** The state of the scan in [findBestMatch]. *)
Record Best := { bestVehicle : option Vehicle; bestScore : option float }.

(** The body of the [for] loop of [findBestMatch]. *)
Definition scan_step (criteria : SearchCriteria) (b : Best) (vehicle : Vehicle)
    : Best :=
  match calculateScore vehicle criteria with
  | Some score =>
      match bestScore b with
      | None => {| bestVehicle := Some vehicle; bestScore := Some score |}
      | Some best =>
          if score <? best
          then {| bestVehicle := Some vehicle; bestScore := Some score |}
          else b
      end
  | None => b
  end.

Definition scan (criteria : SearchCriteria) (vehicles : list Vehicle) (b : Best)
    : Best :=
  fold_left (scan_step criteria) vehicles b.

Definition findBestMatchIn (vehicles : list Vehicle) (criteria : SearchCriteria)
    : option Vehicle :=
  match c_type criteria with
  | None => None
  | Some _ =>
      bestVehicle
        (scan criteria vehicles {| bestVehicle := None; bestScore := None |})
  end.

Definition findBestMatch (criteria : SearchCriteria) : option Vehicle :=
  findBestMatchIn VEHICLES criteria.

(** ** Reading the form ([getSearchCriteria]) *)

(** The text of each dropdown; [None] when the element is missing or has
    no text. *)
Record Dropdowns := {
  typeSelect : option string;
  chargeSelect : option string;
  volumeSelect : option string;
  longueurSelect : option string
}.

(** 'électrique', with its first letter as one code unit. *)
Definition electrique_accent : string :=
  String (ascii_of_N 233) "lectrique".

(** [getType]. *)
Definition getType (d : Dropdowns) : option VehicleType :=
  match typeSelect d with
  | None => None
  | Some textContent =>
      if falsy textContent then None
      else
        let value := trim (toLowerCase textContent) in
        let isUtilitaire := includes value "utilitaire" in
        let isPickup := includes value "pickup" in
        let isThermique := includes value "thermi" in
        let isElectrique :=
          includes value electrique_accent || includes value "electrique"
          || includes value "elec" in
        if isUtilitaire && isThermique then Some utilitaire_thermique
        else if isUtilitaire && isElectrique then Some utilitaire_electrique
        else if isPickup && isThermique then Some pickup_thermique
        else if isPickup && isElectrique then Some pickup_electrique
        else None
  end.

(** The separators [[\s,.]] of the number pattern. *)
Definition isSeparator (c : ascii) : bool :=
  isWhiteSpace c || (code c =? 44)%N || (code c =? 46)%N.

(** A match of [\d+[\s,.]?\d*] at the start of [s]: digits, at most one
    separator, digits. Every item after the first digits may match nothing,
    so the greedy match is the match. *)
Definition match_number_here (s : string) : option string :=
  let '(d1, r1) := span isDigit s in
  if falsy d1 then None
  else
    match r1 with
    | String c r2 =>
        if isSeparator c
        then let '(d2, _) := span isDigit r2 in Some (d1 ++ String c d2)%string
        else Some d1
    | EmptyString => Some d1
    end.

(** [text.match(/\d+[\s,.]?\d*/)]: the leftmost match. *)
Fixpoint match_number (s : string) : option string :=
  match match_number_here s with
  | Some m => Some m
  | None =>
      match s with
      | EmptyString => None
      | String _ s' => match_number s'
      end
  end.

(** [s.replace(/[\s,]/g, '')]. *)
Fixpoint strip_spaces_commas (s : string) : string :=
  match s with
  | EmptyString => EmptyString
  | String c s' =>
      if isWhiteSpace c || (code c =? 44)%N then strip_spaces_commas s'
      else String c (strip_spaces_commas s')
  end.

Section Form.

(** [parseFloat]. *)
Variable parseFloat : string -> float.

(** [extractNumber]. *)
Definition extractNumber (text : string) : option float :=
  match match_number text with
  | None => None
  | Some m0 => Some (parseFloat (strip_spaces_commas m0))
  end.

Definition read_number (dropdown : option string) : option float :=
  match dropdown with
  | Some textContent =>
      if falsy textContent then None else extractNumber textContent
  | None => None
  end.

Definition getSearchCriteria (d : Dropdowns) : SearchCriteria :=
  {| c_type := getType d;
     c_charge := read_number (chargeSelect d);
     c_volume := read_number (volumeSelect d);
     c_longueur := read_number (longueurSelect d) |}.

End Form.

(** The contract of [parseFloat] the comparator rests on: a text that
    starts with a digit parses to a number, never to NaN. *)
Definition starts_with_digit (s : string) : bool :=
  match s with
  | String c _ => isDigit c
  | EmptyString => false
  end.

Definition parses_digits (parseFloat : string -> float) : Prop :=
  forall s, starts_with_digit s = true -> is_nan (parseFloat s) = false.

(** ** The score as the specification words it

    A criterion is evaluated when it is present in the criteria and positive
    in the vehicle; it then contributes the weighted distance between the two
    values, and the score is the mean contribution. *)

Definition contribution (weigh : float -> float)
    (criterion vehicleValue : option float) : option float :=
  match criterion, vehicleValue with
  | Some c, Some v => if 0 <? v then Some (weigh (abs (v - c))) else None
  | _, _ => None
  end.

Fixpoint present (l : list (option float)) : list float :=
  match l with
  | [] => []
  | Some x :: l' => x :: present l'
  | None :: l' => present l'
  end.

Definition contributions (vehicle : Vehicle) (criteria : SearchCriteria)
    : list float :=
  present
    [ contribution (fun diff => diff / 100)
        (c_charge criteria) (Some (charge vehicle));
      contribution (fun diff => diff * 10)
        (c_volume criteria) (volume vehicle);
      contribution (fun diff => diff * 100)
        (c_longueur criteria) (longueur vehicle) ].

Definition sum (l : list float) : float := fold_left add l 0.

Definition mean (l : list float) : float := sum l / float_of_nat (length l).

Definition score_spec (vehicle : Vehicle) (criteria : SearchCriteria)
    : option float :=
  match c_type criteria with
  | None => None
  | Some t =>
      if VehicleType_eqb (type vehicle) t then
        match contributions vehicle criteria with
        | [] => None
        | l => Some (mean l)
        end
      else None
  end.

(** ** The two requests of the specification's examples *)

Definition criteria_utilitaire_thermique_1300_9 : SearchCriteria :=
  {| c_type := Some utilitaire_thermique; c_charge := Some 1300;
     c_volume := Some 9; c_longueur := None |}.

Definition criteria_pickup_electrique_650 : SearchCriteria :=
  {| c_type := Some pickup_electrique; c_charge := Some 650;
     c_volume := None; c_longueur := None |}.

(** ** Preconditions on the data *)

Definition number_or_absent (f : option float) : bool :=
  match f with Some x => negb (is_nan x) | None => true end.

(** No criterion is NaN: [getSearchCriteria] reads each one with
    [parseFloat] from a text that starts with a digit. *)
Definition criteria_are_numbers (criteria : SearchCriteria) : bool :=
  number_or_absent (c_charge criteria)
  && number_or_absent (c_volume criteria)
  && number_or_absent (c_longueur criteria).

Definition finite_or_absent (f : option float) : bool :=
  match f with Some x => is_finite_number x | None => true end.

Definition vehicle_is_finite (vehicle : Vehicle) : bool :=
  is_finite_number (charge vehicle)
  && finite_or_absent (volume vehicle)
  && finite_or_absent (longueur vehicle).

End Comparateur.

(* ====================================================================== *)
(** * The geocoding request shared by map.ts and concessionCta.ts *)
(* ====================================================================== *)

Module Geocoding.

Import JsString.
Local Open Scope string_scope.

(** [type AddressSuggestion]. *)
Record AddressSuggestion := {
  id : string;
  place_name : string;
  center : float * float;
  text : string
}.

(** The request URL: the template literal of the source, by its holes. *)
Record Url := {
  search : string;        (* encodeURIComponent(cleanQuery) *)
  country : string;
  access_token : string;
  limit : string;
  types : string
}.

Definition href (u : Url) : string :=
  "https://api.mapbox.com/geocoding/v5/mapbox.places/" ++ search u
  ++ ".json?country=" ++ country u
  ++ "&access_token=" ++ access_token u
  ++ "&limit=" ++ limit u
  ++ "&types=" ++ types u.

(** What [await response.json()] gives: a rejection, or data whose
    [features] may be missing. *)
Inductive Body :=
  | json_rejects
  | json_data (features : option (list AddressSuggestion)).

(** What [await fetch(url)] gives. *)
Inductive Response :=
  | fetch_rejects
  | fetch_resolves (ok : bool) (body : Body).

Definition MAPBOX_ACCESS_TOKEN : string :=
  "pk.eyJ1Ijoic3R1ZGlvLXJlbGllZiIsImEiOiJjbWZuczN3dmswNXpxMmtxd2VwNmtuODhmIn0.yWb8YSp3FSuOSCrB3pWtxQ".

Definition types_general : string := "place,locality,neighborhood,address".
Definition types_postcode : string := "postcode,place,locality,address".

(** What a call of an async function comes to: the value its promise is
    fulfilled with, or the URIError it is rejected with. *)
Inductive Settled (A : Type) :=
  | fulfilled (value : A)
  | rejected_URIError.
Arguments fulfilled {A} value.
Arguments rejected_URIError {A}.

(** The URL of a request for suggestions, by the text that
    [encodeURIComponent] returned and the types. *)
Definition suggestions_url (defaultCountry search types : string) : Url :=
  {| search := search; country := defaultCountry;
     access_token := MAPBOX_ACCESS_TOKEN; limit := "5"; types := types |}.

(** The body of both [getAddressSuggestions]: the requests issued, in
    order, and what the promise returned settles to. The URL is built
    before the [try] block is entered: when [encodeURIComponent] throws,
    no request is made and the promise is rejected. Every error inside the
    [try] block gives the empty list. *)
Definition getAddressSuggestions (defaultCountry : string)
    (fetch : Url -> Response) (query : list JsString16.CodeUnit)
    : list Url * Settled (list AddressSuggestion) :=
  let cleanQuery := JsString16.trim query in
  if JsString16.falsy cleanQuery || (List.length cleanQuery <? 2)%nat
  then ([], fulfilled [])
  else
    let isPostalCode := JsString16.test_digits_2_5 cleanQuery in
    let types := types_general in
    let types := if isPostalCode then types_postcode else types in
    match JsString16.encodeURIComponent cleanQuery with
    | None => ([], rejected_URIError)
    | Some search =>
        let url := suggestions_url defaultCountry search types in
        ([url],
         fulfilled
           match fetch url with
           | fetch_rejects => []
           | fetch_resolves ok body =>
               if negb ok then []
               else match body with
                    | json_rejects => []
                    | json_data (Some (feature :: features)) =>
                        map (fun feature =>
                               {| id := id feature;
                                  place_name := place_name feature;
                                  center := center feature;
                                  text := text feature |})
                            (feature :: features)
                    | json_data _ => []
                    end
           end)
    end.

(** [getAddressSuggestions] on a query of code units 0 to 255, where
    [encodeURIComponent] does not throw: the requests issued, in order, and
    the suggestions returned. *)
Definition suggestions_for (defaultCountry : string)
    (fetch : Url -> Response) (query : string)
    : list Url * list AddressSuggestion :=
  let cleanQuery := trim query in
  if falsy cleanQuery || (String.length cleanQuery <? 2)%nat then ([], [])
  else
    let isPostalCode := test_digits_2_5 cleanQuery in
    let types := types_general in
    let types := if isPostalCode then types_postcode else types in
    let url := {| search := encodeURIComponent cleanQuery;
                  country := defaultCountry;
                  access_token := MAPBOX_ACCESS_TOKEN;
                  limit := "5";
                  types := types |} in
    ([url],
     match fetch url with
     | fetch_rejects => []
     | fetch_resolves ok body =>
         if negb ok then []
         else match body with
              | json_rejects => []
              | json_data (Some (feature :: features)) =>
                  map (fun feature =>
                         {| id := id feature;
                            place_name := place_name feature;
                            center := center feature;
                            text := text feature |})
                      (feature :: features)
              | json_data _ => []
              end
     end).

(** The one request issued for a trimmed query and a set of types. *)
Definition request (cleanQuery types : string) : Url :=
  {| search := encodeURIComponent cleanQuery; country := "fr";
     access_token := MAPBOX_ACCESS_TOKEN; limit := "5"; types := types |}.

(** ** The classes of queries, as the specification words them *)

(** The trimmed query is made of 2 to 5 ASCII digits. *)
Definition is_2_to_5_digits (s : string) : Prop :=
  (2 <= String.length s <= 5)%nat
  /\ Forall (fun c => (48 <= code c <= 57)%N) (list_ascii_of_string s).

(** The same, of a string of 16-bit code units. *)
Definition made_of_2_to_5_digits (s : list JsString16.CodeUnit) : Prop :=
  (2 <= List.length s <= 5)%nat
  /\ Forall (fun u => (48 <= JsString16.code u <= 57)%N) s.

End Geocoding.

(* ====================================================================== *)
(** * concessionCta.ts *)
(* ====================================================================== *)

Module ConcessionCta.

Import JsString.
Local Open Scope string_scope.

Definition getAddressSuggestions :=
  Geocoding.getAddressSuggestions "fr".

(** What a handler of the module does to the world outside it. *)
Inductive Effect :=
  | localStorage_setItem (key value : string)
  | location_reload
  | location_assign (target : string).

(** The page as the handlers read it, with the variables of
    [setupAddressAutocomplete]. *)
Record Page := {
  pathname : string;          (* window.location.pathname *)
  input_value : string;       (* #concession-cta-input *)
  has_input : bool;
  has_searchButton : bool;    (* #concession-cta-search *)
  has_geolocateButton : bool; (* #concession-cta-localization *)
  has_suggestionsContainer : bool;
  currentSuggestions : list Geocoding.AddressSuggestion;
  selectedIndex : Z
}.

Definition navigateToConcessions (page : Page) : list Effect :=
  let target := "/concessions#scroll" in
  if String.eqb (pathname page) target then [location_reload]
  else [location_assign target].

(** The JSON texts of the two intents. *)
Definition address_intent (address : string) : string :=
  JSON_stringify [("type", "address"); ("address", address)].

Definition geolocate_intent : string :=
  JSON_stringify [("type", "geolocate")].

(** [performSearch], of [setupAddressAutocomplete]. *)
Definition performSearch (page : Page) (address : string) : list Effect :=
  if falsy (trim address) then []
  else localStorage_setItem "concessionIntent" (address_intent address)
       :: navigateToConcessions page.

(** The click listener of the search button, of [initConcessionCta]. *)
Definition searchButton_click (page : Page) : list Effect :=
  let address := trim (if falsy (input_value page) then "" else input_value page) in
  if falsy address then []
  else localStorage_setItem "concessionIntent" (address_intent address)
       :: navigateToConcessions page.

(** The click listener of the geolocation button. *)
Definition geolocateButton_click (page : Page) : list Effect :=
  localStorage_setItem "concessionIntent" geolocate_intent
  :: navigateToConcessions page.

(** The Enter branch of the [keydown] listener of
    [setupAddressAutocomplete]. [searchBtn.click()] runs the button's click
    listener. *)
Definition autocomplete_keydown_Enter (page : Page) : list Effect :=
  if negb (has_suggestionsContainer page)
     || (length (currentSuggestions page) =? 0)%nat then []
  else if (0 <=? selectedIndex page)%Z
          && (selectedIndex page <? Z.of_nat (length (currentSuggestions page)))%Z
  then
    match nth_error (currentSuggestions page) (Z.to_nat (selectedIndex page)) with
    | Some suggestion => performSearch page (Geocoding.place_name suggestion)
    | None => []
    end
  else if has_searchButton page then searchButton_click page
  else [].

(** The user actions the module listens to. *)
Inductive Event :=
  | suggestion_clicked (suggestion : Geocoding.AddressSuggestion)
  | Enter_pressed
  | search_clicked
  | geolocate_clicked.

(** The listeners installed by [initConcessionCta], by event, in the order
    of their registration. Enter reaches the listener of the autocomplete,
    then the one that clicks the search button. *)
Definition handle (page : Page) (event : Event) : list Effect :=
  match event with
  | suggestion_clicked suggestion =>
      if has_input page
      then performSearch page (Geocoding.place_name suggestion) else []
  | Enter_pressed =>
      (if has_input page then autocomplete_keydown_Enter page else [])
      ++ (if has_searchButton page && has_input page
          then searchButton_click page else [])
  | search_clicked =>
      if has_searchButton page && has_input page
      then searchButton_click page else []
  | geolocate_clicked =>
      if has_geolocateButton page then geolocateButton_click page else []
  end.

End ConcessionCta.

(* ====================================================================== *)
(** * map.ts *)
(* ====================================================================== *)

Module Map.

Import JsString.
Local Open Scope string_scope.
Local Open Scope Z_scope.

(** [API_CONFIG.defaultCountry] is 'fr'. *)
Definition getAddressSuggestions :=
  Geocoding.getAddressSuggestions "fr".

(** ** Values, as [JSON.parse] returns them *)

Inductive JsValue :=
  | JsUndefined
  | JsNull
  | JsBoolean (b : bool)
  | JsNumber (x : float)
  | JsString (s : string)
  | JsArray (items : list JsValue)
  | JsObject (props : list (string * JsValue)).

Fixpoint lookup_prop (name : string) (props : list (string * JsValue))
    : JsValue :=
  match props with
  | [] => JsUndefined
  | (k, v) :: rest => if String.eqb k name then v else lookup_prop name rest
  end.

(** [value.name], for the names 'type' and 'address': reading a property of
    [null] or [undefined] throws a TypeError ([None]); a primitive or an
    array has no such property. *)
Definition get (value : JsValue) (name : string) : option JsValue :=
  match value with
  | JsUndefined | JsNull => None
  | JsObject props => Some (lookup_prop name props)
  | _ => Some JsUndefined
  end.

(** ToBoolean. *)
Definition truthy (value : JsValue) : bool :=
  match value with
  | JsUndefined | JsNull => false
  | JsBoolean b => b
  | JsNumber x => negb (PrimFloat.eqb x 0%float) && negb (PrimFloat.is_nan x)
  | JsString s => negb (falsy s)
  | JsArray _ | JsObject _ => true
  end.

(** [value === 'literal']. *)
Definition is_string (value : JsValue) (literal : string) : bool :=
  match value with
  | JsString s => String.eqb s literal
  | _ => false
  end.

(** ** Consuming the stored intent ([initMap]) *)

(** Whether [document.querySelector] finds the two controls. *)
Record Dom := {
  addressInput : bool;        (* SELECTORS.addressInput *)
  geolocationButton : bool    (* SELECTORS.geolocationButton *)
}.

(** What the consumption does to the page, in order. *)
Inductive Action :=
  | dispatch_concession_intent_address (address : JsValue)
  | click_geolocationButton.

(** A pending [setTimeout(() => tryConsume(retries - 1), 150)]: the time it
    is due and the closure it holds. *)
Record Timer := {
  due : Z;
  timer_intent : JsValue;
  timer_retries : Z
}.

Record World := {
  localStorage : gmap string string;
  actions : list Action;
  timers : list Timer;
  now : Z
}.

Definition removeItem (key : string) (w : World) : World :=
  {| localStorage := delete key (localStorage w);
     actions := actions w; timers := timers w; now := now w |}.

Definition perform (a : Action) (w : World) : World :=
  {| localStorage := localStorage w;
     actions := actions w ++ [a]; timers := timers w; now := now w |}.

Definition setTimeout (intent : JsValue) (retries delay : Z) (w : World)
    : World :=
  {| localStorage := localStorage w; actions := actions w;
     timers := timers w ++ [ {| due := now w + delay; timer_intent := intent;
                                timer_retries := retries |} ];
     now := now w |}.

(** The tail of [tryConsume]. *)
Definition retry (intent : JsValue) (retries : Z) (w : World) : World :=
  if 0 <? retries then setTimeout intent (retries - 1) 150 w else w.

(** [tryConsume(retries)] on the DOM [dom]; [None] is an exception. *)
Definition tryConsume (intent : JsValue) (dom : Dom) (retries : Z) (w : World)
    : option World :=
  match get intent "type" with
  | None => None
  | Some type =>
      match (if is_string type "address" then get intent "address"
             else Some JsUndefined) with
      | None => None
      | Some address =>
          if is_string type "address" && truthy address then
            if addressInput dom then
              Some (removeItem "concessionIntent"
                      (perform (dispatch_concession_intent_address address) w))
            else Some (retry intent retries w)
          else if is_string type "geolocate" then
            if geolocationButton dom then
              Some (removeItem "concessionIntent"
                      (perform click_geolocationButton w))
            else Some (retry intent retries w)
          else Some (retry intent retries w)
      end
  end.

(** A timer that ran: when, and whether its callback threw. *)
Record Ran := { at_time : Z; threw : bool }.

Section Intent.

(** [JSON.parse]: the value, or [None] when it throws a SyntaxError. *)
Variable JSON_parse : string -> option JsValue.

(** The DOM as the page mounts, by time. *)
Variable dom : Z -> Dom.

(** The [try] block of [initMap] that consumes the stored intent. An
    exception of [JSON.parse] or of the first [tryConsume] is caught and
    ignored. *)
Definition consumeIntent (w : World) : World :=
  match localStorage w !! "concessionIntent" with
  | None => w
  | Some raw =>
      if falsy raw then w
      else
        match JSON_parse raw with
        | None => w
        | Some intent =>
            match tryConsume intent (dom (now w)) 20 w with
            | Some w' => w'
            | None => w
            end
        end
  end.

(** The event loop runs the first pending timer at the time it is due. An
    exception in a timer callback is reported and leaves the world as the
    callback found it. *)
Definition run_timer (w : World) : option (Ran * World) :=
  match timers w with
  | [] => None
  | t :: rest =>
      let w1 := {| localStorage := localStorage w; actions := actions w;
                   timers := rest; now := due t |} in
      match tryConsume (timer_intent t) (dom (due t)) (timer_retries t) w1 with
      | Some w2 => Some ({| at_time := due t; threw := false |}, w2)
      | None => Some ({| at_time := due t; threw := true |}, w1)
      end
  end.

(** The event loop, for at most [fuel] timers: the timers that ran, in
    order, and the world reached. *)
Fixpoint run (fuel : nat) (w : World) : list Ran * World :=
  match fuel with
  | O => ([], w)
  | S fuel' =>
      match run_timer w with
      | None => ([], w)
      | Some (r, w') => let '(ran, w'') := run fuel' w' in (r :: ran, w'')
      end
  end.

End Intent.

(** The DOM target an intent waits for is there. *)
Definition target_present (intent : JsValue) (d : Dom) : bool :=
  match get intent "type", get intent "address" with
  | Some type, Some address =>
      if is_string type "address" && truthy address then addressInput d
      else if is_string type "geolocate" then geolocationButton d
      else false
  | _, _ => false
  end.

(** An intent whose properties can be read: anything but [null]. *)
Definition readable (intent : JsValue) : Prop := get intent "type" <> None.

(** The timers that ran are 150 ms apart, the first one 150 ms after [t],
    and none threw. *)
Fixpoint paced (t : Z) (ran : list Ran) : Prop :=
  match ran with
  | [] => True
  | r :: ran' => at_time r = t + 150 /\ threw r = false /\ paced (t + 150) ran'
  end.

(** The world a loop that found nothing leaves: as it began, but for the
    clock. *)
Definition left_alone (w : World) (elapsed : Z) : World :=
  {| localStorage := localStorage w; actions := actions w;
     timers := []; now := now w + elapsed |}.

(** ** Sorting the cards by distance *)

Local Open Scope float_scope.

(** A card of the list: the element, and the text of the distance element
    [findDistanceElement] finds in it, if any. *)
Record Card := {
  element : nat;
  distance_textContent : option string
}.

(** [interface ConcessionWithDistance]. *)
Record ConcessionWithDistance := {
  cwd_element : Card;
  distance : float;
  distanceText : string
}.

Definition is_k (c : ascii) : bool := (code c =? 107)%N || (code c =? 75)%N.
Definition is_m (c : ascii) : bool := (code c =? 109)%N || (code c =? 77)%N.

(** A match of [(\d+(?:\.\d+)?)\s*km] (case-insensitive) at the start of
    [s], giving group 1. Each quantifier is greedy, and giving back what one
    took cannot help: the character that follows would be a digit, a dot or
    a space, none of which the next item accepts. *)
Definition match_here (s : string) : option string :=
  let '(int, r1) := span isDigit s in
  if falsy int then None
  else
    let '(num, r2) :=
      match r1 with
      | String "." r =>
          let '(frac, r') := span isDigit r in
          if falsy frac then (int, r1)
          else ((int ++ String "." frac)%string, r')
      | _ => (int, r1)
      end in
    let '(_, r3) := span isWhiteSpace r2 in
    match r3 with
    | String k (String m _) => if is_k k && is_m m then Some num else None
    | _ => None
    end.

(** [text.match(/(\d+(?:\.\d+)?)\s*km/i)]: the leftmost match. *)
Fixpoint match_distance (s : string) : option string :=
  match match_here s with
  | Some num => Some num
  | None =>
      match s with
      | EmptyString => None
      | String _ s' => match_distance s'
      end
  end.

Section Distance.

(** [parseFloat] on a decimal numeral. *)
Variable parseFloat : string -> float.

(** [extractDistanceValue(distanceElement)], on the element's text. *)
Definition extractDistanceValue (textContent : option string) : float :=
  match textContent with
  | None => infinity
  | Some t =>
      if falsy t then infinity
      else
        let text := trim t in
        match match_distance text with
        | Some m1 => parseFloat m1
        | None => infinity
        end
  end.

(** The distance read from a card, and whether it is unknown. *)
Definition dist (card : Card) : float :=
  extractDistanceValue (distance_textContent card).

Definition unknown (card : Card) : bool := dist card =? infinity.

(** The comparison function given to [sort]. *)
Definition compareDistance (a b : ConcessionWithDistance) : float :=
  if (distance a =? infinity) && (distance b =? infinity) then 0
  else if distance a =? infinity then 1
  else if distance b =? infinity then -1
  else distance a - distance b.

(** [Array.prototype.sort(comparefn)] is a stable sort: it puts [a] after
    [b] when [comparefn(a, b) > 0] and keeps the order of the elements that
    compare equal. For a consistent [comparefn] that fixes the result, which
    insertion computes. *)
Fixpoint insert_by {A} (comparefn : A -> A -> float) (a : A) (l : list A)
    : list A :=
  match l with
  | [] => [a]
  | b :: l' =>
      if 0 <? comparefn a b then b :: insert_by comparefn a l'
      else a :: b :: l'
  end.

Definition sort {A} (comparefn : A -> A -> float) (l : list A) : list A :=
  fold_right (insert_by comparefn) [] l.

Definition withDistance (card : Card) : ConcessionWithDistance :=
  {| cwd_element := card;
     distance := extractDistanceValue (distance_textContent card);
     distanceText :=
       match distance_textContent card with
       | Some t => if falsy t then "N/A" else t
       | None => "N/A"
       end |}.

(** [sortConcessionsByDistanceImmediate], on the cards of the container:
    the order in which it puts them back. *)
Definition sortConcessionsByDistanceImmediate (cards : list Card) : list Card :=
  match cards with
  | [] => []
  | _ =>
      let cardsWithDistance := map withDistance cards in
      map cwd_element (sort compareDistance cardsWithDistance)
  end.

End Distance.

(** The texts [updateAllDistances] leaves in a distance element: while the
    route is computed, and when it failed. *)
Definition text_loading : string := "Calcul".
Definition text_failed : string := "-- KM".

(** ** Recomputing the distances, and the debounced entry point *)

(** What [updateAllDistances] finds for a card: a route, whose distance in
    kilometres [toFixed(1)] has written out; a failure of [getDirections];
    or no coordinates on the card. *)
Inductive Route :=
  | route_found (km : string)
  | route_failed
  | coordinates_missing.

(** The text a batch leaves in the distance element of a card, when the
    card has one: the loading text stays where the coordinates are missing. *)
Definition write_distance (r : Route) (card : Card) : Card :=
  match distance_textContent card with
  | None => card
  | Some _ =>
      {| element := element card;
         distance_textContent :=
           Some match r with
                | route_found km => (km ++ " KM")%string
                | route_failed => text_failed
                | coordinates_missing => text_loading
                end |}
  end.

Section Scheduling.

Variable parseFloat : string -> float.

Local Open Scope Z_scope.

(** The state the sort works on: the cards of the container in their order
    on the page, the module variable [sortDebounceTimeout], the pending
    timers of the sort by identifier and due time, the clock, and the times
    of the reorder passes made so far. *)
Record Sorter := {
  cards : list Card;
  sortDebounceTimeout : option nat;
  pending : list (nat * Z);
  next_timer : nat;
  clock : Z;
  passes : list Z
}.

(** One reorder pass: a call of [sortConcessionsByDistanceImmediate]. *)
Definition reorder (s : Sorter) : Sorter :=
  {| cards := sortConcessionsByDistanceImmediate parseFloat (cards s);
     sortDebounceTimeout := sortDebounceTimeout s; pending := pending s;
     next_timer := next_timer s; clock := clock s;
     passes := passes s ++ [clock s] |}.

Definition clearTimeout (timer : nat) (s : Sorter) : Sorter :=
  {| cards := cards s; sortDebounceTimeout := sortDebounceTimeout s;
     pending := List.filter (fun t => negb (Nat.eqb (fst t) timer)) (pending s);
     next_timer := next_timer s; clock := clock s; passes := passes s |}.

(** [sortConcessionsByDistance(immediate)]. *)
Definition sortConcessionsByDistance (immediate : bool) (s : Sorter) : Sorter :=
  if negb immediate then
    let s := match sortDebounceTimeout s with
             | Some timer => clearTimeout timer s
             | None => s
             end in
    {| cards := cards s; sortDebounceTimeout := Some (next_timer s);
       pending := pending s ++ [(next_timer s, clock s + 500)];
       next_timer := S (next_timer s); clock := clock s; passes := passes s |}
  else reorder s.

(** [updateAllDistances], for a call that runs alone, taken whole at the
    time it returns: every card has the text its route left, and the last
    statement, [sortConcessionsByDistance(true)], runs. The calls whose
    awaits interleave are those of [MapBatches]. *)
Definition updateAllDistances (getDirections : Card -> Route) (s : Sorter)
    : Sorter :=
  sortConcessionsByDistance true
    {| cards := map (fun card => write_distance (getDirections card) card)
                    (cards s);
       sortDebounceTimeout := sortDebounceTimeout s; pending := pending s;
       next_timer := next_timer s; clock := clock s; passes := passes s |}.

(** The event loop runs the timers due by [t], each at the time it is due;
    the clock then reads [t]. *)
Fixpoint fire_due (due_timers : list (nat * Z)) (s : Sorter) : Sorter :=
  match due_timers with
  | [] => s
  | (_, at_time) :: rest =>
      fire_due rest
        (reorder {| cards := cards s;
                    sortDebounceTimeout := sortDebounceTimeout s;
                    pending := pending s; next_timer := next_timer s;
                    clock := at_time; passes := passes s |})
  end.

Definition advance (t : Z) (s : Sorter) : Sorter :=
  let due_now := List.filter (fun p => snd p <=? t) (pending s) in
  let later := List.filter (fun p => negb (snd p <=? t)) (pending s) in
  let s := fire_due due_now
             {| cards := cards s;
                sortDebounceTimeout := sortDebounceTimeout s; pending := later;
                next_timer := next_timer s; clock := clock s;
                passes := passes s |} in
  {| cards := cards s;
     sortDebounceTimeout := sortDebounceTimeout s; pending := pending s;
     next_timer := next_timer s; clock := Z.max (clock s) t;
     passes := passes s |}.

(** What happens on the page, by time: a batch of [updateAllDistances] is
    complete, with what it found; or [sortConcessionsByDistance()] is called
    without the flag. *)
Inductive SortEvent :=
  | batch_completes (t : Z) (getDirections : Card -> Route)
  | sort_requested (t : Z).

Definition sort_step (s : Sorter) (e : SortEvent) : Sorter :=
  match e with
  | batch_completes t getDirections =>
      updateAllDistances getDirections (advance t s)
  | sort_requested t => sortConcessionsByDistance false (advance t s)
  end.

Definition sort_run (events : list SortEvent) (s : Sorter) : Sorter :=
  fold_left sort_step events s.

(** The page as it loads. *)
Definition sorter0 (cards0 : list Card) : Sorter :=
  {| cards := cards0; sortDebounceTimeout := None; pending := [];
     next_timer := 1%nat; clock := 0; passes := [] |}.

End Scheduling.

End Map.

(* ====================================================================== *)
(** * map.ts: [updateAllDistances], one [await] at a time *)
(* ====================================================================== *)

Module MapBatches.

Import JsString Map.
Local Open Scope Z_scope.

(** Where a call of [updateAllDistances] stands: at the [await] of the
    route of a card, or at the [await] of the delay that follows a route
    found; and the cards of its NodeList still to come, by element. *)
Inductive Awaiting :=
  | awaiting_route (cardElement : nat) (rest : list nat)
  | awaiting_delay (due : Z) (rest : list nat).

(** [distanceElement.textContent = text], on the distance element
    [findDistanceElement] finds in the card, if any. *)
Definition set_textContent (text : string) (card : Card) : Card :=
  match distance_textContent card with
  | None => card
  | Some _ =>
      {| element := element card; distance_textContent := Some text |}
  end.

(** The same, on the one card of the page that is [cardElement]. *)
Definition set_textContent_of (cardElement : nat) (text : string)
    (l : list Card) : list Card :=
  map (fun card =>
         if Nat.eqb (element card) cardElement
         then set_textContent text card else card) l.

Definition with_cards (l : list Card) (s : Sorter) : Sorter :=
  {| cards := l; sortDebounceTimeout := sortDebounceTimeout s;
     pending := pending s; next_timer := next_timer s; clock := clock s;
     passes := passes s |}.

(** The state of the sort when the clock reads [t]. *)
Definition at_clock (t : Z) (s : Sorter) : Sorter :=
  {| cards := cards s; sortDebounceTimeout := sortDebounceTimeout s;
     pending := pending s; next_timer := next_timer s; clock := t;
     passes := passes s |}.

Section Batches.

Variable parseFloat : string -> float.

(** Whether the card holds the texts of a latitude and of a longitude. *)
Variable has_coordinates : nat -> bool.

(** The page: the state the sort works on, the calls of
    [updateAllDistances] under way, by number, and the calls that have
    returned, with the time each did. *)
Record Page := {
  sorter : Sorter;
  running : gmap nat Awaiting;
  returned : list (nat * Z)
}.

Definition with_sorter (s : Sorter) (p : Page) : Page :=
  {| sorter := s; running := running p; returned := returned p |}.

(** The [for] loop, from the top of an iteration: a card without
    coordinates is passed at once, the next one stops the call at the
    [await] of its route; past the last card
    [sortConcessionsByDistance(true)] runs and the call returns. *)
Fixpoint proceed (call : nat) (rest : list nat) (p : Page) : Page :=
  match rest with
  | [] =>
      {| sorter := sortConcessionsByDistance parseFloat true (sorter p);
         running := delete call (running p);
         returned := returned p ++ [(call, clock (sorter p))] |}
  | cardElement :: rest' =>
      if has_coordinates cardElement
      then {| sorter := sorter p;
              running := <[call := awaiting_route cardElement rest']> (running p);
              returned := returned p |}
      else proceed call rest' p
  end.

(** What the event loop runs, at time [t]: a call of [updateAllDistances];
    the continuation of a call whose route has settled, with the kilometres
    [toFixed(1)] wrote out, or none when [getDirections] threw; the
    continuation of a call whose delay is over. *)
Inductive BatchEvent :=
  | updateAllDistances_called (t : Z) (call : nat)
  | route_settled (t : Z) (call : nat) (km : option string)
  | delay_over (t : Z) (call : nat).

(** The sort timers due by [t] have run, and the clock reads [t]. *)
Definition at_time (t : Z) (p : Page) : Page :=
  with_sorter (advance parseFloat t (sorter p)) p.

(** [API_CONFIG.rateLimitDelay]. *)
Definition rateLimitDelay : Z := 150.

Definition batch_step (p : Page) (e : BatchEvent) : Page :=
  match e with
  | updateAllDistances_called t call =>
      let p := at_time t p in
      match running p !! call with
      | Some _ => p
      | None =>
          let cardElements := map element (cards (sorter p)) in
          proceed call cardElements
            (with_sorter
               (with_cards (map (set_textContent text_loading)
                                (cards (sorter p)))
                           (sorter p)) p)
      end
  | route_settled t call km =>
      let p := at_time t p in
      match running p !! call with
      | Some (awaiting_route cardElement rest) =>
          match km with
          | Some distance =>
              {| sorter :=
                   with_cards
                     (set_textContent_of cardElement (distance ++ " KM")%string
                        (cards (sorter p)))
                     (sorter p);
                 running :=
                   <[call := awaiting_delay (clock (sorter p) + rateLimitDelay)
                                            rest]> (running p);
                 returned := returned p |}
          | None =>
              proceed call rest
                (with_sorter
                   (with_cards
                      (set_textContent_of cardElement text_failed
                         (cards (sorter p)))
                      (sorter p)) p)
          end
      | _ => p
      end
  | delay_over t call =>
      let p := at_time t p in
      match running p !! call with
      | Some (awaiting_delay due rest) =>
          if due <=? t then proceed call rest p else p
      | _ => p
      end
  end.

Definition batch_run (events : list BatchEvent) (p : Page) : Page :=
  fold_left batch_step events p.

(** The page as it loads. *)
Definition page0 (cards0 : list Card) : Page :=
  {| sorter := sorter0 cards0; running := ∅; returned := [] |}.

End Batches.



(** ** A call that runs alone *)

(** The events of a call that no other comes between, from time [t], by
    what it finds for its cards in turn: a route found settles and the
    delay follows, a route that failed settles, a card without coordinates
    is passed. *)
Fixpoint alone (t : Z) (call : nat) (routes : list Route) : list BatchEvent :=
  match routes with
  | [] => []
  | route_found km :: routes' =>
      route_settled t call (Some km)
      :: delay_over (t + rateLimitDelay) call
      :: alone (t + rateLimitDelay) call routes'
  | route_failed :: routes' =>
      route_settled t call None :: alone t call routes'
  | coordinates_missing :: routes' => alone t call routes'
  end.

(** The time of the last of these events. *)
Fixpoint alone_end (t : Z) (routes : list Route) : Z :=
  match routes with
  | [] => t
  | route_found _ :: routes' => alone_end (t + rateLimitDelay) routes'
  | _ :: routes' => alone_end t routes'
  end.

Definition has_route (r : Route) : bool :=
  match r with coordinates_missing => false | _ => true end.

End MapBatches.

(* ====================================================================== *)
(** * Classes of texts *)
(* ====================================================================== *)

Module JsStringClasses.

Import JsString.

(** [s] holds an ASCII digit. *)
Fixpoint has_digit (s : string) : bool :=
  match s with
  | EmptyString => false
  | String c s' => isDigit c || has_digit s'
  end.

(** [s] is made of ASCII digits only. *)
Fixpoint all_digits (s : string) : bool :=
  match s with
  | EmptyString => true
  | String c s' => isDigit c && all_digits s'
  end.

End JsStringClasses.

(* ====================================================================== *)
(** * The texts of the distance elements, as the specification words them *)
(* ====================================================================== *)

Module MapDistanceText.

Import JsString JsStringClasses.
Local Open Scope string_scope.

(** [s] is made of white space only. *)
Fixpoint all_white_space (s : string) : bool :=
  match s with
  | EmptyString => true
  | String c s' => isWhiteSpace c && all_white_space s'
  end.

(** A decimal numeral: digits, then maybe a dot and digits. *)
Definition decimal_numeral (s : string) : Prop :=
  exists int,
    all_digits int = true /\ int <> ""
    /\ (s = int
        \/ exists frac,
             all_digits frac = true /\ frac <> ""
             /\ s = int ++ String "." frac).

(** What follows the numeral: white space if any, then km. *)
Definition unit_follows (tail : string) : Prop :=
  exists spaces k m after,
    tail = spaces ++ String k (String m after)
    /\ all_white_space spaces = true
    /\ (k = "k"%char \/ k = "K"%char)
    /\ (m = "m"%char \/ m = "M"%char).

(** The text shows a distance: after some text without a digit comes a
    decimal numeral, white space if any, then km in capitals or not; what
    follows is free. *)
Definition shows_distance (text numeral : string) : Prop :=
  exists before spaces k m after,
    text = before ++ numeral ++ spaces ++ String k (String m after)
    /\ has_digit before = false
    /\ decimal_numeral numeral
    /\ all_white_space spaces = true
    /\ (k = "k"%char \/ k = "K"%char)
    /\ (m = "m"%char \/ m = "M"%char).

(** The card shows no distance: it has no distance element, or one whose
    text holds no digit, as 'Calcul' and '-- KM' do. *)
Definition shows_no_distance (textContent : option string) : Prop :=
  match textContent with
  | None => True
  | Some text => has_digit text = false
  end.

End MapDistanceText.

(* ====================================================================== *)
(** * comparateur.ts: showing the result ([comparateurLogic]) *)
(* ====================================================================== *)

Module ComparateurResult.

Import JsString Comparateur.
Local Open Scope string_scope.

(** The vehicle panels of step 3, by vehicle id: the [style.display] of the
    element [.comparateur_step-3_content.is-<id>] that [querySelector]
    finds, for the ids that have one. *)
Abbreviation Panels := (gmap string string).

(** [if (vehicleContent) vehicleContent.style.display = value]. *)
Definition set_display (vehicle : Vehicle) (value : string) (panels : Panels)
    : Panels :=
  match panels !! id vehicle with
  | Some _ => <[id vehicle := value]> panels
  | None => panels
  end.

(** The loop that hides the content of every vehicle. *)
Definition hide_all (vehicles : list Vehicle) (panels : Panels) : Panels :=
  fold_left (fun panels vehicle => set_display vehicle "none" panels)
            vehicles panels.

(** The branch [if (bestVehicle)] of the click listener. *)
Definition show_best (vehicles : list Vehicle) (bestVehicle : option Vehicle)
    (panels : Panels) : Panels :=
  match bestVehicle with
  | Some bestVehicle => set_display bestVehicle "flex" (hide_all vehicles panels)
  | None => panels
  end.

Section Click.

Variable parseFloat : string -> float.

(** The click listener of the trigger of step 2, on the panels. *)
Definition step2_click (d : Dropdowns) (panels : Panels) : Panels :=
  let criteria := getSearchCriteria parseFloat d in
  let bestVehicle := findBestMatch criteria in
  show_best VEHICLES bestVehicle panels.

End Click.

(** The text of a dropdown holds a digit. *)
Definition holds_digit (dropdown : option string) : bool :=
  match dropdown with
  | Some textContent => JsStringClasses.has_digit textContent
  | None => false
  end.

(** The two pickup types. *)
Definition is_pickup (t : VehicleType) : bool :=
  match t with
  | pickup_thermique | pickup_electrique => true
  | _ => false
  end.

End ComparateurResult.

(* ====================================================================== *)
(** * The autocompletion shared by map.ts and concessionCta.ts *)
(* ====================================================================== *)

Module Autocomplete.

Import JsString.
Local Open Scope string_scope.
Local Open Scope Z_scope.

(** ** The keyboard

    The variables the [keydown] listener of [setupAddressAutocomplete]
    (concessionCta.ts) and of [setupAddressInput] (map.ts) works on. *)
Record Selection := {
  suggestionsContainer : bool;   (* null, or the container *)
  currentSuggestions : list Geocoding.AddressSuggestion;
  selectedIndex : Z
}.

(** The variables as they are declared. *)
Definition selection0 : Selection :=
  {| suggestionsContainer := false; currentSuggestions := [];
     selectedIndex := -1 |}.

(** [searchSuggestions], after [await getAddressSuggestions(query)]. *)
Definition suggestions_arrive
    (suggestions : list Geocoding.AddressSuggestion) (s : Selection)
    : Selection :=
  {| suggestionsContainer := true; currentSuggestions := suggestions;
     selectedIndex := -1 |}.

Inductive Key := ArrowDown | ArrowUp | Enter | Escape | other_key.

(** The [keydown] listener, on the variables: Enter and Escape leave them
    as they are. *)
Definition keydown (key : Key) (s : Selection) : Selection :=
  if negb (suggestionsContainer s)
     || (length (currentSuggestions s) =? 0)%nat then s
  else
    match key with
    | ArrowDown =>
        {| suggestionsContainer := suggestionsContainer s;
           currentSuggestions := currentSuggestions s;
           selectedIndex :=
             Z.min (selectedIndex s + 1)
                   (Z.of_nat (length (currentSuggestions s)) - 1) |}
    | ArrowUp =>
        {| suggestionsContainer := suggestionsContainer s;
           currentSuggestions := currentSuggestions s;
           selectedIndex := Z.max (selectedIndex s - 1) (-1) |}
    | _ => s
    end.

(** The suggestion the Enter branch takes:
    [currentSuggestions[selectedIndex]] under its guard. *)
Definition selected (s : Selection) : option Geocoding.AddressSuggestion :=
  if (0 <=? selectedIndex s)
     && (selectedIndex s <? Z.of_nat (length (currentSuggestions s)))
  then nth_error (currentSuggestions s) (Z.to_nat (selectedIndex s))
  else None.

Inductive SelectionEvent :=
  | arrive (suggestions : list Geocoding.AddressSuggestion)
  | press (key : Key).

Definition selection_step (s : Selection) (e : SelectionEvent) : Selection :=
  match e with
  | arrive suggestions => suggestions_arrive suggestions s
  | press key => keydown key s
  end.

Definition selection_run (events : list SelectionEvent) (s : Selection)
    : Selection :=
  fold_left selection_step events s.

(** ** The debounce of the [input] listener

    The variable [debounceTimeout], the pending timers by identifier, with
    the time each is due and the query its closure holds, the clock, and the
    calls of [searchSuggestions] made so far: when, and with what query. *)
Record Typing := {
  debounceTimeout : option nat;
  pending : list (nat * (Z * string));
  next_timer : nat;
  clock : Z;
  searches : list (Z * string)
}.

Definition typing0 : Typing :=
  {| debounceTimeout := None; pending := []; next_timer := 1%nat;
     clock := 0; searches := [] |}.

Definition clearTimeout (timer : nat) (s : Typing) : Typing :=
  {| debounceTimeout := debounceTimeout s;
     pending := List.filter (fun t => negb (Nat.eqb (fst t) timer)) (pending s);
     next_timer := next_timer s; clock := clock s; searches := searches s |}.

(** The [input] listener, with the value the input holds. *)
Definition input_listener (value : string) (s : Typing) : Typing :=
  let query := trim value in
  let s := match debounceTimeout s with
           | Some timer => clearTimeout timer s
           | None => s
           end in
  {| debounceTimeout := Some (next_timer s);
     pending := pending s ++ [(next_timer s, (clock s + 300, query))];
     next_timer := S (next_timer s); clock := clock s;
     searches := searches s |}.

(** The event loop runs the timers due by [t], each at the time it is due:
    the callback calls [searchSuggestions(query)]. *)
Fixpoint typing_fire_due (due_timers : list (nat * (Z * string))) (s : Typing)
    : Typing :=
  match due_timers with
  | [] => s
  | (_, (at_time, query)) :: rest =>
      typing_fire_due rest
        {| debounceTimeout := debounceTimeout s; pending := pending s;
           next_timer := next_timer s; clock := at_time;
           searches := searches s ++ [(at_time, query)] |}
  end.

Definition typing_advance (t : Z) (s : Typing) : Typing :=
  let due_now := List.filter (fun p => fst (snd p) <=? t) (pending s) in
  let later := List.filter (fun p => negb (fst (snd p) <=? t)) (pending s) in
  let s := typing_fire_due due_now
             {| debounceTimeout := debounceTimeout s; pending := later;
                next_timer := next_timer s; clock := clock s;
                searches := searches s |} in
  {| debounceTimeout := debounceTimeout s; pending := pending s;
     next_timer := next_timer s; clock := Z.max (clock s) t;
     searches := searches s |}.

(** An [input] event at time [t], the input holding [value]. *)
Definition typing_step (s : Typing) (e : Z * string) : Typing :=
  input_listener (snd e) (typing_advance (fst e) s).

Definition typing_run (events : list (Z * string)) (s : Typing) : Typing :=
  fold_left typing_step events s.

(** What a call of [searchSuggestions(query)] asks the geocoding service:
    nothing for a query of less than two characters. *)
Definition searchSuggestions_requests
    (fetch : Geocoding.Url -> Geocoding.Response) (query : string)
    : list Geocoding.Url :=
  if (String.length query <? 2)%nat then []
  else fst (Geocoding.suggestions_for "fr" fetch query).

(** The requests the searches made so far have sent. *)
Definition requests (fetch : Geocoding.Url -> Geocoding.Response) (s : Typing)
    : list Geocoding.Url :=
  concat (map (fun call => searchSuggestions_requests fetch (snd call))
              (searches s)).

(** A burst of [input] events: each one less than 300 ms after the one
    before, the first one no earlier than [t]. *)
Fixpoint burst (t : Z) (events : list (Z * string)) : Prop :=
  match events with
  | [] => True
  | (t', _) :: rest => t <= t' < t + 300 /\ burst t' rest
  end.

End Autocomplete.

(* ====================================================================== *)
(** * concessionCta.ts: what the handlers leave in storage *)
(* ====================================================================== *)

Module ConcessionCtaStorage.

Import ConcessionCta.

(** [localStorage] after the effects of a handler. *)
Definition stored (effects : list Effect) (storage : gmap string string)
    : gmap string string :=
  fold_left (fun storage effect =>
               match effect with
               | localStorage_setItem key value => <[key := value]> storage
               | _ => storage
               end) effects storage.

End ConcessionCtaStorage.

(* ====================================================================== *)
(** * map.ts: locating an address *)
(* ====================================================================== *)

Module MapAddress.

Import JsString Geocoding.
Local Open Scope string_scope.

(** The errors [geocodeAddress] throws; [URIError] is the one of
    [encodeURIComponent]. *)
Inductive GeocodeError :=
  | Adresse_vide
  | URIError
  | fetch_rejected
  | HTTP_error
  | json_rejected
  | Aucun_resultat (address : list JsString16.CodeUnit).

(** The URL of a geocoding request, by the text that [encodeURIComponent]
    returned and the types. *)
Definition geocode_url (search types : string) : Url :=
  {| search := search; country := "fr";
     access_token := MAPBOX_ACCESS_TOKEN; limit := "1"; types := types |}.

(** [geocodeAddress(address)]: the requests issued, and the coordinates
    [[longitude, latitude]] or the error thrown. The URL is built before
    the [try] block is entered, whose [catch] throws again what it
    caught. *)
Definition geocodeAddress (fetch : Url -> Response)
    (address : list JsString16.CodeUnit)
    : list Url * (GeocodeError + float * float) :=
  let cleanAddress := JsString16.trim address in
  if JsString16.falsy cleanAddress then ([], inl Adresse_vide)
  else
    let isPostalCode := JsString16.test_digits_5 cleanAddress in
    let types := types_general in
    let types := if isPostalCode then types_postcode else types in
    match JsString16.encodeURIComponent cleanAddress with
    | None => ([], inl URIError)
    | Some search =>
        let url := geocode_url search types in
        ([url],
         match fetch url with
         | fetch_rejects => inl fetch_rejected
         | fetch_resolves ok body =>
             if negb ok then inl HTTP_error
             else match body with
                  | json_rejects => inl json_rejected
                  | json_data (Some (feature :: _)) =>
                      let '(longitude, latitude) := center feature in
                      inr (longitude, latitude)
                  | json_data _ => inl (Aucun_resultat address)
                  end
         end)
    end.

(** The trimmed address is made of five ASCII digits. *)
Definition made_of_5_digits (s : list JsString16.CodeUnit) : Prop :=
  List.length s = 5%nat
  /\ Forall (fun u => (48 <= JsString16.code u <= 57)%N) s.

(** *** On a text of code units 0 to 255 *)

(** [/^\d{5}$/.test(s)]. *)
Definition test_digits_5 (s : string) : bool :=
  let '(k, rest) := digits_upto 5 s in
  (k =? 5)%nat && falsy rest.

(** The one request issued for a trimmed address and a set of types. *)
Definition geocode_request (cleanAddress types : string) : Url :=
  {| search := encodeURIComponent cleanAddress; country := "fr";
     access_token := MAPBOX_ACCESS_TOKEN; limit := "1"; types := types |}.

(** The trimmed address is made of five ASCII digits. *)
Definition is_5_digits (s : string) : Prop :=
  String.length s = 5%nat
  /\ Forall (fun c => (48 <= code c <= 57)%N) (list_ascii_of_string s).

(** ** [processAddress], of [setupAddressInput] *)

(** What [processAddress] does to the page, in order. *)
Inductive PageEffect :=
  | hideSuggestions
  | input_loading (loading : bool)     (* the class 'loading' of the input *)
  | input_disabled (disabled : bool)
  | set_userLocation (coordinates : float * float)
  | removeLocationRequestCard
  | removeExistingUserMarker
  | flyToLocation (coordinates : float * float)
  | setTopDistanceVisibility (visible : bool)
  | createUserMarker (coordinates : float * float)
      (address : list JsString16.CodeUnit)
  | updateAllDistances (coordinates : float * float)
  | alert_not_located (address : list JsString16.CodeUnit).

(** [processAddress(address, coordinates)]: the geocoding requests issued
    and what is done to the page. *)
Definition processAddress (fetch : Url -> Response)
    (address : list JsString16.CodeUnit)
    (coordinates : option (float * float))
    : list Url * list PageEffect :=
  if JsString16.falsy (JsString16.trim address) then ([], [])
  else
    let '(requests, located) :=
      match coordinates with
      | Some c => ([], inr c)
      | None => geocodeAddress fetch address
      end in
    (requests,
     [hideSuggestions; input_loading true; input_disabled true]
     ++ match located with
        | inr (longitude, latitude) =>
            [set_userLocation (longitude, latitude);
             removeLocationRequestCard;
             removeExistingUserMarker;
             flyToLocation (longitude, latitude);
             setTopDistanceVisibility true;
             createUserMarker (longitude, latitude) address;
             updateAllDistances (longitude, latitude)]
        | inl _ => [alert_not_located address]
        end
     ++ [input_loading false; input_disabled false])%list.

End MapAddress.

(* ====================================================================== *)
(** * map.ts: the listeners [initMap] binds, and what an intent sets off *)
(* ====================================================================== *)

Module MapInit.

Import JsString Geocoding Map MapAddress.
Local Open Scope string_scope.

(** What consuming an intent does to the page: the event it dispatches or
    the click it makes; none for an intent of neither kind. *)
Definition intent_action (intent : JsValue) : option Action :=
  match get intent "type", get intent "address" with
  | Some type, Some address =>
      if is_string type "address" && truthy address
      then Some (dispatch_concession_intent_address address)
      else if is_string type "geolocate" then Some click_geolocationButton
      else None
  | _, _ => None
  end.

(** The world once the intent is consumed at time [t]. *)
Definition consumed (a : Action) (t : Z) (w : World) : World :=
  {| localStorage := delete "concessionIntent" (localStorage w);
     actions := actions w ++ [a]; timers := []; now := t |}.

(** [setupGeolocation] binds its click listener to the geolocation button
    it finds, and [setupAddressInput] its listener of
    'concession-intent-address' when it finds the address input; each
    returns at once when its element is not there. [initMap] calls both
    before it consumes the intent. *)
Record Bound := {
  geolocation_click_bound : bool;
  intent_address_bound : bool
}.

Definition bind (d : Dom) : Bound :=
  {| geolocation_click_bound := geolocationButton d;
     intent_address_bound := addressInput d |}.

(** What an action of the consumption sets off. *)
Inductive Reaction :=
  | no_listener
  | nothing_done                      (* the listener returned at once *)
  | getCurrentPosition                (* the position is asked for *)
  | alert_geolocation_unsupported
  | address_rejected (value : JsValue)   (* [address.trim] is not a function *)
  | address_processed (value : string)   (* the value given to the input *)
      (requests : list Url) (effects : list PageEffect).

(** The listener of 'concession-intent-address', on [detail.address]; the
    strings of a [JsValue] are texts of code units 0 to 255. *)
Definition on_concession_intent_address (fetch : Url -> Response)
    (address : JsValue) : Reaction :=
  if negb (truthy address) then nothing_done
  else
    match address with
    | JsString s =>
        let '(requests, effects) :=
          processAddress fetch (JsString16.of_string s) None in
        address_processed s requests effects
    | _ => address_rejected address
    end.

(** The click listener of the geolocation button, as far as the request of
    the position. *)
Definition on_geolocation_click (navigator_geolocation : bool) : Reaction :=
  if negb navigator_geolocation then alert_geolocation_unsupported
  else getCurrentPosition.

Definition react (fetch : Url -> Response) (navigator_geolocation : bool)
    (bound : Bound) (a : Action) : Reaction :=
  match a with
  | dispatch_concession_intent_address address =>
      if intent_address_bound bound
      then on_concession_intent_address fetch address
      else no_listener
  | click_geolocationButton =>
      if geolocation_click_bound bound
      then on_geolocation_click navigator_geolocation
      else no_listener
  end.

End MapInit.

(* ====================================================================== *)
(** * map.ts: the markers and their popups ([initMap]) *)
(* ====================================================================== *)

Module MapMarkers.

(** A card and the marker made for it are named by the index of the card
    in [document.querySelectorAll(SELECTORS.projectCards)]: the marker of
    card [index] has the id 'marker-index'. A timer is named by the
    identifier [setTimeout] returns, a positive integer. *)

(** The calls into the map library, in order. *)
Inductive Call :=
  | popup_addTo (marker : nat)
  | popup_remove (marker : nat)
  | removePopupWithFade (marker : nat)
  | flyToLocation (marker : nat).

(** The variables of [initMap] that manage the popups, the classes 'show'
    and 'active' of the markers and 'active' of the cards, and the pending
    timers with the marker their callback holds. *)
Record Markers := {
  allMarkers : list nat;
  currentClickedMarker : option nat;
  currentClickedItem : option nat;
  isClickActive : bool;
  hoverTimeouts : gmap nat positive;
  show : gset nat;
  active : gset nat;
  cards_active : gset nat;
  timers : gmap positive nat;
  next_timer : positive;
  calls : list Call
}.

(** The page as [initMap] leaves it, with a marker for each card of
    [markers]. *)
Definition markers0 (markers : list nat) : Markers :=
  {| allMarkers := markers; currentClickedMarker := None;
     currentClickedItem := None; isClickActive := false;
     hoverTimeouts := ∅; show := ∅; active := ∅; cards_active := ∅;
     timers := ∅; next_timer := 1%positive; calls := [] |}.

(** [clearElementTimeout(element)]. *)
Definition clearElementTimeout (element : nat) (s : Markers) : Markers :=
  match hoverTimeouts s !! element with
  | Some timeout =>
      {| allMarkers := allMarkers s;
         currentClickedMarker := currentClickedMarker s;
         currentClickedItem := currentClickedItem s;
         isClickActive := isClickActive s;
         hoverTimeouts := delete element (hoverTimeouts s);
         show := show s; active := active s; cards_active := cards_active s;
         timers := delete timeout (timers s);
         next_timer := next_timer s; calls := calls s |}
  | None => s
  end.

(** [setElementTimeout(element, callback, delay)], for the one callback
    the code gives it: the one that closes the popup of [element]. *)
Definition setElementTimeout (element : nat) (s : Markers) : Markers :=
  let s := clearElementTimeout element s in
  let timeout := next_timer s in
  {| allMarkers := allMarkers s;
     currentClickedMarker := currentClickedMarker s;
     currentClickedItem := currentClickedItem s;
     isClickActive := isClickActive s;
     hoverTimeouts := <[element := timeout]> (hoverTimeouts s);
     show := show s; active := active s; cards_active := cards_active s;
     timers := <[timeout := element]> (timers s);
     next_timer := Pos.succ timeout; calls := calls s |}.

(** [clearAllPopupsAndMarkers]. *)
Definition clearAllPopupsAndMarkers (s : Markers) : Markers :=
  {| allMarkers := allMarkers s;
     currentClickedMarker := None;
     currentClickedItem := None;
     isClickActive := false;
     hoverTimeouts := ∅;
     show := show s ∖ list_to_set (allMarkers s);
     active := active s ∖ list_to_set (allMarkers s);
     cards_active := ∅;
     timers := foldr (fun entry pending => delete (snd entry) pending)
                 (timers s) (map_to_list (hoverTimeouts s));
     next_timer := next_timer s;
     calls := calls s ++ map popup_remove (allMarkers s) |}.

(** [isClickActive && currentClickedMarker === markerElement]. *)
Definition is_clicked (marker : nat) (s : Markers) : bool :=
  isClickActive s && bool_decide (currentClickedMarker s = Some marker).

(** The callback of the hover timers. *)
Definition close_popup (marker : nat) (s : Markers) : Markers :=
  if bool_decide (currentClickedMarker s <> Some marker)
     || negb (isClickActive s)
  then
    {| allMarkers := allMarkers s;
       currentClickedMarker := currentClickedMarker s;
       currentClickedItem := currentClickedItem s;
       isClickActive := isClickActive s;
       hoverTimeouts := hoverTimeouts s;
       show := show s ∖ {[marker]};
       active := active s ∖ {[marker]};
       cards_active := cards_active s;
       timers := timers s; next_timer := next_timer s;
       calls := calls s ++ [removePopupWithFade marker] |}
  else s.

(** The [click] listener of a marker. *)
Definition marker_click (marker : nat) (s : Markers) : Markers :=
  let s := clearAllPopupsAndMarkers s in
  {| allMarkers := allMarkers s;
     currentClickedMarker := Some marker;
     currentClickedItem := Some marker;
     isClickActive := true;
     hoverTimeouts := hoverTimeouts s;
     show := show s ∪ {[marker]};
     active := active s ∪ {[marker]};
     cards_active := cards_active s ∪ {[marker]};
     timers := timers s; next_timer := next_timer s;
     calls := calls s ++ [popup_addTo marker; flyToLocation marker] |}.

(** The [mouseenter] listener of a marker. *)
Definition marker_mouseenter (marker : nat) (s : Markers) : Markers :=
  let s := clearElementTimeout marker s in
  if is_clicked marker s then s
  else
    {| allMarkers := allMarkers s;
       currentClickedMarker := currentClickedMarker s;
       currentClickedItem := currentClickedItem s;
       isClickActive := isClickActive s;
       hoverTimeouts := hoverTimeouts s;
       show := show s ∪ {[marker]};
       active := active s; cards_active := cards_active s;
       timers := timers s; next_timer := next_timer s;
       calls := calls s ++ [popup_addTo marker] |}.

(** The [mouseleave] listener of a marker, and of its popup. *)
Definition marker_mouseleave (marker : nat) (s : Markers) : Markers :=
  if is_clicked marker s then s else setElementTimeout marker s.

(** The [mouseenter] listener of a popup: the timer of its marker is
    cleared; the one of its card too, which is never set. *)
Definition popup_mouseenter (marker : nat) (s : Markers) : Markers :=
  clearElementTimeout marker s.

(** What happens on the page. A click on the map itself reaches the
    listener each card has given the map. *)
Inductive MarkerEvent :=
  | click_marker (marker : nat)
  | enter_marker (marker : nat)
  | leave_marker (marker : nat)
  | enter_popup (marker : nat)
  | leave_popup (marker : nat)
  | click_map
  | timeout_fires (timeout : positive).

Definition has_marker (marker : nat) (s : Markers) : bool :=
  bool_decide (marker ∈ allMarkers s).

Definition step (s : Markers) (e : MarkerEvent) : Markers :=
  match e with
  | click_marker m => if has_marker m s then marker_click m s else s
  | enter_marker m => if has_marker m s then marker_mouseenter m s else s
  | leave_marker m => if has_marker m s then marker_mouseleave m s else s
  | enter_popup m => if has_marker m s then popup_mouseenter m s else s
  | leave_popup m => if has_marker m s then marker_mouseleave m s else s
  | click_map =>
      Nat.iter (length (allMarkers s)) clearAllPopupsAndMarkers s
  | timeout_fires timeout =>
      match timers s !! timeout with
      | Some m =>
          close_popup m
            {| allMarkers := allMarkers s;
               currentClickedMarker := currentClickedMarker s;
               currentClickedItem := currentClickedItem s;
               isClickActive := isClickActive s;
               hoverTimeouts := hoverTimeouts s;
               show := show s; active := active s;
               cards_active := cards_active s;
               timers := delete timeout (timers s);
               next_timer := next_timer s; calls := calls s |}
      | None => s
      end
  end.

Definition markers_run (events : list MarkerEvent) (s : Markers) : Markers :=
  fold_left step events s.

End MapMarkers.

(* ====================================================================== *)
(** * Facts about JavaScript numbers *)
(* ====================================================================== *)

Module JsNumberFacts.

Import JsNumber.

(** ** The binary64 specification: results that are never NaN *)

Section SpecFloat.

Variables prec emax : Z.
Local Open Scope Z_scope.

(** [r] is not NaN and carries the sign [s]. *)
Definition signed (s : bool) (r : spec_float) : Prop :=
  match r with
  | S754_zero s' | S754_infinity s' | S754_finite s' _ _ => s' = s
  | S754_nan => False
  end.

Definition is_number (r : spec_float) : Prop :=
  match r with S754_nan => False | _ => True end.

Definition is_finite (r : spec_float) : Prop :=
  match r with S754_zero _ | S754_finite _ _ _ => True | _ => False end.

Lemma signed_is_number s r : signed s r -> is_number r.
Proof. destruct r; simpl; auto. Qed.

Lemma shr_1_nonneg mrs : 0 <= shr_m mrs -> 0 <= shr_m (shr_1 mrs).
Proof.
  destruct mrs as [m r s]; simpl. destruct m as [|[p|p|]|[p|p|]]; simpl; lia.
Qed.

Lemma iter_pos_shr_1_nonneg p : forall mrs,
  0 <= shr_m mrs -> 0 <= shr_m (SpecFloat.iter_pos shr_1 p mrs).
Proof.
  induction p; simpl; intros mrs H; auto using shr_1_nonneg.
Qed.

Lemma shr_nonneg mrs e n : 0 <= shr_m mrs -> 0 <= shr_m (fst (shr mrs e n)).
Proof.
  unfold shr. destruct n; simpl; auto using iter_pos_shr_1_nonneg.
Qed.

Lemma shr_record_of_loc_m m l : shr_m (shr_record_of_loc m l) = m.
Proof. destruct l as [|[]]; reflexivity. Qed.

Lemma shr_fexp_nonneg m e l :
  0 <= m -> 0 <= shr_m (fst (shr_fexp prec emax m e l)).
Proof.
  intros H. unfold shr_fexp. apply shr_nonneg.
  rewrite shr_record_of_loc_m. exact H.
Qed.

Lemma round_nearest_even_nonneg m l : 0 <= m -> 0 <= round_nearest_even m l.
Proof.
  unfold round_nearest_even. destruct l as [|[]]; try destruct (Z.even m); lia.
Qed.

(** Rounding a non-negative mantissa gives a number with the sign asked
    for: the NaN branch of [binary_round_aux] is dead. *)
Lemma binary_round_aux_signed s m e l :
  0 <= m -> signed s (binary_round_aux prec emax s m e l).
Proof.
  intros H. unfold binary_round_aux.
  pose proof (shr_fexp_nonneg m e l H) as H1.
  destruct (shr_fexp prec emax m e l) as [mrs' e']. simpl in H1.
  pose proof (shr_fexp_nonneg _ e' loc_Exact
                (round_nearest_even_nonneg _ (loc_of_shr_record mrs') H1)) as H2.
  destruct (shr_fexp prec emax _ e' loc_Exact) as [mrs'' e'']. simpl in H2.
  destruct (shr_m mrs''); simpl; try reflexivity; try lia.
  destruct (e'' <=? emax - prec); reflexivity.
Qed.

Lemma binary_round_signed s m e : signed s (binary_round prec emax s m e).
Proof.
  unfold binary_round. destruct (shl_align _ _ _) as [mz ez].
  apply binary_round_aux_signed. lia.
Qed.

Lemma binary_normalize_is_number m e sz :
  is_number (binary_normalize prec emax m e sz).
Proof.
  destruct m; simpl; auto; eapply signed_is_number, binary_round_signed.
Qed.

Lemma SFsub_is_number x y :
  is_finite x -> is_number y -> is_number (SFsub prec emax x y).
Proof.
  destruct x as [[]|[]| |sx mx ex], y as [[]|[]| |sy my ey]; simpl; auto;
    intros _ _; apply binary_normalize_is_number.
Qed.

Lemma SFabs_signed x : is_number x -> signed false (SFabs x).
Proof. destruct x; simpl; auto. Qed.

Lemma div_eucl_nonneg a b : 0 <= a -> 0 < b -> 0 <= fst (Z.div_eucl a b).
Proof.
  intros Ha Hb. pose proof (Z.div_pos a b Ha Hb) as H.
  unfold Z.div in H. destruct (Z.div_eucl a b). exact H.
Qed.

Lemma SFdiv_core_binary_nonneg m1 e1 m2 e2 :
  0 <= fst (fst (SFdiv_core_binary prec emax (Zpos m1) e1 (Zpos m2) e2)).
Proof.
  unfold SFdiv_core_binary.
  set (s := _ - _ - _).
  set (m' := match s with Z0 => _ | Zpos _ => _ | Zneg _ => _ end).
  assert (Hm : 0 <= m').
  { subst m'. destruct s; try lia. apply Z.shiftl_nonneg. lia. }
  pose proof (div_eucl_nonneg m' (Zpos m2) Hm ltac:(lia)) as H.
  destruct (Z.div_eucl m' (Zpos m2)) as [q r]. exact H.
Qed.

(** A non-negative number divided by a positive finite one. *)
Lemma SFdiv_signed x my ey :
  signed false x -> signed false (SFdiv prec emax x (S754_finite false my ey)).
Proof.
  destruct x as [s|s| |s mx ex]; simpl; intros H; subst; auto.
  pose proof (SFdiv_core_binary_nonneg mx ex my ey) as Hq.
  destruct (SFdiv_core_binary prec emax (Zpos mx) ex (Zpos my) ey)
    as [[mz ez] lz].
  simpl in *. apply binary_round_aux_signed. exact Hq.
Qed.

(** A non-negative number times a positive finite one. *)
Lemma SFmul_signed x my ey :
  signed false x -> signed false (SFmul prec emax x (S754_finite false my ey)).
Proof.
  destruct x as [s|s| |s mx ex]; simpl; intros H; subst; auto.
  apply binary_round_aux_signed. lia.
Qed.

Lemma SFadd_signed x y :
  signed false x -> signed false y -> signed false (SFadd prec emax x y).
Proof.
  destruct x as [sx|sx| |sx mx ex], y as [sy|sy| |sy my ey]; simpl;
    intros Hx Hy; subst; simpl; auto.
  apply binary_round_signed.
Qed.

(** *** The sign of a difference

    From here on the precision is positive, as it is for binary64. *)

Hypothesis prec_pos : 0 < prec.

Abbreviation emin := (SpecFloat.emin prec emax).
Abbreviation fexp := (SpecFloat.fexp prec emax).

Lemma digits2_pos_bounds m :
  2 ^ (Zpos (digits2_pos m) - 1) <= Zpos m < 2 ^ Zpos (digits2_pos m).
Proof.
  induction m as [m IH|m IH|]; simpl digits2_pos.
  - rewrite Pos2Z.inj_succ.
    replace (Z.succ (Zpos (digits2_pos m)) - 1)
      with (Z.succ (Zpos (digits2_pos m) - 1)) by lia.
    rewrite !Z.pow_succ_r by lia. lia.
  - rewrite Pos2Z.inj_succ.
    replace (Z.succ (Zpos (digits2_pos m)) - 1)
      with (Z.succ (Zpos (digits2_pos m) - 1)) by lia.
    rewrite !Z.pow_succ_r by lia. lia.
  - simpl. lia.
Qed.

Lemma shr_1_div2 mrs : 0 <= shr_m mrs -> shr_m (shr_1 mrs) = shr_m mrs / 2.
Proof.
  destruct mrs as [m r s]. destruct m as [|[p|p|]|p];
    cbn [shr_1 shr_m]; intros H; try lia; try reflexivity.
  - apply Z.div_unique with 1; lia.
  - apply Z.div_unique with 0; lia.
Qed.

Lemma div2_nonneg m : 0 <= m -> 0 <= m / 2.
Proof. intros. apply Z.div_pos; lia. Qed.

Lemma iter_pos_shr_1_div p : forall mrs,
  0 <= shr_m mrs ->
  shr_m (SpecFloat.iter_pos shr_1 p mrs) = shr_m mrs / 2 ^ Zpos p.
Proof.
  induction p as [p IH|p IH|]; intros mrs H; simpl SpecFloat.iter_pos.
  - assert (H1 : 0 <= shr_m (shr_1 mrs))
      by (rewrite shr_1_div2 by lia; apply div2_nonneg, H).
    assert (H2 : 0 <= shr_m (SpecFloat.iter_pos shr_1 p (shr_1 mrs))).
    { rewrite IH by exact H1. apply Z.div_pos; [exact H1|].
      apply Z.pow_pos_nonneg; lia. }
    rewrite IH by exact H2. rewrite IH by exact H1. rewrite shr_1_div2 by exact H.
    rewrite !Z.div_div by (try apply Z.pow_pos_nonneg; lia).
    f_equal. rewrite <- Z.pow_add_r, <- Z.pow_succ_r by lia. f_equal. lia.
  - assert (H2 : 0 <= shr_m (SpecFloat.iter_pos shr_1 p mrs)).
    { rewrite IH by exact H. apply Z.div_pos; [exact H|].
      apply Z.pow_pos_nonneg; lia. }
    rewrite IH by exact H2. rewrite IH by exact H.
    rewrite !Z.div_div by (try apply Z.pow_pos_nonneg; lia).
    f_equal. rewrite <- Z.pow_add_r by lia. f_equal. lia.
  - rewrite shr_1_div2 by exact H. reflexivity.
Qed.

(** Shifting a positive mantissa at an exponent not below [emin] leaves it
    positive, at an exponent not below [emin]. *)
Lemma shr_fexp_pos m e l :
  emin <= e ->
  0 < shr_m (fst (shr_fexp prec emax (Zpos m) e l))
  /\ emin <= snd (shr_fexp prec emax (Zpos m) e l).
Proof.
  intros He. unfold shr_fexp, shr. simpl Zdigits2.
  pose proof (digits2_pos_bounds m) as Hd.
  set (d := Zpos (digits2_pos m)) in *.
  unfold SpecFloat.fexp.
  destruct (Z.max (d + e - prec) emin - e) as [|n|n] eqn:En; simpl;
    try (split; [|lia]).
  - rewrite shr_record_of_loc_m. lia.
  - rewrite iter_pos_shr_1_div by (rewrite shr_record_of_loc_m; lia).
    assert (Hn : Zpos n = d - prec) by lia.
    rewrite shr_record_of_loc_m.
    apply Z.div_str_pos. split; [apply Z.pow_pos_nonneg; lia|].
    eapply Z.le_trans; [|apply Hd]. apply Z.pow_le_mono_r; lia.
  - rewrite shr_record_of_loc_m. lia.
Qed.

Definition positive_sf (r : spec_float) : Prop :=
  match r with
  | S754_finite false _ _ | S754_infinity false => True
  | _ => False
  end.

Lemma round_nearest_even_ge m l : m <= round_nearest_even m l.
Proof.
  unfold round_nearest_even. destruct l as [|[]]; try destruct (Z.even m); lia.
Qed.

Lemma binary_round_aux_positive m e l :
  emin <= e -> positive_sf (binary_round_aux prec emax false (Zpos m) e l).
Proof.
  intros He. unfold binary_round_aux.
  destruct (shr_fexp_pos m e l He) as [H1 H2].
  destruct (shr_fexp prec emax (Zpos m) e l) as [mrs' e']. simpl in H1, H2.
  pose proof (round_nearest_even_ge (shr_m mrs') (loc_of_shr_record mrs')) as Hr.
  destruct (round_nearest_even (shr_m mrs') (loc_of_shr_record mrs'))
    as [|m1|m1] eqn:E1; try lia.
  destruct (shr_fexp_pos m1 e' loc_Exact H2) as [H3 H4].
  destruct (shr_fexp prec emax (Zpos m1) e' loc_Exact) as [mrs'' e'']. simpl in H3.
  destruct (shr_m mrs''); try lia.
  destruct (e'' <=? emax - prec); exact I.
Qed.

Lemma iter_xO_pow m d : Zpos (Pos.iter xO m d) = Zpos m * 2 ^ Zpos d.
Proof.
  induction d as [|d IH] using Pos.peano_ind.
  - change (Zpos m~0 = Zpos m * 2). lia.
  - rewrite Pos.iter_succ.
    change (Zpos (Pos.iter xO m d)~0) with (2 * Zpos (Pos.iter xO m d)).
    rewrite IH, Pos2Z.inj_succ, Z.pow_succ_r by lia. ring.
Qed.

Lemma shl_align_spec m e e' :
  Zpos (fst (shl_align m e e')) = Zpos m * 2 ^ (e - Z.min e e')
  /\ snd (shl_align m e e') = Z.min e e'.
Proof.
  unfold shl_align. destruct (e' - e) as [|d|d] eqn:E; cbn [fst snd].
  - replace (Z.min e e') with e by lia. rewrite Z.sub_diag, Z.pow_0_r. lia.
  - replace (Z.min e e') with e by lia. rewrite Z.sub_diag, Z.pow_0_r. lia.
  - replace (Z.min e e') with e' by lia.
    replace (e - e') with (Zpos d) by lia.
    split; [apply iter_xO_pow|reflexivity].
Qed.

Lemma binary_round_positive m e :
  emin <= e -> positive_sf (binary_round prec emax false m e).
Proof.
  intros He. unfold binary_round.
  pose proof (shl_align_spec m e (fexp (Zpos (digits2_pos m) + e))) as [_ Hs].
  destruct (shl_align m e _) as [mz ez]. simpl in Hs.
  apply binary_round_aux_positive. subst ez.
  unfold SpecFloat.fexp. lia.
Qed.

Lemma bounded_canonical m e :
  bounded prec emax m e = true ->
  emin <= e /\ Zpos (digits2_pos m) <= prec
  /\ (Zpos (digits2_pos m) = prec \/ e = emin).
Proof.
  unfold bounded, canonical_mantissa, SpecFloat.fexp. intros H.
  apply andb_prop in H as [H _]. apply Z.eqb_eq in H. lia.
Qed.

(** On valid mantissas the order by exponent, then by mantissa, is the
    order of the values brought to a common exponent. *)
Lemma aligned_compare mx ex my ey :
  bounded prec emax mx ex = true -> bounded prec emax my ey = true ->
  Z.compare (Zpos mx * 2 ^ (ex - Z.min ex ey)) (Zpos my * 2 ^ (ey - Z.min ex ey))
  = match Z.compare ex ey with
    | Lt => Lt
    | Gt => Gt
    | Eq => Pos.compare mx my
    end.
Proof.
  intros Hx Hy.
  destruct (bounded_canonical mx ex Hx) as (Hex & Hdx & Hcx).
  destruct (bounded_canonical my ey Hy) as (Hey & Hdy & Hcy).
  pose proof (digits2_pos_bounds mx) as Bx.
  pose proof (digits2_pos_bounds my) as By.
  assert (Hp : 2 ^ prec = 2 * 2 ^ (prec - 1)).
  { rewrite <- Z.pow_succ_r by lia. f_equal. lia. }
  destruct (Z.compare_spec ex ey) as [E|E|E].
  - subst ey. rewrite Z.min_id, Z.sub_diag, Z.pow_0_r, !Z.mul_1_r. reflexivity.
  - rewrite Z.min_l by lia. rewrite Z.sub_diag, Z.pow_0_r, Z.mul_1_r.
    apply Z.compare_lt_iff.
    assert (H2 : 2 ^ 1 <= 2 ^ (ey - ex)) by (apply Z.pow_le_mono_r; lia).
    assert (Hd : Zpos (digits2_pos my) = prec) by lia.
    assert (Hm : 2 ^ Zpos (digits2_pos mx) <= 2 ^ prec)
      by (apply Z.pow_le_mono_r; lia).
    rewrite Hd in By. change (2 ^ 1) with 2 in H2. nia.
  - rewrite Z.min_r by lia. rewrite Z.sub_diag, Z.pow_0_r, Z.mul_1_r.
    apply Z.compare_gt_iff.
    assert (H2 : 2 ^ 1 <= 2 ^ (ex - ey)) by (apply Z.pow_le_mono_r; lia).
    assert (Hd : Zpos (digits2_pos mx) = prec) by lia.
    assert (Hm : 2 ^ Zpos (digits2_pos my) <= 2 ^ prec)
      by (apply Z.pow_le_mono_r; lia).
    rewrite Hd in Bx. change (2 ^ 1) with 2 in H2. nia.
Qed.

Lemma SFltb_zero_positive r :
  positive_sf r -> SFltb (S754_zero false) r = true.
Proof.
  destruct r as [|[]| |[] m e]; simpl; intros H; try contradiction;
    reflexivity.
Qed.

Lemma SFltb_zero_negative r :
  signed true r -> SFltb (S754_zero false) r = false.
Proof.
  destruct r as [[]|[]| |[] m e]; simpl; intros H; try contradiction;
    try discriminate; reflexivity.
Qed.

(** The sign of a difference of two valid finite numbers. *)
Lemma SFsub_finite_sign sx mx ex sy my ey :
  bounded prec emax mx ex = true -> bounded prec emax my ey = true ->
  SFltb (S754_zero false)
    (SFsub prec emax (S754_finite sx mx ex) (S754_finite sy my ey))
  = SFltb (S754_finite sy my ey) (S754_finite sx mx ex).
Proof.
  intros Hx Hy. cbn [SFsub].
  destruct (shl_align_spec mx ex (Z.min ex ey)) as [Ax _].
  destruct (shl_align_spec my ey (Z.min ex ey)) as [Ay _].
  replace (Z.min ex (Z.min ex ey)) with (Z.min ex ey) in Ax by lia.
  replace (Z.min ey (Z.min ex ey)) with (Z.min ex ey) in Ay by lia.
  pose proof (aligned_compare my ey mx ex Hy Hx) as Hc.
  rewrite (Z.min_comm ey ex) in Hc. rewrite <- Ax, <- Ay in Hc.
  set (X := Zpos (fst (shl_align mx ex (Z.min ex ey)))) in *.
  set (Y := Zpos (fst (shl_align my ey (Z.min ex ey)))) in *.
  assert (He : emin <= Z.min ex ey).
  { destruct (bounded_canonical mx ex Hx), (bounded_canonical my ey Hy). lia. }
  assert (HX : 0 < X) by (subst X; lia).
  assert (HY : 0 < Y) by (subst Y; lia).
  unfold SFltb at 2. cbn [SFcompare].
  change (PosDef.Pos.compare_cont Eq my mx) with (Pos.compare my mx).
  destruct sx, sy; cbn [cond_Zopp].
  - (* both negative: the difference is Y - X *)
    replace (match Z.compare ey ex with
             | Lt => Gt
             | Eq => CompOpp (Pos.compare my mx)
             | Gt => Lt
             end)
      with (CompOpp (Z.compare Y X))
      by (rewrite Hc; destruct (Z.compare ey ex); reflexivity).
    destruct (Z.compare_spec Y X) as [E|E|E]; cbn [CompOpp].
    + replace (- X - - Y) with 0 by lia. reflexivity.
    + destruct (- X - - Y) as [|d|d] eqn:Ed; try lia.
      apply SFltb_zero_negative. cbn [binary_normalize]. apply binary_round_signed.
    + destruct (- X - - Y) as [|d|d] eqn:Ed; try lia.
      apply SFltb_zero_positive. cbn [binary_normalize].
      apply binary_round_positive, He.
  - (* x negative, y positive *)
    destruct (- X - Y) as [|d|d] eqn:Ed; try lia.
    apply SFltb_zero_negative. cbn [binary_normalize]. apply binary_round_signed.
  - (* x positive, y negative *)
    destruct (X - - Y) as [|d|d] eqn:Ed; try lia.
    apply SFltb_zero_positive. cbn [binary_normalize].
    apply binary_round_positive, He.
  - (* both positive: the difference is X - Y *)
    replace (match Z.compare ey ex with
             | Lt => Lt
             | Eq => Pos.compare my mx
             | Gt => Gt
             end)
      with (Z.compare Y X) by (rewrite Hc; reflexivity).
    destruct (Z.compare_spec Y X) as [E|E|E].
    + replace (X - Y) with 0 by lia. reflexivity.
    + destruct (X - Y) as [|d|d] eqn:Ed; try lia.
      apply SFltb_zero_positive. cbn [binary_normalize].
      apply binary_round_positive, He.
    + destruct (X - Y) as [|d|d] eqn:Ed; try lia.
      apply SFltb_zero_negative. cbn [binary_normalize]. apply binary_round_signed.
Qed.

(** The sign of a difference of two numbers says which is the greater. *)
Lemma SFsub_sign x y :
  SpecFloat.valid_binary prec emax x = true ->
  SpecFloat.valid_binary prec emax y = true ->
  x <> S754_nan -> y <> S754_nan ->
  SFltb (S754_zero false) (SFsub prec emax x y) = SFltb y x.
Proof.
  destruct x as [[]|[]| |sx mx ex], y as [[]|[]| |sy my ey];
    intros Hx Hy Nx Ny; try congruence; try reflexivity;
    try (destruct sx; reflexivity); try (destruct sy; reflexivity).
  apply SFsub_finite_sign; assumption.
Qed.
End SpecFloat.

(** ** Order *)

Ltac cmp_cases :=
  repeat match goal with
  | |- context [PosDef.Pos.compare_cont Eq ?a ?b] =>
      change (PosDef.Pos.compare_cont Eq a b) with (Pos.compare a b) in *
  | H : context [PosDef.Pos.compare_cont Eq ?a ?b] |- _ =>
      change (PosDef.Pos.compare_cont Eq a b) with (Pos.compare a b) in *
  | |- context [Z.compare ?a ?b] => destruct (Z.compare_spec a b)
  | H : context [Z.compare ?a ?b] |- _ => destruct (Z.compare_spec a b)
  | |- context [Pos.compare ?a ?b] => destruct (Pos.compare_spec a b)
  | H : context [Pos.compare ?a ?b] |- _ => destruct (Pos.compare_spec a b)
  end.

Ltac by_cmp_cases := cmp_cases; simpl in *; try congruence; try lia.

Lemma SFcompare_refl x : x <> S754_nan -> SFcompare x x = Some Eq.
Proof.
  destruct x as [[]|[]| |[] m e]; simpl; try congruence; intros _;
    cmp_cases; simpl; try reflexivity; lia.
Qed.

Lemma SFcompare_antisym x y :
  SFcompare y x = option_map CompOpp (SFcompare x y).
Proof.
  destruct x as [[]|[]| |[] mx ex], y as [[]|[]| |[] my ey];
    simpl; try reflexivity; by_cmp_cases.
Qed.

Lemma SFcompare_some x y :
  x <> S754_nan -> y <> S754_nan -> exists c, SFcompare x y = Some c.
Proof.
  destruct x as [[]|[]| |[] mx ex], y as [[]|[]| |[] my ey]; simpl; intros;
    try congruence; eauto.
Qed.

(** Transitivity, with the strict cases: the composite is [Lt] as soon as
    one side is. *)
Lemma SFcompare_trans x y z c1 c2 :
  SFcompare x y = Some c1 -> c1 <> Gt ->
  SFcompare y z = Some c2 -> c2 <> Gt ->
  exists c3, SFcompare x z = Some c3 /\ c3 <> Gt /\
             (c1 = Lt \/ c2 = Lt -> c3 = Lt).
Proof.
  destruct x as [[]|[]| |[] mx ex], y as [[]|[]| |[] my ey],
           z as [[]|[]| |[] mz ez];
    simpl; try congruence; intros H1 N1 H2 N2;
    eexists; (split; [reflexivity|]);
    (split; [|intros [|]; subst]); by_cmp_cases.
Qed.

Local Open Scope float_scope.

Lemma is_nan_spec x :
  is_nan x = match Prim2SF x with S754_nan => true | _ => false end.
Proof.
  unfold is_nan. rewrite FloatAxioms.eqb_spec. unfold SFeqb.
  destruct (Prim2SF x) as [s|s| |s m e] eqn:E;
    try (rewrite SFcompare_refl by discriminate); reflexivity.
Qed.

Lemma not_nan_number x : is_nan x = false -> Prim2SF x <> S754_nan.
Proof. rewrite is_nan_spec. intros H E. rewrite E in H. discriminate. Qed.

Lemma ltb_trans x y z : (x <? y) = true -> (y <? z) = true -> (x <? z) = true.
Proof.
  rewrite !FloatAxioms.ltb_spec. unfold SFltb.
  destruct (SFcompare (Prim2SF x) (Prim2SF y)) as [[]|] eqn:E1; try discriminate.
  destruct (SFcompare (Prim2SF y) (Prim2SF z)) as [[]|] eqn:E2; try discriminate.
  intros _ _.
  destruct (SFcompare_trans _ _ _ _ _ E1 ltac:(discriminate) E2 ltac:(discriminate))
    as (c3 & -> & _ & H).
  rewrite H by auto. reflexivity.
Qed.

Lemma ltb_leb_trans x y z :
  (x <? y) = true -> (y <=? z) = true -> (x <? z) = true.
Proof.
  rewrite !FloatAxioms.ltb_spec, FloatAxioms.leb_spec. unfold SFltb, SFleb.
  destruct (SFcompare (Prim2SF x) (Prim2SF y)) as [[]|] eqn:E1; try discriminate.
  destruct (SFcompare (Prim2SF y) (Prim2SF z)) as [c2|] eqn:E2; try discriminate.
  intros _ H2.
  destruct (SFcompare_trans _ _ _ _ c2 E1 ltac:(discriminate) E2
              ltac:(destruct c2; congruence)) as (c3 & -> & _ & H).
  rewrite H by auto. reflexivity.
Qed.

Lemma leb_trans x y z :
  (x <=? y) = true -> (y <=? z) = true -> (x <=? z) = true.
Proof.
  rewrite !FloatAxioms.leb_spec. unfold SFleb.
  destruct (SFcompare (Prim2SF x) (Prim2SF y)) as [c1|] eqn:E1; try discriminate.
  destruct (SFcompare (Prim2SF y) (Prim2SF z)) as [c2|] eqn:E2; try discriminate.
  intros H1 H2.
  destruct (SFcompare_trans _ _ _ c1 c2 E1 ltac:(destruct c1; congruence) E2
              ltac:(destruct c2; congruence)) as (c3 & -> & N & _).
  destruct c3; congruence.
Qed.

Lemma ltb_leb x y : (x <? y) = true -> (x <=? y) = true.
Proof.
  rewrite FloatAxioms.ltb_spec, FloatAxioms.leb_spec. unfold SFltb, SFleb.
  destruct (SFcompare (Prim2SF x) (Prim2SF y)) as [[]|]; congruence.
Qed.

Lemma leb_refl x : is_nan x = false -> (x <=? x) = true.
Proof.
  intros H. rewrite FloatAxioms.leb_spec. unfold SFleb.
  rewrite SFcompare_refl by (apply not_nan_number, H). reflexivity.
Qed.

(** On numbers the order is total: what is not below is above or equal. *)
Lemma not_ltb_leb x y :
  is_nan x = false -> is_nan y = false -> (x <? y) = false -> (y <=? x) = true.
Proof.
  intros Hx Hy. rewrite FloatAxioms.ltb_spec, FloatAxioms.leb_spec. unfold SFltb, SFleb.
  rewrite (SFcompare_antisym (Prim2SF x) (Prim2SF y)).
  destruct (SFcompare_some (Prim2SF x) (Prim2SF y)) as [c ->];
    auto using not_nan_number.
  destruct c; simpl; congruence.
Qed.

(** [x > 0] rules out [0], [-0] and NaN. *)
Lemma gt0_positive x :
  (0 <? x) = true -> (x =? 0) = false /\ is_nan x = false.
Proof.
  rewrite FloatAxioms.ltb_spec, FloatAxioms.eqb_spec, is_nan_spec. unfold SFltb, SFeqb.
  change (Prim2SF 0) with (S754_zero false).
  destruct (Prim2SF x) as [[]|[]| |[] m e]; simpl; intros H;
    try discriminate; auto.
Qed.

(** [a - b > 0] exactly when [b < a], for numbers. *)
Lemma sub_gt0 x y :
  is_nan x = false -> is_nan y = false -> (0 <? x - y) = (y <? x).
Proof.
  intros Hx Hy. rewrite !FloatAxioms.ltb_spec, FloatAxioms.sub_spec.
  change (Prim2SF 0) with (S754_zero false).
  apply SFsub_sign; auto using not_nan_number.
  - reflexivity.
  - apply Prim2SF_valid.
  - apply Prim2SF_valid.
Qed.

(** ** Arithmetic on non-negative numbers *)

Lemma nonneg_signed x : nonneg x = true <-> signed false (Prim2SF x).
Proof.
  unfold nonneg. destruct (Prim2SF x) as [[]|[]| |[] m e]; simpl;
    intuition congruence.
Qed.

Lemma nonneg_not_nan x : nonneg x = true -> is_nan x = false.
Proof.
  unfold nonneg. rewrite is_nan_spec.
  destruct (Prim2SF x) as [[]|[]| |[] m e]; congruence.
Qed.

Lemma add_nonneg x y :
  nonneg x = true -> nonneg y = true -> nonneg (x + y) = true.
Proof.
  rewrite !nonneg_signed, FloatAxioms.add_spec. apply SFadd_signed.
Qed.

Lemma div_nonneg x d :
  nonneg x = true -> positive_finite d = true -> nonneg (x / d) = true.
Proof.
  unfold positive_finite. rewrite !nonneg_signed, FloatAxioms.div_spec.
  destruct (Prim2SF d) as [|[]| |[] md ed]; try discriminate.
  intros H _. apply SFdiv_signed, H.
Qed.

Lemma mul_nonneg x d :
  nonneg x = true -> positive_finite d = true -> nonneg (x * d) = true.
Proof.
  unfold positive_finite. rewrite !nonneg_signed, FloatAxioms.mul_spec.
  destruct (Prim2SF d) as [|[]| |[] md ed]; try discriminate.
  intros H _. apply SFmul_signed, H.
Qed.

(** [Math.abs(v - c)] for a finite [v] and a number [c]. *)
Lemma abs_sub_nonneg v c :
  is_finite_number v = true -> is_nan c = false -> nonneg (abs (v - c)) = true.
Proof.
  unfold is_finite_number. rewrite is_nan_spec, nonneg_signed, FloatAxioms.abs_spec, FloatAxioms.sub_spec.
  intros Hv Hc. apply SFabs_signed, SFsub_is_number.
  - destruct (Prim2SF v); simpl; auto; discriminate.
  - destruct (Prim2SF c); simpl; auto; discriminate.
Qed.

End JsNumberFacts.

(* ====================================================================== *)
(** * Facts about comparateur.ts *)
(* ====================================================================== *)

Module ComparateurFacts.

Import JsNumber JsNumberFacts Comparateur.
Local Open Scope float_scope.

Lemma VehicleType_eqb_eq a b : VehicleType_eqb a b = true <-> a = b.
Proof. destruct a, b; simpl; split; congruence. Qed.

Lemma VehicleType_eqb_refl a : VehicleType_eqb a a = true.
Proof. destruct a; reflexivity. Qed.

(** The truthiness test in [vehicle.volume && vehicle.volume > 0] is
    subsumed by the comparison. *)
Lemma truthy_gt0 x : truthy x && (0 <? x) = (0 <? x).
Proof.
  unfold truthy. destruct (0 <? x) eqn:E.
  - destruct (gt0_positive x E) as [-> ->]. reflexivity.
  - apply andb_false_r.
Qed.

(** [calculateScore] without the redundant truthiness tests. *)
Lemma calculateScore_unfold vehicle criteria :
  calculateScore vehicle criteria =
  match c_type criteria with
  | None => None
  | Some t =>
      if negb (VehicleType_eqb (type vehicle) t) then None else
      let '(total, count) :=
        match c_charge criteria with
        | Some c =>
            if 0 <? charge vehicle
            then (0 + abs (charge vehicle - c) / 100, 0 + 1)
            else (0, 0)
        | None => (0, 0)
        end in
      let '(total, count) :=
        match c_volume criteria, volume vehicle with
        | Some c, Some v =>
            if 0 <? v then (total + abs (v - c) * 10, count + 1)
            else (total, count)
        | _, _ => (total, count)
        end in
      let '(total, count) :=
        match c_longueur criteria, longueur vehicle with
        | Some c, Some v =>
            if 0 <? v then (total + abs (v - c) * 100, count + 1)
            else (total, count)
        | _, _ => (total, count)
        end in
      if count =? 0 then None else Some (total / count)
  end.
Proof.
  unfold calculateScore.
  destruct (c_type criteria); [|reflexivity].
  destruct (negb _); [reflexivity|].
  destruct (c_charge criteria), (c_volume criteria), (volume vehicle),
    (c_longueur criteria), (longueur vehicle);
    rewrite ?truthy_gt0; reflexivity.
Qed.

Ltac score_cases vehicle criteria :=
  destruct (c_charge criteria) as [cc|], (c_volume criteria) as [cv|],
    (volume vehicle) as [vv|], (c_longueur criteria) as [cl|],
    (longueur vehicle) as [vl|];
  try destruct (0 <? charge vehicle) eqn:Gc;
  try destruct (0 <? vv) eqn:Gv;
  try destruct (0 <? vl) eqn:Gl.

(** The code computes the score the specification words. *)
Lemma calculateScore_score_spec vehicle criteria :
  calculateScore vehicle criteria = score_spec vehicle criteria.
Proof.
  rewrite calculateScore_unfold. unfold score_spec, contributions, contribution.
  destruct (c_type criteria) as [t|]; [|reflexivity].
  destruct (VehicleType_eqb (type vehicle) t); [|reflexivity]. simpl negb. cbv iota.
  score_cases vehicle criteria; reflexivity.
Qed.

(** C4. [calculateScore] returns none exactly when the criteria's type is
    unset, differs from the vehicle's type, or no numeric criterion was
    evaluated; otherwise it returns the mean of the contributions of the
    evaluated criteria, a criterion being evaluated when it is present in the
    criteria and positive in the vehicle, and contributing the absolute
    difference divided by 100 (charge), times 10 (volume), times 100
    (longueur). *)
Theorem calculateScore_spec (vehicle : Vehicle) (criteria : SearchCriteria) :
  (calculateScore vehicle criteria = None <->
     c_type criteria = None
     \/ c_type criteria <> Some (type vehicle)
     \/ contributions vehicle criteria = [])
  /\ (c_type criteria = Some (type vehicle) ->
      contributions vehicle criteria <> [] ->
      calculateScore vehicle criteria = Some (mean (contributions vehicle criteria)))
  /\ contributions vehicle criteria =
       present
         [ match c_charge criteria with
           | Some c => if 0 <? charge vehicle
                       then Some (abs (charge vehicle - c) / 100) else None
           | None => None
           end;
           match c_volume criteria, volume vehicle with
           | Some c, Some v => if 0 <? v then Some (abs (v - c) * 10) else None
           | _, _ => None
           end;
           match c_longueur criteria, longueur vehicle with
           | Some c, Some v => if 0 <? v then Some (abs (v - c) * 100) else None
           | _, _ => None
           end ].
Proof.
  rewrite calculateScore_score_spec. unfold score_spec.
  split; [|split].
  - destruct (c_type criteria) as [t|]; [|tauto].
    destruct (VehicleType_eqb (type vehicle) t) eqn:E.
    + apply VehicleType_eqb_eq in E. subst t.
      destruct (contributions vehicle criteria); split; try tauto; try discriminate.
      intros [|[|]]; congruence.
    + split; [|reflexivity]. intros _. right. left. intros H.
      injection H as ->. rewrite VehicleType_eqb_refl in E. discriminate.
  - intros -> H. rewrite VehicleType_eqb_refl.
    destruct (contributions vehicle criteria); [congruence|reflexivity].
  - unfold contributions, contribution.
    destruct (c_charge criteria), (c_volume criteria), (volume vehicle),
      (c_longueur criteria), (longueur vehicle); reflexivity.
Qed.

(** C1, as the code has it. For the criteria 'utilitaire thermique', charge
    1300, volume 9 and no longueur, [findBestMatch] returns deliver7: the
    catalog has 9 vehicles, only deliver7 and deliver9 get a score, and
    deliver7's (9.355) is below deliver9's (13.25). *)
Theorem findBestMatch_utilitaire_thermique_1300_9 :
  findBestMatch criteria_utilitaire_thermique_1300_9 = Some deliver7
  /\ length VEHICLES = 9%nat
  /\ map (fun v => (id v, calculateScore v criteria_utilitaire_thermique_1300_9))
         VEHICLES
     = [ ("deliver7"%string, Some 9.3550000000000004);
         ("deliver9"%string, Some 13.25);
         ("t60max"%string, None); ("edeliver3"%string, None);
         ("edeliver5"%string, None); ("edeliver7"%string, None);
         ("edeliver9"%string, None); ("eterron9"%string, None);
         ("t90ev"%string, None) ]
  /\ (9.3550000000000004 <? 13.25) = true.
Proof. repeat split; vm_compute; reflexivity. Qed.

(** C1, as the specification states it, fails: the vehicle returned for
    these criteria is not the one with id 'deliver9'. *)
Lemma findBestMatch_utilitaire_thermique_1300_9_not_deliver9 :
  ~ (exists v, findBestMatch criteria_utilitaire_thermique_1300_9 = Some v
               /\ id v = "deliver9"%string).
Proof.
  intros (v & H & E).
  assert (F : findBestMatch criteria_utilitaire_thermique_1300_9 = Some deliver7)
    by (vm_compute; reflexivity).
  rewrite F in H. injection H as <-. discriminate E.
Qed.

(** C6. For the criteria 'pickup électrique', charge 650 and no volume or
    longueur, [findBestMatch] returns the vehicle with id 'eterron9', and
    that vehicle's score is 0. *)
Theorem findBestMatch_pickup_electrique_650 :
  exists v, findBestMatch criteria_pickup_electrique_650 = Some v
            /\ id v = "eterron9"%string
            /\ calculateScore v criteria_pickup_electrique_650 = Some 0.
Proof. exists eterron9. repeat split; vm_compute; reflexivity. Qed.

(** ** The criteria read from the form are numbers *)

Lemma digit_kept c :
  JsString.isDigit c = true ->
  JsString.isWhiteSpace c || (JsString.code c =? 44)%N = false.
Proof.
  unfold JsString.isDigit, JsString.isWhiteSpace.
  intros H. apply andb_prop in H as [H1 H2].
  apply N.leb_le in H1. apply N.leb_le in H2.
  repeat match goal with
  | |- context [(?a <=? ?b)%N] => destruct (N.leb_spec a b); try lia
  | |- context [(?a =? ?b)%N] => destruct (N.eqb_spec a b); try lia
  end; reflexivity.
Qed.

Lemma span_isDigit_head s d r :
  JsString.span JsString.isDigit s = (d, r) ->
  JsString.falsy d = false ->
  starts_with_digit d = true.
Proof.
  destruct s as [|c s]; simpl.
  - intros [= <- <-]. discriminate.
  - destruct (JsString.isDigit c) eqn:Ec.
    + destruct (JsString.span JsString.isDigit s) as [pre rest].
      intros [= <- <-] _. exact Ec.
    + intros [= <- <-]. discriminate.
Qed.

Lemma strip_starts_with_digit m :
  starts_with_digit m = true ->
  starts_with_digit (strip_spaces_commas m) = true.
Proof.
  destruct m as [|c m]; simpl; [discriminate|].
  intros H. rewrite (digit_kept c H). exact H.
Qed.

Lemma starts_with_digit_app d rest :
  starts_with_digit d = true -> starts_with_digit (d ++ rest) = true.
Proof. destruct d; simpl; [discriminate|auto]. Qed.

Lemma match_number_here_digit s m :
  match_number_here s = Some m -> starts_with_digit m = true.
Proof.
  unfold match_number_here.
  destruct (JsString.span JsString.isDigit s) as [d1 r1] eqn:E.
  destruct (JsString.falsy d1) eqn:Ef; [discriminate|].
  pose proof (span_isDigit_head s d1 r1 E Ef) as Hd.
  destruct r1 as [|c r2]; [intros [= <-]; exact Hd|].
  destruct (isSeparator c); [|intros [= <-]; exact Hd].
  destruct (JsString.span JsString.isDigit r2) as [d2 r3].
  intros [= <-]. apply starts_with_digit_app, Hd.
Qed.

Lemma match_number_digit s : forall m,
  match_number s = Some m -> starts_with_digit m = true.
Proof.
  induction s as [|c s IH]; intros m; cbn [match_number].
  - destruct (match_number_here "") eqn:E; [|discriminate].
    intros [= <-]. eapply match_number_here_digit, E.
  - destruct (match_number_here (String c s)) eqn:E.
    + intros [= <-]. eapply match_number_here_digit, E.
    + apply IH.
Qed.

Lemma read_number_is_number parseFloat dropdown :
  parses_digits parseFloat ->
  number_or_absent (read_number parseFloat dropdown) = true.
Proof.
  intros Hp. unfold read_number, extractNumber.
  destruct dropdown as [textContent|]; [|reflexivity].
  destruct (JsString.falsy textContent); [reflexivity|].
  destruct (match_number textContent) as [m0|] eqn:E; [|reflexivity].
  simpl. rewrite Hp; [reflexivity|].
  apply strip_starts_with_digit. eapply match_number_digit, E.
Qed.

(** X5. Whatever the form holds, the criteria [getSearchCriteria] reads
    from it are numbers: no criterion is NaN, given that [parseFloat] returns
    a number on a text that starts with a digit. *)
Theorem getSearchCriteria_are_numbers
    (parseFloat : string -> float) (d : Dropdowns) :
  parses_digits parseFloat ->
  criteria_are_numbers (getSearchCriteria parseFloat d) = true.
Proof.
  intros Hp. unfold criteria_are_numbers, getSearchCriteria.
  cbn [c_charge c_volume c_longueur].
  rewrite !read_number_is_number by exact Hp. reflexivity.
Qed.

(** The form of a visitor who asks for a diesel van, 1300 kg, 9 m3. *)
Definition form_example : Dropdowns :=
  {| typeSelect := Some "Utilitaire Thermique"%string;
     chargeSelect := Some "Jusque 1300 kg"%string;
     volumeSelect := Some "9 m3"%string;
     longueurSelect := None |}.

Example getSearchCriteria_example :
  getSearchCriteria JsString.parseFloat_digits form_example
  = criteria_utilitaire_thermique_1300_9.
Proof. vm_compute. reflexivity. Qed.

Lemma parseFloat_digits_number : parses_digits JsString.parseFloat_digits.
Proof.
  intros s _. unfold JsString.parseFloat_digits, JsString.float_of_Z.
  rewrite is_nan_spec, of_uint63_spec.
  pose proof (binary_normalize_is_number prec emax
                (Uint63.to_Z (Uint63.of_Z
                   (JsString.digits_value
                      (fst (JsString.span JsString.isDigit s)) 0)))
                0%Z false) as H.
  destruct (binary_normalize _ _ _ _ _); [reflexivity..|contradiction|reflexivity].
Qed.

Lemma getSearchCriteria_are_numbers_witness :
  criteria_are_numbers
    (getSearchCriteria JsString.parseFloat_digits form_example) = true.
Proof.
  apply (getSearchCriteria_are_numbers JsString.parseFloat_digits form_example).
  exact parseFloat_digits_number.
Defined.

(** ** Scores are numbers *)

Lemma positive_finite_100 : positive_finite 100 = true.
Proof. reflexivity. Qed.

Lemma positive_finite_10 : positive_finite 10 = true.
Proof. reflexivity. Qed.

Lemma nonneg_0 : nonneg 0 = true.
Proof. reflexivity. Qed.

Create HintDb score.

#[local] Hint Resolve add_nonneg div_nonneg mul_nonneg abs_sub_nonneg
  positive_finite_100 positive_finite_10 nonneg_0 : score.

(** On finite vehicle data and criteria that are numbers, a score is a
    non-negative number (possibly +Infinity), never NaN. *)
Lemma calculateScore_nonneg vehicle criteria score :
  vehicle_is_finite vehicle = true ->
  criteria_are_numbers criteria = true ->
  calculateScore vehicle criteria = Some score ->
  nonneg score = true.
Proof.
  unfold vehicle_is_finite, criteria_are_numbers, number_or_absent,
    finite_or_absent.
  rewrite calculateScore_unfold.
  intros Hv Hc.
  apply andb_prop in Hv as [Hv Hvl]. apply andb_prop in Hv as [Hvc Hvv].
  apply andb_prop in Hc as [Hc Hcl]. apply andb_prop in Hc as [Hcc Hcv].
  destruct (c_type criteria) as [t|]; [|discriminate].
  destruct (negb _); [discriminate|].
  score_cases vehicle criteria; cbv iota beta;
    try apply negb_true_iff in Hcc; try apply negb_true_iff in Hcv;
    try apply negb_true_iff in Hcl;
    match goal with
    | |- (if ?b then _ else _) = _ -> _ =>
        let b' := eval vm_compute in b in
        change b with b'; cbv iota
    end;
    intros H; try discriminate H; injection H as <-;
    apply div_nonneg; try reflexivity; auto 10 with score.
Qed.

Lemma calculateScore_type vehicle criteria score :
  calculateScore vehicle criteria = Some score ->
  c_type criteria = Some (type vehicle).
Proof.
  rewrite calculateScore_score_spec. unfold score_spec.
  destruct (c_type criteria) as [t|]; [|discriminate].
  destruct (VehicleType_eqb (type vehicle) t) eqn:E; [|discriminate].
  apply VehicleType_eqb_eq in E. congruence.
Qed.

Lemma VEHICLES_finite : forallb vehicle_is_finite VEHICLES = true.
Proof. vm_compute. reflexivity. Qed.

(** ** The scan of [findBestMatch] *)

Section Scan.

Variable criteria : SearchCriteria.

(** Every score over the list is a number. *)
Definition scores_are_numbers (vehicles : list Vehicle) : Prop :=
  forall v s, In v vehicles -> calculateScore v criteria = Some s ->
              is_nan s = false.

(** What the scan has established after the vehicles [seen]: either no
    vehicle seen has a score and nothing is held, or the vehicle held has the
    score held, every vehicle seen before it has a strictly greater score and
    every vehicle seen after it a greater or equal one. *)
Definition scan_invariant (seen : list Vehicle) (b : Best) : Prop :=
  match bestVehicle b, bestScore b with
  | None, None => forall v, In v seen -> calculateScore v criteria = None
  | Some vehicle, Some score =>
      calculateScore vehicle criteria = Some score
      /\ exists before after,
           seen = before ++ vehicle :: after
           /\ (forall v s, In v before -> calculateScore v criteria = Some s ->
                           (score <? s) = true)
           /\ (forall v s, In v after -> calculateScore v criteria = Some s ->
                           (score <=? s) = true)
  | _, _ => False
  end.

Lemma scan_app vehicles vehicle b :
  scan criteria (vehicles ++ [vehicle]) b
  = scan_step criteria (scan criteria vehicles b) vehicle.
Proof. unfold scan. rewrite fold_left_app. reflexivity. Qed.

Lemma scan_step_invariant seen b vehicle :
  scores_are_numbers (seen ++ [vehicle]) ->
  scan_invariant seen b ->
  scan_invariant (seen ++ [vehicle]) (scan_step criteria b vehicle).
Proof.
  intros Hnum Hinv. unfold scan_step.
  assert (Hseen : forall v s, In v seen -> calculateScore v criteria = Some s ->
                              is_nan s = false).
  { intros v s Hin. apply Hnum, in_or_app. left. exact Hin. }
  destruct (calculateScore vehicle criteria) as [score|] eqn:Es.
  - assert (Hscore : is_nan score = false).
    { apply (Hnum vehicle); [apply in_or_app; right; left; reflexivity|exact Es]. }
    unfold scan_invariant in Hinv |- *.
    destruct (bestVehicle b) as [held|] eqn:Ev, (bestScore b) as [best|] eqn:Eb;
      try contradiction.
    + destruct Hinv as (Hheld & before & after & -> & Hbefore & Hafter).
      assert (Hbest : is_nan best = false).
      { apply (Hseen held); [apply in_or_app; right; left; reflexivity|exact Hheld]. }
      destruct (score <? best) eqn:Elt; simpl.
      * split; [exact Es|]. exists (before ++ held :: after), [].
        split; [reflexivity|]. split; [|intros v s []].
        intros v s Hin Hv. apply in_app_or in Hin as [Hin|[<-|Hin]].
        -- eapply ltb_trans; [exact Elt|eauto].
        -- congruence.
        -- eapply ltb_leb_trans; [exact Elt|eauto].
      * rewrite Ev, Eb. split; [exact Hheld|].
        exists before, (after ++ [vehicle]).
        split; [rewrite <- app_assoc; reflexivity|]. split; [exact Hbefore|].
        intros v s Hin Hv. apply in_app_or in Hin as [Hin|[<-|[]]].
        -- eauto.
        -- rewrite Es in Hv. injection Hv as <-.
           apply not_ltb_leb; assumption.
    + simpl. split; [exact Es|]. exists seen, [].
      split; [reflexivity|]. split; [|intros v s []].
      intros v s Hin Hv. rewrite (Hinv v Hin) in Hv. discriminate.
  - unfold scan_invariant in Hinv |- *.
    destruct (bestVehicle b) as [held|], (bestScore b) as [best|];
      try contradiction.
    + destruct Hinv as (Hheld & before & after & -> & Hbefore & Hafter).
      split; [exact Hheld|]. exists before, (after ++ [vehicle]).
      split; [rewrite <- app_assoc; reflexivity|]. split; [exact Hbefore|].
      intros v s Hin Hv. apply in_app_or in Hin as [Hin|[<-|[]]]; [eauto|congruence].
    + intros v Hin. apply in_app_or in Hin as [Hin|[<-|[]]]; auto.
Qed.

Lemma scan_invariant_holds vehicles :
  scores_are_numbers vehicles ->
  scan_invariant vehicles
    (scan criteria vehicles {| bestVehicle := None; bestScore := None |}).
Proof.
  induction vehicles as [|vehicle seen IH] using rev_ind; intros Hnum.
  - simpl. intros v [].
  - rewrite scan_app. apply scan_step_invariant; [exact Hnum|].
    apply IH. intros v s Hin. apply Hnum, in_or_app. left. exact Hin.
Qed.

End Scan.

(** What [findBestMatchIn] returns, over any list whose scores are numbers:
    a vehicle of the list of the criteria's type, whose score is minimal and
    strictly below the score of every vehicle before it. *)
Lemma findBestMatchIn_minimal vehicles criteria vehicle :
  scores_are_numbers criteria vehicles ->
  findBestMatchIn vehicles criteria = Some vehicle ->
  c_type criteria = Some (type vehicle)
  /\ exists score,
       calculateScore vehicle criteria = Some score
       /\ (forall v s, In v vehicles -> calculateScore v criteria = Some s ->
                       (score <=? s) = true)
       /\ exists before after,
            vehicles = before ++ vehicle :: after
            /\ forall v s, In v before -> calculateScore v criteria = Some s ->
                           (score <? s) = true.
Proof.
  intros Hnum. unfold findBestMatchIn.
  destruct (c_type criteria) as [t|] eqn:Et; [|discriminate].
  pose proof (scan_invariant_holds criteria vehicles Hnum) as Hinv.
  unfold scan_invariant in Hinv. intros Hb. rewrite Hb in Hinv.
  destruct (bestScore _) as [score|]; [|contradiction].
  destruct Hinv as (Hheld & before & after & Hsplit & Hbefore & Hafter).
  split; [rewrite <- Et; eapply calculateScore_type; exact Hheld|].
  exists score. split; [exact Hheld|]. split.
  - intros v s Hin Hv. rewrite Hsplit in Hin.
    apply in_app_or in Hin as [Hin|[<-|Hin]].
    + apply ltb_leb. eauto.
    + rewrite Hheld in Hv. injection Hv as <-. apply leb_refl.
      apply (Hnum vehicle); [|exact Hheld]. rewrite Hsplit.
      apply in_or_app. right. left. reflexivity.
    + eauto.
  - exists before, after. split; [exact Hsplit|exact Hbefore].
Qed.

Lemma VEHICLES_scores_are_numbers criteria :
  criteria_are_numbers criteria = true ->
  scores_are_numbers criteria VEHICLES.
Proof.
  intros Hc v s Hin Hs. apply nonneg_not_nan.
  apply (calculateScore_nonneg v criteria s); [|exact Hc|exact Hs].
  pose proof VEHICLES_finite as HF. rewrite forallb_forall in HF. auto.
Qed.

(** C9. Whenever [findBestMatch] returns a vehicle, the vehicle's type is
    the criteria's type, its score is defined and less than or equal to the
    score of every catalog vehicle that has one, and it is the earliest such
    vehicle in catalog order: every vehicle listed before it has a strictly
    greater score. The criteria are numbers, as [getSearchCriteria] reads
    them. *)
Theorem findBestMatch_minimal (criteria : SearchCriteria) (vehicle : Vehicle) :
  criteria_are_numbers criteria = true ->
  findBestMatch criteria = Some vehicle ->
  c_type criteria = Some (type vehicle)
  /\ exists score,
       calculateScore vehicle criteria = Some score
       /\ (forall v s, In v VEHICLES -> calculateScore v criteria = Some s ->
                       (score <=? s) = true)
       /\ exists before after,
            VEHICLES = before ++ vehicle :: after
            /\ forall v s, In v before -> calculateScore v criteria = Some s ->
                           (score <? s) = true.
Proof.
  intros Hc. apply findBestMatchIn_minimal, VEHICLES_scores_are_numbers, Hc.
Qed.

(** A request that two vehicles answer equally well: an electric utility
    vehicle of 8.7 m3. eDeliver 5 and eDeliver 7 both score 0, and
    eDeliver 5, listed first, is returned. *)
Definition criteria_utilitaire_electrique_8_7 : SearchCriteria :=
  {| c_type := Some utilitaire_electrique; c_charge := None;
     c_volume := Some 8.7; c_longueur := None |}.

Lemma findBestMatch_minimal_witness :
  c_type criteria_utilitaire_electrique_8_7 = Some (type edeliver5)
  /\ exists score,
       calculateScore edeliver5 criteria_utilitaire_electrique_8_7 = Some score
       /\ (forall v s, In v VEHICLES ->
             calculateScore v criteria_utilitaire_electrique_8_7 = Some s ->
             (score <=? s) = true)
       /\ exists before after,
            VEHICLES = before ++ edeliver5 :: after
            /\ forall v s, In v before ->
                 calculateScore v criteria_utilitaire_electrique_8_7 = Some s ->
                 (score <? s) = true.
Proof.
  apply (findBestMatch_minimal criteria_utilitaire_electrique_8_7 edeliver5).
  - vm_compute. reflexivity.
  - vm_compute. reflexivity.
Defined.

Example scores_utilitaire_electrique_8_7 :
  map (fun v => (id v, calculateScore v criteria_utilitaire_electrique_8_7))
      [edeliver3; edeliver5; edeliver7; edeliver9]
  = [ ("edeliver3"%string, Some 23.999999999999993);
      ("edeliver5"%string, Some 0);
      ("edeliver7"%string, Some 0);
      ("edeliver9"%string, Some 36.300000000000011) ].
Proof. vm_compute. reflexivity. Qed.

(** X2. On the catalog, for criteria that are numbers, every score is a
    non-negative number: never NaN, never below zero. *)
Theorem catalog_scores_nonneg (criteria : SearchCriteria) (v : Vehicle)
    (score : float) :
  criteria_are_numbers criteria = true ->
  In v VEHICLES ->
  calculateScore v criteria = Some score ->
  is_nan score = false /\ (0 <=? score) = true.
Proof.
  intros Hc Hin Hs.
  assert (Hn : nonneg score = true).
  { apply (calculateScore_nonneg v criteria score); [|exact Hc|exact Hs].
    pose proof VEHICLES_finite as HF. rewrite forallb_forall in HF. auto. }
  split; [apply nonneg_not_nan, Hn|].
  rewrite FloatAxioms.leb_spec. change (Prim2SF 0) with (S754_zero false).
  unfold nonneg in Hn.
  destruct (Prim2SF score) as [[]|[]| |[] m e]; try discriminate; reflexivity.
Qed.

Lemma catalog_scores_nonneg_witness :
  is_nan 13.25 = false /\ (0 <=? 13.25) = true.
Proof.
  apply (catalog_scores_nonneg criteria_utilitaire_thermique_1300_9 deliver9).
  - vm_compute. reflexivity.
  - right. left. reflexivity.
  - vm_compute. reflexivity.
Defined.

End ComparateurFacts.

(* ====================================================================== *)
(** * Facts about strings *)
(* ====================================================================== *)

Module JsStringFacts.

Import JsString.
Local Open Scope string_scope.

Lemma falsy_true s : falsy s = true <-> s = "".
Proof. destruct s; simpl; split; congruence. Qed.

Lemma falsy_false s : falsy s = false <-> s <> "".
Proof. destruct s; simpl; split; congruence. Qed.

(** [s] is made of white space only. *)
Fixpoint all_space (s : string) : bool :=
  match s with
  | EmptyString => true
  | String c s' => isWhiteSpace c && all_space s'
  end.

Lemma trimStart_empty s : trimStart s = "" <-> all_space s = true.
Proof.
  induction s as [|c s IH]; simpl; [tauto|].
  destruct (isWhiteSpace c); simpl; [exact IH|split; discriminate].
Qed.

Lemma trimEnd_empty s : trimEnd s = "" <-> all_space s = true.
Proof.
  induction s as [|c s IH]; simpl; [tauto|].
  destruct (trimEnd s) eqn:E.
  - destruct (isWhiteSpace c); simpl; [tauto|split; discriminate].
  - split; [discriminate|]. intros H. apply andb_prop in H as [_ H].
    apply IH in H. discriminate.
Qed.

Lemma all_space_trimStart s : all_space (trimStart s) = all_space s.
Proof.
  induction s as [|c s IH]; simpl; [reflexivity|].
  destruct (isWhiteSpace c) eqn:E; simpl; [exact IH|rewrite E; reflexivity].
Qed.

Lemma all_space_trimEnd s : all_space (trimEnd s) = all_space s.
Proof.
  induction s as [|c s IH]; simpl; [reflexivity|].
  destruct (trimEnd s) eqn:E.
  - simpl in IH. rewrite <- IH.
    destruct (isWhiteSpace c) eqn:Ec; simpl; rewrite ?Ec; reflexivity.
  - rewrite <- IH. reflexivity.
Qed.

Lemma trim_empty s : trim s = "" <-> all_space s = true.
Proof.
  unfold trim. rewrite trimEnd_empty, all_space_trimStart. tauto.
Qed.

(** Trimming what is left of a trim that left something leaves something. *)
Lemma trim_trim_nonempty s : trim s <> "" -> trim (trim s) <> "".
Proof.
  rewrite !trim_empty. unfold trim.
  rewrite all_space_trimEnd, all_space_trimStart. tauto.
Qed.

Lemma isDigit_spec c : isDigit c = true <-> (48 <= code c <= 57)%N.
Proof.
  unfold isDigit. rewrite andb_true_iff, !N.leb_le. tauto.
Qed.

Lemma digits_upto_all n : forall s,
  (String.length s <= n)%nat ->
  Forall (fun c => isDigit c = true) (list_ascii_of_string s) ->
  digits_upto n s = (String.length s, "").
Proof.
  induction n as [|n IH]; intros [|c s] Hlen Hd; simpl in *;
    try reflexivity; try lia.
  inversion Hd as [|? ? Hc Hs]; subst. rewrite Hc.
  rewrite IH by (auto; lia). reflexivity.
Qed.

Lemma digits_upto_end n : forall s k,
  digits_upto n s = (k, "") ->
  String.length s = k /\ (k <= n)%nat
  /\ Forall (fun c => isDigit c = true) (list_ascii_of_string s).
Proof.
  induction n as [|n IH]; intros [|c s] k; simpl; intros H;
    try (injection H as <-; repeat split; auto; lia); try discriminate.
  destruct (isDigit c) eqn:Hc; [|discriminate].
  destruct (digits_upto n s) as [k' rest] eqn:E.
  injection H as <- ->. destruct (IH s k' E) as (Hl & Hk & Hd).
  simpl. repeat split; auto; lia.
Qed.

Lemma append_assoc (a b c : string) : (a ++ b) ++ c = a ++ (b ++ c).
Proof.
  induction a as [|x a IH]; [reflexivity|].
  change ((String x a ++ b) ++ c) with (String x ((a ++ b) ++ c)).
  rewrite IH. reflexivity.
Qed.

End JsStringFacts.

(* ====================================================================== *)
(** * Facts about strings of 16-bit code units *)
(* ====================================================================== *)

Module JsString16Facts.

Import JsString16.
Local Open Scope N_scope.

Lemma code_unit_of c : code (unit_of c) = N_of_ascii c.
Proof. reflexivity. Qed.

Lemma code_unit_of_lt c : code (unit_of c) < 256.
Proof. rewrite code_unit_of. apply N_ascii_bounded. Qed.

Lemma isWhiteSpace_unit_of c :
  isWhiteSpace (unit_of c) = JsString.isWhiteSpace c.
Proof.
  unfold isWhiteSpace, JsString.isWhiteSpace, JsString.code.
  pose proof (code_unit_of_lt c) as H. rewrite code_unit_of in *.
  set (n := N_of_ascii c) in *.
  repeat match goal with
  | |- context [(?a <=? ?b)] => destruct (N.leb_spec a b); try lia
  | |- context [(?a =? ?b)] => destruct (N.eqb_spec a b); try lia
  end; reflexivity.
Qed.

Lemma isDigit_unit_of c : isDigit (unit_of c) = JsString.isDigit c.
Proof. reflexivity. Qed.

Lemma of_string_cons c s : of_string (String c s) = unit_of c :: of_string s.
Proof. reflexivity. Qed.

Lemma trimStart_of_string s :
  trimStart (of_string s) = of_string (JsString.trimStart s).
Proof.
  induction s as [|c s IH]; [reflexivity|].
  rewrite of_string_cons. cbn [trimStart JsString.trimStart].
  rewrite isWhiteSpace_unit_of.
  destruct (JsString.isWhiteSpace c); [exact IH|reflexivity].
Qed.

Lemma trimEnd_of_string s :
  trimEnd (of_string s) = of_string (JsString.trimEnd s).
Proof.
  induction s as [|c s IH]; [reflexivity|].
  rewrite of_string_cons. cbn [trimEnd JsString.trimEnd].
  rewrite IH, isWhiteSpace_unit_of.
  destruct (JsString.trimEnd s) as [|c' t]; cbn [of_string].
  - destruct (JsString.isWhiteSpace c); reflexivity.
  - reflexivity.
Qed.

Lemma trim_of_string s : trim (of_string s) = of_string (JsString.trim s).
Proof.
  unfold trim, JsString.trim. rewrite trimStart_of_string. apply trimEnd_of_string.
Qed.

Lemma falsy_of_string s : falsy (of_string s) = JsString.falsy s.
Proof. destruct s; reflexivity. Qed.

Lemma length_of_string s : length (of_string s) = String.length s.
Proof.
  induction s as [|c s IH]; [reflexivity|].
  rewrite of_string_cons. cbn [length String.length]. rewrite IH. reflexivity.
Qed.

Lemma digits_upto_of_string n : forall s,
  digits_upto n (of_string s)
  = (fst (JsString.digits_upto n s), of_string (snd (JsString.digits_upto n s))).
Proof.
  induction n as [|n IH]; intros [|c s]; try reflexivity.
  rewrite of_string_cons. cbn [digits_upto JsString.digits_upto].
  rewrite isDigit_unit_of, IH.
  destruct (JsString.isDigit c); [|reflexivity].
  destruct (JsString.digits_upto n s) as [k rest]. reflexivity.
Qed.

Lemma test_digits_2_5_of_string s :
  test_digits_2_5 (of_string s) = JsString.test_digits_2_5 s.
Proof.
  unfold test_digits_2_5, JsString.test_digits_2_5.
  rewrite digits_upto_of_string.
  destruct (JsString.digits_upto 5 s) as [k rest]. cbn [fst snd].
  rewrite falsy_of_string. reflexivity.
Qed.

(** On the code units 0 to 255 [encodeURIComponent] does not throw. *)
Lemma encodeURIComponent_unit_of c rest :
  encodeURIComponent (unit_of c :: rest)
  = option_map (append (JsString.encodeUnit c)) (encodeURIComponent rest).
Proof.
  destruct c as [[] [] [] [] [] [] [] []];
    destruct (encodeURIComponent rest) eqn:E;
    cbn [encodeURIComponent]; rewrite E; reflexivity.
Qed.

Lemma encodeURIComponent_of_string s :
  encodeURIComponent (of_string s) = Some (JsString.encodeURIComponent s).
Proof.
  induction s as [|c s IH]; [reflexivity|].
  rewrite of_string_cons, encodeURIComponent_unit_of, IH. reflexivity.
Qed.

(** ** When [encodeURIComponent] throws *)

Lemma unreserved_not_surrogate u :
  isUnreserved u = true ->
  isTrailSurrogate u = false /\ isLeadSurrogate u = false.
Proof.
  unfold isUnreserved, isTrailSurrogate, isLeadSurrogate. intros H.
  apply andb_prop in H as [H _]. apply N.ltb_lt in H.
  split; apply andb_false_iff; left; apply N.leb_gt; lia.
Qed.

Lemma option_map_None {A B} (f : A -> B) (o : option A) :
  option_map f o = None <-> o = None.
Proof. destruct o; cbn; split; congruence. Qed.

(** [encodeURIComponent] throws on the strings that are not well formed,
    and on no other. *)
Lemma encodeURIComponent_throws s :
  encodeURIComponent s = None <-> isWellFormed s = false.
Proof.
  remember (List.length s) as n eqn:Hn.
  revert s Hn. induction n as [n IH] using lt_wf_ind. intros s Hn.
  destruct s as [|u rest]; [cbn; split; discriminate|].
  cbn [encodeURIComponent isWellFormed].
  destruct (isUnreserved u) eqn:Eu.
  - destruct (unreserved_not_surrogate u Eu) as [-> ->].
    rewrite option_map_None. apply (IH (List.length rest)); [cbn in Hn; lia|reflexivity].
  - destruct (isTrailSurrogate u); [tauto|].
    destruct (isLeadSurrogate u).
    + destruct rest as [|v rest']; [tauto|].
      destruct (isTrailSurrogate v); cbn [andb]; [|tauto].
      rewrite option_map_None.
      apply (IH (List.length rest')); [cbn in Hn; lia|reflexivity].
    + rewrite option_map_None.
      apply (IH (List.length rest)); [cbn in Hn; lia|reflexivity].
Qed.

Lemma encodeURIComponent_well_formed s :
  isWellFormed s = true -> exists search, encodeURIComponent s = Some search.
Proof.
  intros H. destruct (encodeURIComponent s) as [search|] eqn:E; [eauto|].
  apply encodeURIComponent_throws in E. congruence.
Qed.

(** ** Digits *)

Lemma isDigit16_spec u : isDigit u = true <-> 48 <= code u <= 57.
Proof.
  unfold isDigit. rewrite andb_true_iff, !N.leb_le. reflexivity.
Qed.

(** A code unit is given by its code. *)
Lemma code_inj u v : code u = code v -> u = v.
Proof.
  destruct u as [hu lu], v as [hv lv]. unfold code. cbn [high low].
  intros E.
  pose proof (N_ascii_bounded hu). pose proof (N_ascii_bounded lu).
  pose proof (N_ascii_bounded hv). pose proof (N_ascii_bounded lv).
  assert (Eh : N_of_ascii hu = N_of_ascii hv) by lia.
  assert (El : N_of_ascii lu = N_of_ascii lv) by lia.
  f_equal.
  - rewrite <- (ascii_N_embedding hu), <- (ascii_N_embedding hv). congruence.
  - rewrite <- (ascii_N_embedding lu), <- (ascii_N_embedding lv). congruence.
Qed.

Lemma digit_unit_of u : isDigit u = true -> u = unit_of (low u).
Proof.
  intros H. apply isDigit16_spec in H. apply code_inj.
  rewrite code_unit_of. unfold code in *.
  pose proof (N_ascii_bounded (low u)).
  destruct (N.eq_dec (N_of_ascii (high u)) 0); lia.
Qed.

Lemma latin1_of_string s : latin1 (of_string s) = s.
Proof.
  unfold latin1, of_string. rewrite map_map. cbn [low unit_of].
  rewrite map_id. apply string_of_list_ascii_of_string.
Qed.

Lemma digits_of_string s :
  Forall (fun u => 48 <= code u <= 57) s -> s = of_string (latin1 s).
Proof.
  induction 1 as [|u s Hu _ IH]; [reflexivity|].
  unfold latin1. cbn [map string_of_list_ascii]. rewrite of_string_cons.
  f_equal; [apply digit_unit_of, isDigit16_spec, Hu|exact IH].
Qed.

Lemma encodeUnit_digit c :
  JsString.isDigit c = true ->
  JsString.encodeUnit c = String c EmptyString.
Proof.
  intros H. unfold JsString.encodeUnit, JsString.isUnreserved.
  rewrite H, orb_true_r. reflexivity.
Qed.

(** [encodeURIComponent] leaves a string of digits as it is. *)
Lemma encodeURIComponent_digits s :
  Forall (fun u => 48 <= code u <= 57) s ->
  encodeURIComponent s = Some (latin1 s).
Proof.
  induction 1 as [|u s Hu _ IH]; [reflexivity|].
  rewrite (digit_unit_of u) at 1 by (apply isDigit16_spec, Hu).
  rewrite encodeURIComponent_unit_of, IH.
  rewrite encodeUnit_digit.
  - reflexivity.
  - rewrite <- isDigit_unit_of, <- digit_unit_of by (apply isDigit16_spec, Hu).
    apply isDigit16_spec, Hu.
Qed.

Lemma digits16_upto_all n s :
  (List.length s <= n)%nat -> Forall (fun u => isDigit u = true) s ->
  digits_upto n s = (List.length s, []).
Proof.
  revert n. induction s as [|u s IH]; intros n Hn Hd.
  - destruct n; reflexivity.
  - destruct n as [|n]; [cbn in Hn; lia|].
    inversion Hd as [|? ? Hu Hs]; subst.
    cbn [digits_upto]. rewrite Hu, (IH n); [reflexivity|cbn in Hn; lia|exact Hs].
Qed.

Lemma digits16_upto_end n : forall s k,
  digits_upto n s = (k, []) ->
  List.length s = k /\ (k <= n)%nat /\ Forall (fun u => isDigit u = true) s.
Proof.
  induction n as [|n IH]; intros s k E.
  - cbn in E. destruct s; inversion E; subst. repeat split; [lia|constructor].
  - destruct s as [|u s].
    + inversion E; subst. repeat split; [lia|constructor].
    + cbn [digits_upto] in E. destruct (isDigit u) eqn:Eu; [|discriminate].
      destruct (digits_upto n s) as [k' rest] eqn:E'.
      inversion E; subst.
      destruct (IH s k' E') as (Hl & Hk & Hd).
      repeat split; [cbn; lia|lia|constructor; assumption].
Qed.

Lemma falsy16_true s : falsy s = true <-> s = [].
Proof. destruct s; cbn; split; congruence. Qed.

Lemma test_digits16_2_5_spec s :
  test_digits_2_5 s = true
  <-> (2 <= List.length s <= 5)%nat /\ Forall (fun u => 48 <= code u <= 57) s.
Proof.
  unfold test_digits_2_5. split.
  - destruct (digits_upto 5 s) as [k rest] eqn:E. intros H.
    apply andb_prop in H as [Hk Hr]. apply falsy16_true in Hr. subst rest.
    apply Nat.leb_le in Hk.
    destruct (digits16_upto_end 5 s k E) as (Hl & Hk5 & Hd).
    split; [lia|]. eapply List.Forall_impl; [|exact Hd].
    intros u. apply isDigit16_spec.
  - intros [Hl Hd]. rewrite digits16_upto_all; [|lia|].
    + cbn [falsy]. rewrite andb_true_r. apply Nat.leb_le. lia.
    + eapply List.Forall_impl; [|exact Hd]. intros u. apply isDigit16_spec.
Qed.

Lemma test_digits16_5_spec s :
  test_digits_5 s = true
  <-> List.length s = 5%nat /\ Forall (fun u => 48 <= code u <= 57) s.
Proof.
  unfold test_digits_5. split.
  - destruct (digits_upto 5 s) as [k rest] eqn:E. intros H.
    apply andb_prop in H as [Hk Hr]. apply falsy16_true in Hr. subst rest.
    apply Nat.eqb_eq in Hk.
    destruct (digits16_upto_end 5 s k E) as (Hl & Hk5 & Hd).
    split; [lia|]. eapply List.Forall_impl; [|exact Hd].
    intros u. apply isDigit16_spec.
  - intros [Hl Hd]. rewrite digits16_upto_all; [|lia|].
    + rewrite Hl. reflexivity.
    + eapply List.Forall_impl; [|exact Hd]. intros u. apply isDigit16_spec.
Qed.

Lemma test_digits_5_of_string s :
  test_digits_5 (of_string s)
  = (let '(k, rest) := JsString.digits_upto 5 s in
     (k =? 5)%nat && JsString.falsy rest).
Proof.
  unfold test_digits_5. rewrite digits_upto_of_string.
  destruct (JsString.digits_upto 5 s) as [k rest]. cbn [fst snd].
  rewrite falsy_of_string. reflexivity.
Qed.

End JsString16Facts.

(* ====================================================================== *)
(** * Facts about the geocoding request *)
(* ====================================================================== *)

Module GeocodingFacts.

Import JsString JsStringFacts Geocoding.
Local Open Scope string_scope.

(** The test of the code decides the class of the specification. *)
Lemma test_digits_2_5_spec s :
  test_digits_2_5 s = true <-> is_2_to_5_digits s.
Proof.
  unfold test_digits_2_5, is_2_to_5_digits. split.
  - destruct (digits_upto 5 s) as [k rest] eqn:E. intros H.
    apply andb_prop in H as [Hk Hr]. apply falsy_true in Hr. subst rest.
    apply Nat.leb_le in Hk.
    destruct (digits_upto_end 5 s k E) as (Hl & Hk5 & Hd).
    split; [lia|]. eapply List.Forall_impl; [|exact Hd].
    intros c. apply isDigit_spec.
  - intros [Hl Hd]. rewrite digits_upto_all; [|lia|].
    + cbn [falsy]. rewrite andb_true_r. apply Nat.leb_le. lia.
    + eapply List.Forall_impl; [|exact Hd]. intros c. apply isDigit_spec.
Qed.

Lemma suggestions_for_short fetch query :
  (String.length (trim query) < 2)%nat ->
  suggestions_for "fr" fetch query = ([], []).
Proof.
  intros H. unfold suggestions_for.
  apply Nat.ltb_lt in H. rewrite H, orb_true_r. reflexivity.
Qed.

Lemma suggestions_for_long fetch query :
  (2 <= String.length (trim query))%nat ->
  fst (suggestions_for "fr" fetch query)
  = [request (trim query)
       (if test_digits_2_5 (trim query) then types_postcode else types_general)].
Proof.
  intros H. unfold suggestions_for.
  assert (Hf : falsy (trim query) = false).
  { destruct (trim query); [simpl in H; lia|reflexivity]. }
  assert (Hl : (String.length (trim query) <? 2)%nat = false)
    by (apply Nat.ltb_ge; exact H).
  rewrite Hf, Hl. simpl. unfold request.
  destruct (test_digits_2_5 (trim query)); reflexivity.
Qed.

(** ** The two [getAddressSuggestions] *)

Lemma getAddressSuggestions_short country fetch query :
  (List.length (JsString16.trim query) < 2)%nat ->
  Geocoding.getAddressSuggestions country fetch query = ([], fulfilled []).
Proof.
  intros H. unfold Geocoding.getAddressSuggestions.
  apply Nat.ltb_lt in H. rewrite H, orb_true_r. reflexivity.
Qed.

Lemma getAddressSuggestions_long country fetch query :
  (2 <= List.length (JsString16.trim query))%nat ->
  Geocoding.getAddressSuggestions country fetch query
  = match JsString16.encodeURIComponent (JsString16.trim query) with
    | None => ([], rejected_URIError)
    | Some search =>
        let url :=
          suggestions_url country search
            (if JsString16.test_digits_2_5 (JsString16.trim query)
             then types_postcode else types_general) in
        ([url], snd (Geocoding.getAddressSuggestions country fetch query))
    end.
Proof.
  intros H. unfold Geocoding.getAddressSuggestions.
  assert (Hf : JsString16.falsy (JsString16.trim query) = false).
  { destruct (JsString16.trim query); [simpl in H; lia|reflexivity]. }
  assert (Hl : (List.length (JsString16.trim query) <? 2)%nat = false)
    by (apply Nat.ltb_ge; exact H).
  rewrite Hf, Hl. cbn [orb].
  destruct (JsString16.encodeURIComponent (JsString16.trim query));
    reflexivity.
Qed.

Lemma getAddressSuggestions_requests country fetch query search :
  (2 <= List.length (JsString16.trim query))%nat ->
  JsString16.encodeURIComponent (JsString16.trim query) = Some search ->
  fst (Geocoding.getAddressSuggestions country fetch query)
  = [suggestions_url country search
       (if JsString16.test_digits_2_5 (JsString16.trim query)
        then types_postcode else types_general)].
Proof.
  intros H E. rewrite getAddressSuggestions_long by exact H.
  rewrite E. reflexivity.
Qed.

Lemma getAddressSuggestions_throws country fetch query :
  (2 <= List.length (JsString16.trim query))%nat ->
  JsString16.isWellFormed (JsString16.trim query) = false ->
  Geocoding.getAddressSuggestions country fetch query
  = ([], rejected_URIError).
Proof.
  intros H E. rewrite getAddressSuggestions_long by exact H.
  apply JsString16Facts.encodeURIComponent_throws in E. rewrite E.
  reflexivity.
Qed.

(** On a query of code units 0 to 255 [getAddressSuggestions] is
    [suggestions_for]: the same requests, and a promise fulfilled with the
    same suggestions. *)
Lemma getAddressSuggestions_of_string country fetch query :
  Geocoding.getAddressSuggestions country fetch (JsString16.of_string query)
  = (fst (suggestions_for country fetch query),
     fulfilled (snd (suggestions_for country fetch query))).
Proof.
  unfold Geocoding.getAddressSuggestions, suggestions_for.
  rewrite JsString16Facts.trim_of_string, JsString16Facts.falsy_of_string,
    JsString16Facts.length_of_string,
    JsString16Facts.test_digits_2_5_of_string,
    JsString16Facts.encodeURIComponent_of_string.
  destruct (falsy (trim query) || (String.length (trim query) <? 2)%nat);
    reflexivity.
Qed.

(** A query that no request is made for: a high surrogate without its
    partner, then the letter a. *)
Definition query_lone_surrogate : list JsString16.CodeUnit :=
  [JsString16.of_code 55357; JsString16.unit_of "a"].

(** C7. For every query, with [cleanQuery] its trimmed form: when
    [cleanQuery] is made of 2 to 5 ASCII digits, both [getAddressSuggestions]
    issue one request, for these digits and the types
    'postcode,place,locality,address'; when it is any other string of length
    at least 2 that is well formed, [encodeURIComponent] returns a text and
    they issue one request, for this text and the types
    'place,locality,neighborhood,address'; when it has length at least 2 and
    holds a surrogate without its partner, they issue no request and the
    promise is rejected with the URIError of [encodeURIComponent]; and when
    its length is below 2 they return the empty list without issuing a
    request. *)
Theorem getAddressSuggestions_types
    (fetch : Url -> Response) (query : list JsString16.CodeUnit) :
  let cleanQuery := JsString16.trim query in
  (made_of_2_to_5_digits cleanQuery ->
     fst (Map.getAddressSuggestions fetch query)
       = [suggestions_url "fr" (JsString16.latin1 cleanQuery) types_postcode]
     /\ fst (ConcessionCta.getAddressSuggestions fetch query)
       = [suggestions_url "fr" (JsString16.latin1 cleanQuery) types_postcode])
  /\ ((2 <= List.length cleanQuery)%nat -> ~ made_of_2_to_5_digits cleanQuery ->
      JsString16.isWellFormed cleanQuery = true ->
      exists search,
        JsString16.encodeURIComponent cleanQuery = Some search
        /\ fst (Map.getAddressSuggestions fetch query)
            = [suggestions_url "fr" search types_general]
        /\ fst (ConcessionCta.getAddressSuggestions fetch query)
            = [suggestions_url "fr" search types_general])
  /\ ((2 <= List.length cleanQuery)%nat ->
      JsString16.isWellFormed cleanQuery = false ->
      Map.getAddressSuggestions fetch query = ([], rejected_URIError)
      /\ ConcessionCta.getAddressSuggestions fetch query
         = ([], rejected_URIError))
  /\ ((List.length cleanQuery < 2)%nat ->
     Map.getAddressSuggestions fetch query = ([], fulfilled [])
     /\ ConcessionCta.getAddressSuggestions fetch query = ([], fulfilled []))
  /\ types_postcode = "postcode,place,locality,address"
  /\ types_general = "place,locality,neighborhood,address".
Proof.
  intros cleanQuery. subst cleanQuery.
  unfold Map.getAddressSuggestions, ConcessionCta.getAddressSuggestions.
  split; [|split; [|split; [|split; [|split; reflexivity]]]].
  - intros H.
    assert (Ht : JsString16.test_digits_2_5 (JsString16.trim query) = true)
      by (apply JsString16Facts.test_digits16_2_5_spec, H).
    destruct H as [Hl Hd].
    rewrite (getAddressSuggestions_requests "fr" fetch query
               (JsString16.latin1 (JsString16.trim query)))
      by (lia || apply JsString16Facts.encodeURIComponent_digits, Hd).
    rewrite Ht. split; reflexivity.
  - intros Hl Hn Hw.
    destruct (JsString16Facts.encodeURIComponent_well_formed _ Hw)
      as [search E].
    exists search. split; [exact E|].
    rewrite (getAddressSuggestions_requests "fr" fetch query search Hl E).
    destruct (JsString16.test_digits_2_5 (JsString16.trim query)) eqn:Et;
      [|split; reflexivity].
    apply JsString16Facts.test_digits16_2_5_spec in Et. contradiction.
  - intros Hl Hw. split; apply getAddressSuggestions_throws; assumption.
  - intros Hl. split; apply getAddressSuggestions_short; assumption.
Qed.

(** C7, as it was worded: some query whose trimmed form has length at
    least 2 and is not made of 2 to 5 digits makes no request at all. *)
Lemma getAddressSuggestions_lone_surrogate :
  ~ (forall (fetch : Url -> Response) (query : list JsString16.CodeUnit),
       let cleanQuery := JsString16.trim query in
       (2 <= List.length cleanQuery)%nat ->
       ~ made_of_2_to_5_digits cleanQuery ->
       exists search,
         fst (Map.getAddressSuggestions fetch query)
         = [suggestions_url "fr" search types_general]).
Proof.
  intros H.
  destruct (H (fun _ => fetch_rejects) query_lone_surrogate) as [search E].
  - vm_compute. lia.
  - intros [_ Hd]. vm_compute in Hd.
    inversion Hd as [|? ? [_ Hu] _]. apply Hu. reflexivity.
  - vm_compute in E. discriminate E.
Qed.

End GeocodingFacts.

(* ====================================================================== *)
(** * Facts about [JSON.stringify] *)
(* ====================================================================== *)

Module JsonTextFacts.

Import JsString JsStringFacts JsonText.
Local Open Scope string_scope.

(** What [JSON.stringify] writes for a code unit is read back as this code
    unit. *)
Lemma string_characters_quoteUnit c rest :
  string_characters (quoteUnit c ++ rest)
  = option_map (String c) (string_characters rest).
Proof.
  destruct c as [[] [] [] [] [] [] [] []]; reflexivity.
Qed.

Lemma string_characters_quoteUnits s :
  string_characters (quoteUnits s ++ String dquote "") = Some s.
Proof.
  induction s as [|c s IH]; [reflexivity|].
  cbn [quoteUnits]. rewrite append_assoc, string_characters_quoteUnit, IH.
  reflexivity.
Qed.

(** The JSON string that [JSON.stringify] writes for a string stands for
    this string. *)
Lemma string_value_JSON_quote s : string_value (JSON_quote s) = Some s.
Proof. apply string_characters_quoteUnits. Qed.

Lemma isWhiteSpace_spec c : isWhiteSpace c = true <-> white_space c.
Proof.
  unfold isWhiteSpace, white_space, code.
  rewrite !orb_true_iff, andb_true_iff, !N.leb_le, !N.eqb_eq. tauto.
Qed.

(** A string that a trim does not empty holds a character that is not
    white space. *)
Lemma trim_nonempty_character s :
  trim s <> "" ->
  exists c, In c (list_ascii_of_string s) /\ ~ white_space c.
Proof.
  rewrite trim_empty.
  induction s as [|c s IH]; [intros H; exfalso; apply H; reflexivity|].
  cbn [all_space list_ascii_of_string]. intros H.
  destruct (isWhiteSpace c) eqn:E.
  - destruct IH as (c' & Hin & Hc'); [exact H|].
    exists c'. split; [right; exact Hin|exact Hc'].
  - exists c. split; [left; reflexivity|].
    rewrite <- isWhiteSpace_spec. congruence.
Qed.

End JsonTextFacts.

(* ====================================================================== *)
(** * Facts about concessionCta.ts *)
(* ====================================================================== *)

Module ConcessionCtaFacts.

Import JsString JsStringFacts JsonText JsonTextFacts ConcessionCta.
Local Open Scope string_scope.

(** The two texts the module stores, spelled out. *)
Lemma intent_texts address :
  address_intent address
    = "{" ++ JSON_quote "type" ++ ":" ++ JSON_quote "address" ++ ","
          ++ JSON_quote "address" ++ ":" ++ JSON_quote address ++ "}"
  /\ geolocate_intent
    = "{" ++ JSON_quote "type" ++ ":" ++ JSON_quote "geolocate" ++ "}"
  /\ JSON_quote "type" = String dquote ("type" ++ String dquote "")
  /\ JSON_quote "address" = String dquote ("address" ++ String dquote "")
  /\ JSON_quote "geolocate" = String dquote ("geolocate" ++ String dquote "").
Proof. repeat split. Qed.

(** A write of the module: to the intent key, of one of the two texts, the
    address one holding an address that a trim does not empty. *)
Definition intent_write (e : Effect) : Prop :=
  match e with
  | localStorage_setItem key value =>
      key = "concessionIntent"
      /\ ((exists address,
             value = address_intent address /\ trim address <> "")
          \/ value = geolocate_intent)
  | _ => True
  end.

Lemma navigateToConcessions_writes page :
  Forall intent_write (navigateToConcessions page).
Proof.
  unfold navigateToConcessions.
  destruct (String.eqb _ _); repeat constructor.
Qed.

Lemma performSearch_writes page address :
  Forall intent_write (performSearch page address).
Proof.
  unfold performSearch. destruct (falsy (trim address)) eqn:E; [constructor|].
  apply falsy_false in E. constructor; [|apply navigateToConcessions_writes].
  split; [reflexivity|]. left. exists address. auto.
Qed.

Lemma searchButton_click_writes page :
  Forall intent_write (searchButton_click page).
Proof.
  unfold searchButton_click.
  set (address := trim _). destruct (falsy address) eqn:E; [constructor|].
  apply falsy_false in E. constructor; [|apply navigateToConcessions_writes].
  split; [reflexivity|]. left. exists address. split; [reflexivity|].
  subst address. apply trim_trim_nonempty, E.
Qed.

Lemma geolocateButton_click_writes page :
  Forall intent_write (geolocateButton_click page).
Proof.
  constructor; [|apply navigateToConcessions_writes].
  split; [reflexivity|]. right. reflexivity.
Qed.

Lemma autocomplete_keydown_Enter_writes page :
  Forall intent_write (autocomplete_keydown_Enter page).
Proof.
  unfold autocomplete_keydown_Enter.
  destruct (_ || _); [constructor|].
  destruct (_ && _).
  - destruct (nth_error _ _); [apply performSearch_writes|constructor].
  - destruct (has_searchButton page);
      [apply searchButton_click_writes|constructor].
Qed.

Lemma handle_writes page event : Forall intent_write (handle page event).
Proof.
  destruct event; simpl.
  - destruct (has_input page); [apply performSearch_writes|constructor].
  - apply Forall_app. split.
    + destruct (has_input page);
        [apply autocomplete_keydown_Enter_writes|constructor].
    + destruct (_ && _); [apply searchButton_click_writes|constructor].
  - destruct (_ && _); [apply searchButton_click_writes|constructor].
  - destruct (has_geolocateButton page);
      [apply geolocateButton_click_writes|constructor].
Qed.

(** C10. Whatever the page and the event, every value a listener of the
    module writes to [localStorage] goes to the key 'concessionIntent' and
    is one of two texts. Either it is the JSON object whose members are
    type, the string address, and address, a JSON string; this JSON string
    stands for an address that is not empty and holds a character that is
    not white space. Or it is the JSON object whose one member is type, the
    string geolocate. *)
Theorem writes_are_intents (page : Page) (event : Event) (key value : string) :
  In (localStorage_setItem key value) (handle page event) ->
  key = "concessionIntent"
  /\ ((exists literal address,
         value = "{" ++ quoted "type" ++ ":" ++ quoted "address" ++ ","
                     ++ quoted "address" ++ ":" ++ literal ++ "}"
         /\ string_value literal = Some address
         /\ address <> ""
         /\ exists c, In c (list_ascii_of_string address) /\ ~ white_space c)
      \/ value = "{" ++ quoted "type" ++ ":" ++ quoted "geolocate" ++ "}").
Proof.
  intros Hin. pose proof (handle_writes page event) as H.
  rewrite List.Forall_forall in H. apply H in Hin. simpl in Hin.
  destruct Hin as [Hk [(address & Hv & Ht)|Hv]]; split; auto.
  left. exists (JSON_quote address), address.
  split; [exact Hv|]. split; [apply string_value_JSON_quote|].
  split; [|apply trim_nonempty_character, Ht].
  intros ->. apply Ht. reflexivity.
Qed.

(** A page on which the visitor typed ' Lyon ' and clicked the search
    button. *)
Definition page_Lyon : Page :=
  {| pathname := "/"; input_value := " Lyon "; has_input := true;
     has_searchButton := true; has_geolocateButton := true;
     has_suggestionsContainer := false; currentSuggestions := [];
     selectedIndex := -1 |}.

Lemma writes_are_intents_witness :
  "concessionIntent" = "concessionIntent"
  /\ ((exists literal address,
         address_intent "Lyon"
           = "{" ++ quoted "type" ++ ":" ++ quoted "address" ++ ","
                 ++ quoted "address" ++ ":" ++ literal ++ "}"
         /\ string_value literal = Some address
         /\ address <> ""
         /\ exists c, In c (list_ascii_of_string address) /\ ~ white_space c)
      \/ address_intent "Lyon"
         = "{" ++ quoted "type" ++ ":" ++ quoted "geolocate" ++ "}").
Proof.
  apply (writes_are_intents page_Lyon search_clicked).
  vm_compute. left. reflexivity.
Defined.

End ConcessionCtaFacts.

(* ====================================================================== *)
(** * Facts about map.ts: the stored intent *)
(* ====================================================================== *)

Module MapIntentFacts.

Import JsString JsStringFacts Map.
Local Open Scope string_scope.
Local Open Scope Z_scope.

(** ** A stored value that does not parse *)

Lemma consumeIntent_parse_error JSON_parse dom w raw :
  localStorage w !! "concessionIntent" = Some raw ->
  JSON_parse raw = None ->
  consumeIntent JSON_parse dom w = w.
Proof.
  intros Hraw Hparse. unfold consumeIntent. rewrite Hraw, Hparse.
  destruct (falsy raw); reflexivity.
Qed.

(** C2, as the code has it. For every stored value that [JSON.parse]
    rejects, the read of the intent on page load consumes nothing and does not
    throw, and it leaves the world as it was: no action is taken, no timer is
    set, and the value stays in storage under its key. *)
Theorem consumeIntent_malformed_ignored
    (JSON_parse : string -> option JsValue) (dom : Z -> Dom)
    (w : World) (raw : string) :
  localStorage w !! "concessionIntent" = Some raw ->
  JSON_parse raw = None ->
  consumeIntent JSON_parse dom w = w
  /\ localStorage (consumeIntent JSON_parse dom w) !! "concessionIntent"
     = Some raw.
Proof.
  intros Hraw Hparse.
  rewrite (consumeIntent_parse_error _ _ _ _ Hraw Hparse). auto.
Qed.

(** A page whose storage holds the text of an opening brace under the
    intent key. *)
Definition world_corrupt : World :=
  {| localStorage := {[ "concessionIntent" := "{" ]};
     actions := []; timers := []; now := 0 |}.

Definition dom_ready : Z -> Dom :=
  fun _ => {| addressInput := true; geolocationButton := true |}.

Lemma consumeIntent_malformed_ignored_witness :
  consumeIntent (fun _ => None) dom_ready world_corrupt = world_corrupt
  /\ localStorage (consumeIntent (fun _ => None) dom_ready world_corrupt)
       !! "concessionIntent" = Some "{".
Proof.
  apply (consumeIntent_malformed_ignored (fun _ => None) dom_ready
           world_corrupt "{"); reflexivity.
Defined.

(** C2, as the specification states it, fails: whatever [JSON.parse] is,
    provided it rejects the text of an opening brace, the corrupt value is
    not cleared from storage. *)
Lemma consumeIntent_malformed_not_cleared :
  ~ (forall JSON_parse : string -> option JsValue,
       JSON_parse "{" = None ->
       localStorage (consumeIntent JSON_parse dom_ready world_corrupt)
         !! "concessionIntent" = None).
Proof.
  intros H. specialize (H (fun _ => None) eq_refl).
  rewrite (consumeIntent_parse_error _ _ _ "{") in H by reflexivity.
  discriminate H.
Qed.

(** ** The retry loop *)

Section Retry.

Variable dom : Z -> Dom.

Lemma readable_get intent name :
  readable intent -> exists v, get intent name = Some v.
Proof.
  unfold readable. destruct intent; simpl; intros H; try congruence; eauto.
Qed.

(** One call of [tryConsume] on a readable intent does not throw: it
    consumes the intent, leaving the timers alone, or goes to the tail. *)
Lemma tryConsume_readable intent d retries w :
  readable intent ->
  exists w', tryConsume intent d retries w = Some w'
             /\ (w' = retry intent retries w /\ target_present intent d = false
                 \/ (timers w' = timers w /\ now w' = now w
                     /\ target_present intent d = true)).
Proof.
  intros Hr. unfold tryConsume, target_present.
  destruct (readable_get intent "type" Hr) as [type ->].
  destruct (readable_get intent "address" Hr) as [address ->].
  destruct (is_string type "address"), (truthy address),
    (is_string type "geolocate"), (addressInput d), (geolocationButton d);
    simpl; eexists; (split; [reflexivity|]);
    solve [left; split; reflexivity | right; repeat split; reflexivity].
Qed.

Lemma run_done fuel w : timers w = [] -> run dom fuel w = ([], w).
Proof.
  intros H. destruct fuel; simpl; [reflexivity|].
  unfold run_timer. rewrite H. reflexivity.
Qed.

(** From the tail of a call with [retries] left, on a world with no timer
    pending: the loop runs at most [retries] timers, 150 ms apart, and ends
    with no timer left; and exactly [retries] of them, to no effect, when
    the target stays absent. *)
Lemma run_retry intent : forall retries w,
  readable intent ->
  timers w = [] ->
  exists ran w',
    (forall fuel, (retries <= fuel)%nat ->
       run dom fuel (retry intent (Z.of_nat retries) w) = (ran, w'))
    /\ timers w' = []
    /\ (length ran <= retries)%nat
    /\ paced (now w) ran
    /\ ((forall t, target_present intent (dom t) = false) ->
        length ran = retries
        /\ w' = left_alone w (150 * Z.of_nat retries)).
Proof.
  induction retries as [|retries IH]; intros w Hr Ht.
  - exists [], w. unfold retry. simpl. repeat split; auto.
    + intros fuel _. apply run_done, Ht.
    + unfold left_alone. destruct w; simpl in *; subst. f_equal. lia.
  - unfold retry.
    replace (0 <? Z.of_nat (S retries)) with true
      by (symmetry; apply Z.ltb_lt; lia).
    replace (Z.of_nat (S retries) - 1) with (Z.of_nat retries) by lia.
    set (w1 := {| localStorage := localStorage w; actions := actions w;
                  timers := []; now := now w + 150 |}).
    assert (Hstep : forall fuel,
      run dom (S fuel) (setTimeout intent (Z.of_nat retries) 150 w)
      = match tryConsume intent (dom (now w + 150)) (Z.of_nat retries) w1 with
        | Some w2 => let '(ran, w') := run dom fuel w2 in
                     ({| at_time := now w + 150; threw := false |} :: ran, w')
        | None => let '(ran, w') := run dom fuel w1 in
                  ({| at_time := now w + 150; threw := true |} :: ran, w')
        end).
    { intros fuel. simpl. unfold run_timer, setTimeout. simpl. rewrite Ht.
      simpl. fold w1. destruct (tryConsume _ _ _ w1); reflexivity. }
    destruct (tryConsume_readable intent (dom (now w + 150))
                (Z.of_nat retries) w1 Hr)
      as (w2 & Hw2 & [[-> Hp]|(Ht2 & Hn2 & Hp)]).
    + destruct (IH w1 Hr eq_refl) as (ran & w' & Hrun & Hd & Hl & Hpace & Habs).
      exists ({| at_time := now w + 150; threw := false |} :: ran), w'.
      repeat split; simpl; auto; try lia.
      * intros [|fuel] Hf; [lia|]. rewrite Hstep, Hw2, Hrun by lia. reflexivity.
      * destruct (Habs H); lia.
      * destruct (Habs H) as [_ ->]. unfold left_alone, w1. simpl. f_equal. lia.
    + exists [{| at_time := now w + 150; threw := false |}], w2.
      repeat split; simpl; auto; try lia.
      * intros [|fuel] Hf; [lia|]. rewrite Hstep, Hw2, run_done by exact Ht2.
        reflexivity.
      * rewrite (H (now w + 150)) in Hp. discriminate.
      * rewrite (H (now w + 150)) in Hp. discriminate.
Qed.

End Retry.

(** C8. The consumption of the stored intent on page load is a bounded
    loop. Whatever is stored and however the DOM mounts, at most 20 timers
    run after the first attempt, 150 ms apart, none throws, and then nothing
    is pending: the loop has ended, and running the event loop longer changes
    nothing. When the stored intent is readable and its DOM target is absent
    throughout, exactly 20 retries follow the first attempt, the last one
    3000 ms after it, and the world is left as it was: no action taken, no
    error, the intent still in storage. *)
Theorem tryConsume_retries_bounded
    (JSON_parse : string -> option JsValue) (dom : Z -> Dom) (w : World) :
  timers w = [] ->
  exists ran w',
    (forall fuel, (20 <= fuel)%nat ->
       run dom fuel (consumeIntent JSON_parse dom w) = (ran, w'))
    /\ timers w' = []
    /\ (length ran <= 20)%nat
    /\ paced (now w) ran
    /\ (forall raw intent,
          localStorage w !! "concessionIntent" = Some raw ->
          falsy raw = false ->
          JSON_parse raw = Some intent ->
          readable intent ->
          (forall t, target_present intent (dom t) = false) ->
          length ran = 20%nat
          /\ w' = {| localStorage := localStorage w; actions := actions w;
                     timers := []; now := now w + 3000 |}).
Proof.
  intros Ht.
  pose proof (fun fuel (_ : (20 <= fuel)%nat) => run_done dom fuel w Ht) as Hw.
  unfold consumeIntent.
  destruct (localStorage w !! "concessionIntent") as [raw|] eqn:Eraw;
    [destruct (falsy raw) eqn:Ef;
       [|destruct (JSON_parse raw) as [intent|] eqn:Ep;
           [destruct (get intent "type") as [type|] eqn:Eg|]]|].
  - exists [], w. split; [exact Hw|]. split; [exact Ht|].
    split; [simpl; lia|]. split; [exact I|].
    intros raw' intent' Hraw' Hf' _ _ _. congruence.
  - assert (Hr : readable intent) by (unfold readable; congruence).
    destruct (tryConsume_readable intent (dom (now w)) 20 w Hr)
      as (w1 & -> & [[-> Hp]|(Ht1 & Hn1 & Hp)]).
    + destruct (run_retry dom intent 20 w Hr Ht)
        as (ran & w' & Hrun & Hd & Hl & Hpace & Habs).
      exists ran, w'.
      split; [exact Hrun|]. split; [exact Hd|]. split; [exact Hl|].
      split; [exact Hpace|].
      intros raw' intent' Hraw' _ Hp' _ Ha.
      assert (intent' = intent) as -> by congruence.
      apply Habs, Ha.
    + exists [], w1.
      split; [intros fuel _; apply run_done; congruence|].
      split; [congruence|]. split; [simpl; lia|]. split; [exact I|].
      intros raw' intent' Hraw' _ Hp' _ Ha.
      assert (intent' = intent) as -> by congruence.
      rewrite Ha in Hp. discriminate.
  - assert (tryConsume intent (dom (now w)) 20 w = None) as ->
      by (unfold tryConsume; rewrite Eg; reflexivity).
    exists [], w. split; [exact Hw|]. split; [exact Ht|].
    split; [simpl; lia|]. split; [exact I|].
    intros raw' intent' Hraw' _ Hp' Hr' _. exfalso.
    assert (intent' = intent) as -> by congruence. apply Hr', Eg.
  - exists [], w. split; [exact Hw|]. split; [exact Ht|].
    split; [simpl; lia|]. split; [exact I|].
    intros raw' intent' Hraw' _ Hp' _ _. congruence.
  - exists [], w. split; [exact Hw|]. split; [exact Ht|].
    split; [simpl; lia|]. split; [exact I|].
    intros raw' intent' Hraw' _ _ _ _. congruence.
Qed.

(** A [JSON.parse] for the one text of the geolocation intent. *)
Definition parse_geolocate (raw : string) : option JsValue :=
  if String.eqb raw ConcessionCta.geolocate_intent
  then Some (JsObject [("type", JsString "geolocate")])
  else None.

(** A page that holds the geolocation intent and never mounts a control. *)
Definition world_geolocate : World :=
  {| localStorage := {[ "concessionIntent" := ConcessionCta.geolocate_intent ]};
     actions := []; timers := []; now := 0 |}.

Definition dom_never : Z -> Dom :=
  fun _ => {| addressInput := false; geolocationButton := false |}.

Lemma tryConsume_retries_bounded_witness :
  exists ran w',
    (forall fuel, (20 <= fuel)%nat ->
       run dom_never fuel (consumeIntent parse_geolocate dom_never world_geolocate)
       = (ran, w'))
    /\ timers w' = []
    /\ (length ran <= 20)%nat
    /\ paced (now world_geolocate) ran
    /\ (forall raw intent,
          localStorage world_geolocate !! "concessionIntent" = Some raw ->
          falsy raw = false ->
          parse_geolocate raw = Some intent ->
          readable intent ->
          (forall t, target_present intent (dom_never t) = false) ->
          length ran = 20%nat
          /\ w' = {| localStorage := localStorage world_geolocate;
                     actions := actions world_geolocate;
                     timers := []; now := now world_geolocate + 3000 |}).
Proof.
  apply (tryConsume_retries_bounded parse_geolocate dom_never world_geolocate).
  reflexivity.
Defined.

(** ** The hand-off from the call-to-action *)

(** X3. An address intent written by the call-to-action and read back by
    [JSON.parse] is consumed at once when the address input is mounted: the
    address is dispatched in a 'concession-intent-address' event, the key is
    removed from storage and no timer is set. *)
Theorem address_intent_handoff
    (JSON_parse : string -> option JsValue) (dom : Z -> Dom)
    (w : World) (address : string) :
  localStorage w !! "concessionIntent"
    = Some (ConcessionCta.address_intent address) ->
  JSON_parse (ConcessionCta.address_intent address)
    = Some (JsObject [("type", JsString "address");
                      ("address", JsString address)]) ->
  address <> "" ->
  addressInput (dom (now w)) = true ->
  consumeIntent JSON_parse dom w
  = {| localStorage := delete "concessionIntent" (localStorage w);
       actions := actions w ++ [dispatch_concession_intent_address
                                  (JsString address)];
       timers := timers w; now := now w |}.
Proof.
  intros Hraw Hparse Ha Hdom. unfold consumeIntent.
  assert (Hf : falsy (ConcessionCta.address_intent address) = false)
    by reflexivity.
  rewrite Hraw, Hf, Hparse.
  assert (Ht : truthy (JsString address) = true).
  { destruct address; [congruence|reflexivity]. }
  unfold tryConsume. cbn [get lookup_prop].
  change (String.eqb "type" "type") with true.
  change (String.eqb "type" "address") with false.
  change (String.eqb "address" "address") with true.
  cbv iota. change (is_string (JsString "address") "address") with true.
  cbv iota. rewrite Ht, Hdom. reflexivity.
Qed.

(** A [JSON.parse] for the address intent of Lyon. *)
Definition parse_Lyon (raw : string) : option JsValue :=
  if String.eqb raw (ConcessionCta.address_intent "Lyon")
  then Some (JsObject [("type", JsString "address");
                       ("address", JsString "Lyon")])
  else None.

Definition world_Lyon : World :=
  {| localStorage := {[ "concessionIntent" := ConcessionCta.address_intent "Lyon" ]};
     actions := []; timers := []; now := 0 |}.

Lemma address_intent_handoff_witness :
  consumeIntent parse_Lyon dom_ready world_Lyon
  = {| localStorage := delete "concessionIntent" (localStorage world_Lyon);
       actions := actions world_Lyon
                  ++ [dispatch_concession_intent_address (JsString "Lyon")];
       timers := timers world_Lyon; now := now world_Lyon |}.
Proof.
  apply (address_intent_handoff parse_Lyon dom_ready world_Lyon "Lyon");
    [reflexivity|reflexivity|discriminate|reflexivity].
Defined.

End MapIntentFacts.

(* ====================================================================== *)
(** * Facts about map.ts: the reorder after a batch of distances *)
(* ====================================================================== *)

Module MapDebounceFacts.

Import Map.
Local Open Scope Z_scope.

Section Scheduling.

Variable parseFloat : string -> float.

Abbreviation Sorter := (Map.Sorter).
Abbreviation reorder := (Map.reorder parseFloat).
Abbreviation advance := (Map.advance parseFloat).
Abbreviation updateAllDistances := (Map.updateAllDistances parseFloat).
Abbreviation sortConcessionsByDistance :=
  (Map.sortConcessionsByDistance parseFloat).
Abbreviation sort_step := (Map.sort_step parseFloat).
Abbreviation sort_run := (Map.sort_run parseFloat).

(** The cards a batch has written its distances on. *)
Definition written (getDirections : Card -> Route) (l : list Card) : list Card :=
  map (fun card => write_distance (getDirections card) card) l.

(** The end of a batch makes one reorder pass then and there, on the cards
    as the batch left them, and touches no timer. *)
Lemma updateAllDistances_immediate getDirections (s : Sorter) :
  cards (updateAllDistances getDirections s)
    = sortConcessionsByDistanceImmediate parseFloat
        (written getDirections (cards s))
  /\ passes (updateAllDistances getDirections s) = passes s ++ [clock s]
  /\ pending (updateAllDistances getDirections s) = pending s
  /\ sortDebounceTimeout (updateAllDistances getDirections s)
     = sortDebounceTimeout s
  /\ clock (updateAllDistances getDirections s) = clock s.
Proof. repeat split. Qed.

Lemma advance_idle t (s : Sorter) :
  pending s = [] ->
  cards (advance t s) = cards s
  /\ passes (advance t s) = passes s /\ pending (advance t s) = []
  /\ sortDebounceTimeout (advance t s) = sortDebounceTimeout s
  /\ clock (advance t s) = Z.max (clock s) t.
Proof. intros H. unfold Map.advance. rewrite H. simpl. auto. Qed.

Lemma batch_completes_step t getDirections (s : Sorter) :
  pending s = [] ->
  passes (sort_step s (batch_completes t getDirections))
    = passes s ++ [Z.max (clock s) t]
  /\ pending (sort_step s (batch_completes t getDirections)) = []
  /\ sortDebounceTimeout (sort_step s (batch_completes t getDirections))
     = sortDebounceTimeout s
  /\ cards (sort_step s (batch_completes t getDirections))
     = sortConcessionsByDistanceImmediate parseFloat
         (written getDirections (cards s)).
Proof.
  intros H. destruct (advance_idle t s H) as (Hk & Hp & Hd & Ht & Hc).
  cbn [Map.sort_step].
  destruct (updateAllDistances_immediate getDirections (advance t s))
    as (-> & -> & -> & -> & _).
  rewrite Hk, Hp, Hd, Ht, Hc. auto.
Qed.

Lemma sort_run_cons e events (s : Sorter) :
  sort_run (e :: events) s = sort_run events (sort_step s e).
Proof. reflexivity. Qed.

(** X1. The debounce is on the other path: two calls of
    [sortConcessionsByDistance()] less than 500 ms apart make one reorder
    pass, 500 ms after the second. *)
Theorem sort_requests_debounced (cards0 : list Card) (t1 t2 : Z) :
  0 <= t1 <= t2 -> t2 < t1 + 500 ->
  passes (advance (t2 + 500)
            (sort_run [sort_requested t1; sort_requested t2] (sorter0 cards0)))
  = [t2 + 500].
Proof.
  intros H1 H2.
  assert (E1 : sort_step (sorter0 cards0) (sort_requested t1)
               = {| cards := cards0; sortDebounceTimeout := Some 1%nat;
                    pending := [(1%nat, t1 + 500)]; next_timer := 2;
                    clock := t1; passes := [] |}).
  { unfold Map.sort_step, Map.advance, Map.sortConcessionsByDistance, sorter0.
    simpl. rewrite Z.max_r by lia. reflexivity. }
  assert (E2 : sort_step {| cards := cards0; sortDebounceTimeout := Some 1%nat;
                            pending := [(1%nat, t1 + 500)]; next_timer := 2;
                            clock := t1; passes := [] |} (sort_requested t2)
               = {| cards := cards0; sortDebounceTimeout := Some 2%nat;
                    pending := [(2%nat, t2 + 500)]; next_timer := 3;
                    clock := t2; passes := [] |}).
  { unfold Map.sort_step, Map.advance. simpl.
    destruct (Z.leb_spec (t1 + 500) t2); [lia|]. simpl.
    unfold Map.sortConcessionsByDistance, clearTimeout. simpl.
    rewrite Z.max_r by lia. reflexivity. }
  rewrite !sort_run_cons, E1, E2. unfold Map.sort_run, Map.advance. simpl.
  destruct (Z.leb_spec (t2 + 500) (t2 + 500)); [|lia]. reflexivity.
Qed.

End Scheduling.

Lemma sort_requests_debounced_witness :
  passes (advance JsString.parseFloat_short (100 + 500)
            (sort_run JsString.parseFloat_short
               [sort_requested 0; sort_requested 100] (sorter0 [])))
  = [100 + 500].
Proof.
  apply (sort_requests_debounced JsString.parseFloat_short [] 0 100); lia.
Defined.

End MapDebounceFacts.

(* ====================================================================== *)
(** * Facts about the calls of [updateAllDistances] *)
(* ====================================================================== *)

Module MapBatchesFacts.

Import JsString Map MapBatches.
Local Open Scope Z_scope.

Section Batches.

Variable parseFloat : string -> float.
Variable has_coordinates : nat -> bool.

Abbreviation Page := (MapBatches.Page).
Abbreviation proceed := (MapBatches.proceed parseFloat has_coordinates).
Abbreviation at_time := (MapBatches.at_time parseFloat).
Abbreviation batch_step := (MapBatches.batch_step parseFloat has_coordinates).
Abbreviation batch_run := (MapBatches.batch_run parseFloat has_coordinates).











(** ** A call that runs alone *)

Lemma set_textContent_of_other cardElement text (l : list Card) :
  ~ In cardElement (map element l) ->
  set_textContent_of cardElement text l = l.
Proof.
  induction l as [|card l IH]; [reflexivity|].
  cbn [map In set_textContent_of]. intros H.
  destruct (Nat.eqb_spec (element card) cardElement) as [E|E]; [tauto|].
  f_equal. apply IH. tauto.
Qed.

Section Alone.

Variable getDirections : Card -> Route.

(** The card as the call leaves it, and as it is while the call is at
    another card. *)
Definition left_card (card : Card) : Card :=
  write_distance (getDirections card) card.
Definition loading_card (card : Card) : Card :=
  set_textContent text_loading card.

Lemma element_left_card l : map element (map left_card l) = map element l.
Proof.
  rewrite map_map. apply map_ext. intros card.
  unfold left_card, write_distance.
  destruct (distance_textContent card); reflexivity.
Qed.

Lemma element_loading_card l :
  map element (map loading_card l) = map element l.
Proof.
  rewrite map_map. apply map_ext. intros card.
  unfold loading_card, set_textContent.
  destruct (distance_textContent card); reflexivity.
Qed.

(** The write of a text on the card the call is at. *)
Lemma set_textContent_of_here text r (pre post : list Card) (card : Card) :
  List.NoDup (map element (pre ++ card :: post)) ->
  getDirections card = r ->
  set_textContent text (loading_card card) = write_distance r card ->
  set_textContent_of (element card) text
    (map left_card pre ++ map loading_card (card :: post))
  = (map left_card (pre ++ [card]) ++ map loading_card post)%list.
Proof.
  intros Hn Hr Hw.
  rewrite map_app in Hn. cbn [map] in Hn.
  apply List.NoDup_remove in Hn as [_ Hn].
  unfold set_textContent_of at 1. rewrite map_app. cbn [map].
  fold (set_textContent_of (element card) text (map left_card pre)).
  fold (set_textContent_of (element card) text (map loading_card post)).
  rewrite !set_textContent_of_other.
  - assert (E : element (loading_card card) = element card).
    { unfold loading_card, set_textContent.
      destruct (distance_textContent card); reflexivity. }
    rewrite E, Nat.eqb_refl, Hw, map_app, <- app_assoc.
    cbn [map app].
    change (left_card card) with (write_distance (getDirections card) card).
    rewrite Hr. reflexivity.
  - rewrite element_loading_card. intros H. apply Hn, in_or_app. right. exact H.
  - rewrite element_left_card. intros H. apply Hn, in_or_app. left. exact H.
Qed.

Lemma advance_alone t (s : Sorter) :
  pending s = [] -> clock s <= t ->
  advance parseFloat t s = at_clock t s.
Proof.
  intros Hd Hc. unfold advance, at_clock. rewrite Hd. cbn.
  rewrite Z.max_r by exact Hc. reflexivity.
Qed.

Lemma advance_same t (s : Sorter) :
  pending s = [] -> clock s = t -> advance parseFloat t s = s.
Proof.
  intros Hd Hc. rewrite advance_alone by (assumption || lia).
  rewrite <- Hc. destruct s; reflexivity.
Qed.

Lemma at_time_same t (q : Page) :
  pending (sorter q) = [] -> clock (sorter q) = t -> at_time t q = q.
Proof.
  intros Hd Hc. unfold MapBatches.at_time. rewrite advance_same by assumption.
  destruct q; reflexivity.
Qed.

Lemma step_route_found call cardElement rest km t (q : Page) :
  pending (sorter q) = [] -> clock (sorter q) = t ->
  running q !! call = Some (awaiting_route cardElement rest) ->
  batch_step q (route_settled t call (Some km))
  = {| sorter :=
         with_cards
           (set_textContent_of cardElement (km ++ " KM")%string
              (cards (sorter q)))
           (sorter q);
       running := <[call := awaiting_delay (t + rateLimitDelay) rest]> (running q);
       returned := returned q |}.
Proof.
  intros Hd Hc Hr. cbn [MapBatches.batch_step].
  rewrite at_time_same by assumption. rewrite Hr, Hc. reflexivity.
Qed.

Lemma step_route_failed call cardElement rest t (q : Page) :
  pending (sorter q) = [] -> clock (sorter q) = t ->
  running q !! call = Some (awaiting_route cardElement rest) ->
  batch_step q (route_settled t call None)
  = proceed call rest
      (with_sorter
         (with_cards
            (set_textContent_of cardElement text_failed (cards (sorter q)))
            (sorter q)) q).
Proof.
  intros Hd Hc Hr. cbn [MapBatches.batch_step].
  rewrite at_time_same by assumption. rewrite Hr. reflexivity.
Qed.

Lemma step_delay_over call rest t (q : Page) :
  pending (sorter q) = [] -> clock (sorter q) <= t ->
  running q !! call = Some (awaiting_delay t rest) ->
  batch_step q (delay_over t call)
  = proceed call rest (with_sorter (at_clock t (sorter q)) q).
Proof.
  intros Hd Hc Hr. cbn [MapBatches.batch_step].
  unfold MapBatches.at_time. rewrite advance_alone by assumption.
  cbn [running with_sorter]. rewrite Hr, Z.leb_refl. reflexivity.
Qed.

Lemma loading_then_found km card :
  set_textContent (km ++ " KM")%string (loading_card card)
  = write_distance (route_found km) card.
Proof.
  unfold loading_card, set_textContent, write_distance.
  destruct (distance_textContent card) eqn:E; cbn; rewrite ?E; reflexivity.
Qed.

Lemma loading_then_failed card :
  set_textContent text_failed (loading_card card)
  = write_distance route_failed card.
Proof.
  unfold loading_card, set_textContent, write_distance.
  destruct (distance_textContent card) eqn:E; cbn; rewrite ?E; reflexivity.
Qed.

Lemma alone_loop call : forall (post pre : list Card) (t : Z) (q : Page),
  cards (sorter q) = (map left_card pre ++ map loading_card post)%list ->
  List.NoDup (map element (pre ++ post)) ->
  pending (sorter q) = [] ->
  clock (sorter q) = t ->
  (forall card, In card post ->
     has_coordinates (element card) = has_route (getDirections card)) ->
  let routes := map getDirections post in
  batch_run (alone t call routes) (proceed call (map element post) q)
  = {| sorter :=
         reorder parseFloat
           (with_cards (map left_card (pre ++ post))
              (at_clock (alone_end t routes) (sorter q)));
       running := delete call (running q);
       returned := (returned q ++ [(call, alone_end t routes)])%list |}.
Proof.
  induction post as [|card post IH]; intros pre t q Hk Hn Hd Hc Hh; cbv zeta.
  - cbn [map alone alone_end MapBatches.batch_run fold_left MapBatches.proceed].
    cbn [map] in Hk. rewrite app_nil_r in Hk. rewrite app_nil_r.
    rewrite <- Hk, <- Hc. f_equal.
  - assert (Hn' : List.NoDup (map element ((pre ++ [card]) ++ post)))
      by (rewrite <- app_assoc; exact Hn).
    assert (Hh' : forall card', In card' post ->
              has_coordinates (element card') = has_route (getDirections card'))
      by (intros card' H; apply Hh; right; exact H).
    specialize (Hh card (or_introl eq_refl)).
    cbn [map MapBatches.proceed]. rewrite Hh.
    destruct (getDirections card) as [km| |] eqn:Er; cbn [has_route alone alone_end].
    + (* a route is found, and the delay follows *)
      cbn [MapBatches.batch_run fold_left].
      rewrite (step_route_found call (element card) (map element post) km t)
        by (assumption || apply lookup_insert_eq).
      cbn [sorter running returned].
      rewrite (step_delay_over call (map element post) (t + rateLimitDelay));
        [|exact Hd|cbn; unfold rateLimitDelay; lia|apply lookup_insert_eq].
      match goal with
      | |- fold_left _ _ (MapBatches.proceed _ _ _ _ ?Q) = _ =>
          pose proof (IH (pre ++ [card])%list (t + rateLimitDelay) Q) as IH'
      end.
      cbv zeta in IH'. unfold MapBatches.batch_run in IH'.
      rewrite IH'; try assumption; try reflexivity.
      * cbn [sorter running returned with_sorter].
        rewrite !delete_insert_eq, <- app_assoc. reflexivity.
      * cbn [sorter cards with_cards at_clock with_sorter]. rewrite Hk.
        apply (set_textContent_of_here _ (route_found km)); try assumption.
        apply loading_then_found.
    + (* the route failed *)
      cbn [MapBatches.batch_run fold_left].
      rewrite (step_route_failed call (element card) (map element post) t)
        by (assumption || apply lookup_insert_eq).
      match goal with
      | |- fold_left _ _ (MapBatches.proceed _ _ _ _ ?Q) = _ =>
          pose proof (IH (pre ++ [card])%list t Q) as IH'
      end.
      cbv zeta in IH'. unfold MapBatches.batch_run in IH'.
      rewrite IH'; try assumption; try reflexivity.
      * cbn [sorter running returned with_sorter].
        rewrite !delete_insert_eq, <- app_assoc. reflexivity.
      * cbn [sorter cards with_cards with_sorter]. rewrite Hk.
        apply (set_textContent_of_here _ route_failed); try assumption.
        apply loading_then_failed.
    + (* no coordinates *)
      rewrite (IH (pre ++ [card])%list t q); try assumption.
      * rewrite <- app_assoc. reflexivity.
      * rewrite Hk, map_app, <- app_assoc. cbn [map app].
        change (left_card card) with (write_distance (getDirections card) card).
        rewrite Er. reflexivity.
Qed.

Lemma alone_end_le routes : forall t, t <= alone_end t routes.
Proof.
  induction routes as [|[km| |] routes IH]; intros t; cbn [alone_end];
    try apply IH; [lia|].
  specialize (IH (t + rateLimitDelay)). unfold rateLimitDelay in *. lia.
Qed.

(** A call that runs alone, on a page where no sort timer is pending and
    no two cards are the same element, leaves what [Map.updateAllDistances]
    gives for what it found, at the time of its last event: every card
    with the text of its route, and one reorder pass. *)
Lemma call_alone call t (p : Page) :
  pending (sorter p) = [] ->
  clock (sorter p) <= t ->
  running p !! call = None ->
  List.NoDup (map element (cards (sorter p))) ->
  (forall card, In card (cards (sorter p)) ->
     has_coordinates (element card) = has_route (getDirections card)) ->
  let routes := map getDirections (cards (sorter p)) in
  let p' := batch_run (updateAllDistances_called t call :: alone t call routes) p in
  sorter p'
    = Map.sort_step parseFloat (sorter p)
        (batch_completes (alone_end t routes) getDirections)
  /\ returned p' = (returned p ++ [(call, alone_end t routes)])%list
  /\ running p' = running p.
Proof.
  intros Hd Hc Hr Hn Hh. cbv zeta.
  pose proof (alone_end_le (map getDirections (cards (sorter p))) t) as Hle.
  cbn [MapBatches.batch_run fold_left MapBatches.batch_step].
  unfold MapBatches.at_time. rewrite advance_alone by assumption.
  cbn [running with_sorter sorter]. rewrite Hr.
  match goal with
  | |- context [fold_left _ _ (MapBatches.proceed _ _ _ _ ?Q)] =>
      pose proof (alone_loop call (cards (sorter p)) [] t Q) as H
  end.
  cbv zeta in H. unfold MapBatches.batch_run in H.
  cbn [cards at_clock] in *.
  rewrite H; try assumption; try reflexivity.
  cbn [sorter running returned Map.sort_step].
  rewrite advance_alone by (assumption || lia).
  repeat split. apply delete_id, Hr.
Qed.

End Alone.

End Batches.

(** Two cards, each with a distance element, and two calls of
    [updateAllDistances] whose awaits interleave: the second call starts
    while the first is at its second card, and returns 400 ms after it. *)
Definition two_cards : list Card :=
  [ {| element := 1; distance_textContent := Some ""%string |};
    {| element := 2; distance_textContent := Some ""%string |} ].

Definition two_calls : list BatchEvent :=
  [ updateAllDistances_called 0 1;
    route_settled 100 1 (Some "5.0"%string);
    delay_over 250 1;
    updateAllDistances_called 300 2;
    route_settled 400 1 (Some "3.0"%string);
    delay_over 550 1;
    route_settled 600 2 (Some "1.0"%string);
    delay_over 750 2;
    route_settled 800 2 (Some "9.0"%string);
    delay_over 950 2 ].

Definition page_two_calls : MapBatches.Page :=
  MapBatches.batch_run JsString.parseFloat_short (fun _ => true) two_calls
    (page0 two_cards).

Example two_calls_passes :
  returned page_two_calls = [(1%nat, 550); (2%nat, 950)]
  /\ passes (sorter page_two_calls) = [550; 950]
  /\ cards (sorter (MapBatches.batch_run JsString.parseFloat_short (fun _ => true)
                      (firstn 6 two_calls) (page0 two_cards)))
     = [ {| element := 2; distance_textContent := Some "3.0 KM"%string |};
         {| element := 1; distance_textContent := Some "Calcul"%string |} ]
  /\ cards (sorter page_two_calls)
     = [ {| element := 1; distance_textContent := Some "1.0 KM"%string |};
         {| element := 2; distance_textContent := Some "9.0 KM"%string |} ].
Proof. vm_compute. repeat split. Qed.


End MapBatchesFacts.

(* ====================================================================== *)
(** * Facts about map.ts: the sort by distance *)
(* ====================================================================== *)

Module MapSortFacts.

Import JsNumberFacts Map.
Local Open Scope float_scope.

(** ** Insertion, for any comparison function *)

Section Insertion.

Context {A : Type}.
Variable comparefn : A -> A -> float.

Lemma insert_by_Permutation a l :
  Permutation (a :: l) (insert_by comparefn a l).
Proof.
  induction l as [|b l IH]; simpl; [reflexivity|].
  destruct (0 <? comparefn a b); [|reflexivity].
  rewrite perm_swap. apply perm_skip, IH.
Qed.

Lemma sort_Permutation l : Permutation l (sort comparefn l).
Proof.
  induction l as [|a l IH]; simpl; [reflexivity|].
  rewrite <- insert_by_Permutation. apply perm_skip, IH.
Qed.

Lemma insert_by_Forall (P : A -> Prop) a l :
  P a -> List.Forall P l -> List.Forall P (insert_by comparefn a l).
Proof.
  intros Ha Hl. induction Hl as [|b l Hb Hl IH]; simpl.
  - repeat constructor. exact Ha.
  - destruct (0 <? comparefn a b); repeat constructor; auto.
Qed.

Lemma sort_Forall (P : A -> Prop) l :
  List.Forall P l -> List.Forall P (sort comparefn l).
Proof.
  induction 1 as [|a l Ha Hl IH]; simpl; [constructor|].
  apply insert_by_Forall; assumption.
Qed.

(** An order [R] that the comparison function respects on the elements
    that are [ok]: [a] stops before [b] only if [R a b], and goes past [b]
    only if [R b a]. *)
Variable ok : A -> Prop.
Variable R : A -> A -> Prop.
Hypothesis R_trans : forall a b c, R a b -> R b c -> R a c.
Hypothesis R_stop :
  forall a b, ok a -> ok b -> (0 <? comparefn a b) = false -> R a b.
Hypothesis R_pass :
  forall a b, ok a -> ok b -> (0 <? comparefn a b) = true -> R b a.

Lemma insert_by_sorted a l :
  ok a -> List.Forall ok l ->
  Sorted.StronglySorted R l ->
  Sorted.StronglySorted R (insert_by comparefn a l).
Proof.
  intros Ha Hok Hs. induction Hs as [|b l Hs IH Hb]; simpl.
  - repeat constructor.
  - inversion Hok as [|? ? Hokb Hokl]; subst.
    destruct (0 <? comparefn a b) eqn:E.
    + constructor; [apply IH, Hokl|].
      apply insert_by_Forall; [|exact Hb]. apply R_pass; assumption.
    + assert (Rab : R a b) by (apply R_stop; assumption).
      constructor; [constructor; assumption|].
      constructor; [exact Rab|].
      eapply List.Forall_impl; [|exact Hb]. intros c. apply R_trans, Rab.
Qed.

Lemma sort_sorted l :
  List.Forall ok l -> Sorted.StronglySorted R (sort comparefn l).
Proof.
  induction 1 as [|a l Ha Hl IH]; simpl; [constructor|].
  apply insert_by_sorted; [exact Ha| |exact IH].
  apply sort_Forall, Hl.
Qed.

(** What goes past an element is kept by a filter only if what it goes
    past is dropped: the filter cannot see the insertion move. *)
Variable keep : A -> bool.
Hypothesis pass_dropped :
  forall a b, (0 <? comparefn a b) = true -> keep b = false.

Lemma insert_by_filter a l :
  List.filter keep (insert_by comparefn a l) = List.filter keep (a :: l).
Proof.
  induction l as [|b l IH]; [reflexivity|].
  cbn [insert_by]. destruct (0 <? comparefn a b) eqn:E; [|reflexivity].
  pose proof (pass_dropped a b E) as Hb.
  cbn [List.filter] in *. rewrite Hb, IH. reflexivity.
Qed.

Lemma sort_filter l :
  List.filter keep (sort comparefn l) = List.filter keep l.
Proof.
  induction l as [|a l IH]; [reflexivity|].
  cbn [sort fold_right]. fold (sort comparefn l).
  rewrite insert_by_filter. cbn [List.filter]. rewrite IH. reflexivity.
Qed.

End Insertion.

Lemma insert_by_map {A B} (f : A -> B) (comparefn : B -> B -> float) a l :
  insert_by comparefn (f a) (map f l)
  = map f (insert_by (fun x y => comparefn (f x) (f y)) a l).
Proof.
  induction l as [|b l IH]; [reflexivity|].
  cbn [map insert_by]. destruct (0 <? comparefn (f a) (f b)); [|reflexivity].
  rewrite IH. reflexivity.
Qed.

Lemma sort_map {A B} (f : A -> B) (comparefn : B -> B -> float) l :
  sort comparefn (map f l)
  = map f (sort (fun x y => comparefn (f x) (f y)) l).
Proof.
  induction l as [|a l IH]; [reflexivity|].
  cbn [map sort fold_right].
  fold (sort comparefn (map f l)).
  fold (sort (fun x y => comparefn (f x) (f y)) l).
  rewrite IH. apply insert_by_map.
Qed.

Lemma StronglySorted_pair {A} (R : A -> A -> Prop) before a between b after :
  Sorted.StronglySorted R (before ++ a :: between ++ b :: after) -> R a b.
Proof.
  induction before as [|c before IH]; simpl; intros H.
  - apply Sorted.StronglySorted_inv in H as [_ H].
    rewrite List.Forall_forall in H. apply H.
    apply in_or_app. right. left. reflexivity.
  - apply Sorted.StronglySorted_inv in H as [H _]. apply IH, H.
Qed.

(** ** The cards *)

Section Cards.

Variable parseFloat : string -> float.

Abbreviation dist := (Map.dist parseFloat).
Abbreviation unknown := (Map.unknown parseFloat).

Definition compareCards (a b : Card) : float :=
  compareDistance (withDistance parseFloat a) (withDistance parseFloat b).

Lemma compareCards_unfold a b :
  compareCards a b
  = if unknown a && unknown b then 0
    else if unknown a then 1
    else if unknown b then -1
    else dist a - dist b.
Proof. reflexivity. Qed.

(** The function sorts the cards themselves, by their distances. *)
Lemma sortConcessionsByDistanceImmediate_sort cards :
  sortConcessionsByDistanceImmediate parseFloat cards = sort compareCards cards.
Proof.
  destruct cards as [|card cards]; [reflexivity|].
  unfold sortConcessionsByDistanceImmediate.
  rewrite sort_map, map_map. apply map_id.
Qed.

(** A card goes past known cards only. *)
Lemma pass_known a b :
  (0 <? compareCards a b) = true -> unknown b = false.
Proof.
  rewrite compareCards_unfold.
  destruct (unknown a), (unknown b); simpl; try reflexivity;
    intros H; vm_compute in H; discriminate H.
Qed.

(** Unknown distances come last. *)
Definition unknown_last (a b : Card) : Prop :=
  unknown a = true -> unknown b = true.

(** Known distances ascend. *)
Definition ascending (a b : Card) : Prop :=
  unknown a = false -> unknown b = false -> (dist a <=? dist b) = true.

Lemma stop_unknown_last a b :
  (0 <? compareCards a b) = false -> unknown_last a b.
Proof.
  rewrite compareCards_unfold. unfold unknown_last.
  destruct (unknown a), (unknown b); simpl; try reflexivity;
    intros H; try (vm_compute in H; discriminate H); discriminate.
Qed.

Lemma pass_unknown_last a b :
  (0 <? compareCards a b) = true -> unknown_last b a.
Proof.
  intros H Hb. rewrite (pass_known a b H) in Hb. discriminate.
Qed.

Lemma stop_ascending a b :
  is_nan (dist a) = false -> is_nan (dist b) = false ->
  (0 <? compareCards a b) = false -> ascending a b.
Proof.
  intros Ha Hb. rewrite compareCards_unfold. intros H Ua Ub.
  rewrite Ua, Ub in H. simpl in H. rewrite sub_gt0 in H by assumption.
  apply not_ltb_leb; assumption.
Qed.

Lemma pass_ascending a b :
  is_nan (dist a) = false -> is_nan (dist b) = false ->
  (0 <? compareCards a b) = true -> ascending b a.
Proof.
  intros Ha Hb. rewrite compareCards_unfold. intros H Ub Ua.
  rewrite Ua, Ub in H. simpl in H. rewrite sub_gt0 in H by assumption.
  apply ltb_leb, H.
Qed.

(** The two together make an order. *)
Definition by_distance (a b : Card) : Prop := unknown_last a b /\ ascending a b.

Lemma by_distance_trans a b c :
  by_distance a b -> by_distance b c -> by_distance a c.
Proof.
  unfold by_distance, unknown_last, ascending.
  intros [L1 A1] [L2 A2]. split; [auto|].
  intros Ua Uc. destruct (unknown b) eqn:Ub.
  - rewrite L2 in Uc by reflexivity. discriminate.
  - eapply leb_trans; eauto.
Qed.

Lemma sorted_unknown_last cards :
  Sorted.StronglySorted unknown_last
    (sortConcessionsByDistanceImmediate parseFloat cards).
Proof.
  rewrite sortConcessionsByDistanceImmediate_sort.
  apply (sort_sorted compareCards (fun _ => True) unknown_last).
  - unfold unknown_last. auto.
  - intros x y _ _. apply stop_unknown_last.
  - intros x y _ _. apply pass_unknown_last.
  - apply List.Forall_forall. auto.
Qed.

Lemma sorted_by_distance cards :
  (forall card, In card cards -> is_nan (dist card) = false) ->
  Sorted.StronglySorted by_distance
    (sortConcessionsByDistanceImmediate parseFloat cards).
Proof.
  intros Hnum. rewrite sortConcessionsByDistanceImmediate_sort.
  apply (sort_sorted compareCards (fun card => is_nan (dist card) = false)
           by_distance).
  - exact by_distance_trans.
  - intros x y Hx Hy H. split;
      [apply stop_unknown_last, H|apply stop_ascending; assumption].
  - intros x y Hx Hy H. split;
      [apply pass_unknown_last, H|apply pass_ascending; assumption].
  - apply List.Forall_forall. exact Hnum.
Qed.

(** The order [sortConcessionsByDistanceImmediate] leaves, by the
    distances [extractDistanceValue] reads: the same cards, none of unknown
    distance before one of known distance, those of unknown distance in the
    order they had, those of known distance in ascending order. *)
Lemma cards_order (cards : list Card) :
  let sorted := sortConcessionsByDistanceImmediate parseFloat cards in
  Permutation cards sorted
  /\ (forall before a between b after,
        sorted = before ++ a :: between ++ b :: after ->
        unknown a = true -> unknown b = true)
  /\ List.filter unknown sorted = List.filter unknown cards
  /\ ((forall card, In card cards -> is_nan (dist card) = false) ->
      forall before a between b after,
        sorted = before ++ a :: between ++ b :: after ->
        unknown a = false -> unknown b = false ->
        (dist a <=? dist b) = true).
Proof.
  intros sorted. subst sorted.
  split; [|split; [|split]].
  - rewrite sortConcessionsByDistanceImmediate_sort. apply sort_Permutation.
  - intros before a between b after E.
    apply (StronglySorted_pair unknown_last before a between b after).
    rewrite <- E. apply sorted_unknown_last.
  - rewrite sortConcessionsByDistanceImmediate_sort.
    apply sort_filter. exact pass_known.
  - intros Hnum before a between b after E.
    apply (StronglySorted_pair by_distance before a between b after).
    rewrite <- E. apply sorted_by_distance, Hnum.
Qed.



End Cards.

(** ** Distances on the page *)

(** X4. A card with no distance element, one still loading and one whose
    route failed all have an unknown distance, whatever [parseFloat] is. *)
Lemma extractDistanceValue_unknown (parseFloat : string -> float) :
  extractDistanceValue parseFloat None = infinity
  /\ extractDistanceValue parseFloat (Some ""%string) = infinity
  /\ extractDistanceValue parseFloat (Some text_loading) = infinity
  /\ extractDistanceValue parseFloat (Some text_failed) = infinity.
Proof. repeat split. Qed.

Example extractDistanceValue_km :
  extractDistanceValue JsString.parseFloat_short (Some " 12.5 KM "%string) = 12.5
  /\ extractDistanceValue JsString.parseFloat_short (Some "7km"%string) = 7
  /\ match_distance "12.5 KM" = Some "12.5"%string.
Proof. repeat split. Qed.

(** When [parseFloat] returns numbers, so does [extractDistanceValue]. *)
Lemma dist_is_number (parseFloat : string -> float) card :
  (forall s, is_nan (parseFloat s) = false) ->
  is_nan (Map.dist parseFloat card) = false.
Proof.
  intros H. unfold Map.dist, extractDistanceValue.
  destruct (distance_textContent card) as [t|]; [|reflexivity].
  destruct (JsString.falsy t); [reflexivity|].
  destruct (match_distance _); [apply H|reflexivity].
Qed.

(** Five cards as a batch of distances leaves them. *)
Definition cards_example : list Card :=
  [ {| element := 1; distance_textContent := Some "12.5 KM"%string |};
    {| element := 2; distance_textContent := Some text_failed |};
    {| element := 3; distance_textContent := Some "3.2 KM"%string |};
    {| element := 4; distance_textContent := None |};
    {| element := 5; distance_textContent := Some "7.0 KM"%string |} ].

Example sortConcessionsByDistanceImmediate_example :
  map element (sortConcessionsByDistanceImmediate JsString.parseFloat_short cards_example)
  = [3; 5; 1; 2; 4]%nat
  /\ forallb (fun card => negb (is_nan (Map.dist JsString.parseFloat_short card)))
       cards_example = true.
Proof. split; vm_compute; reflexivity. Qed.

End MapSortFacts.

(* ====================================================================== *)
(** * More facts about the order of JavaScript numbers *)
(* ====================================================================== *)

Module JsNumberOrderFacts.
Import JsNumberFacts.
Local Open Scope float_scope.

(** What is below is not above. *)
Lemma ltb_asym x y : (x <? y) = true -> (y <? x) = false.
Proof.
  rewrite !FloatAxioms.ltb_spec. unfold SFltb.
  rewrite (SFcompare_antisym (Prim2SF x) (Prim2SF y)).
  destruct (SFcompare (Prim2SF x) (Prim2SF y)) as [[]|]; simpl; congruence.
Qed.

(** Two numbers equal to a third are numbers, and neither is below the
    other. *)
Lemma eqb_not_ltb x y d :
  (x =? d) = true -> (y =? d) = true ->
  (x <? y) = false /\ is_nan x = false /\ is_nan y = false.
Proof.
  rewrite !FloatAxioms.eqb_spec, FloatAxioms.ltb_spec, !is_nan_spec.
  unfold SFeqb, SFltb.
  destruct (SFcompare (Prim2SF x) (Prim2SF d)) as [[]|] eqn:E1; try discriminate.
  destruct (SFcompare (Prim2SF y) (Prim2SF d)) as [[]|] eqn:E2; try discriminate.
  intros _ _.
  pose proof (SFcompare_antisym (Prim2SF x) (Prim2SF d)) as E3.
  rewrite E1 in E3. simpl in E3.
  destruct (SFcompare_trans _ _ _ _ _ E2 ltac:(discriminate) E3 ltac:(discriminate))
    as (c & Hc & Hn & _).
  rewrite (SFcompare_antisym (Prim2SF y) (Prim2SF x)), Hc.
  split; [destruct c; simpl; congruence|].
  split.
  - destruct (Prim2SF x); try reflexivity. discriminate E1.
  - destruct (Prim2SF y); try reflexivity. discriminate E2.
Qed.

(** A difference above zero is a number, and so are its operands. *)
Lemma sub_gt0_numbers x y :
  (0 <? x - y) = true -> is_nan x = false /\ is_nan y = false.
Proof.
  rewrite FloatAxioms.ltb_spec, FloatAxioms.sub_spec, !is_nan_spec.
  change (Prim2SF 0) with (S754_zero false).
  destruct (Prim2SF x) as [sx|sx| |sx mx ex], (Prim2SF y) as [sy|sy| |sy my ey];
    try (intros _; split; reflexivity);
    try destruct sx; try destruct sy; intros H; discriminate H.
Qed.

Lemma SFeqb_infinity_r x :
  SFeqb x (S754_infinity false) = true -> x = S754_infinity false.
Proof.
  destruct x as [[]|[]| |[] m e]; unfold SFeqb; simpl; intros H;
    solve [reflexivity | discriminate H].
Qed.

Lemma SFeqb_infinity_l d :
  SFeqb (S754_infinity false) d = true -> d = S754_infinity false.
Proof.
  destruct d as [[]|[]| |[] m e]; unfold SFeqb; simpl; intros H;
    solve [reflexivity | discriminate H].
Qed.

(** What equals a number that equals Infinity equals Infinity. *)
Lemma eqb_infinity x y d :
  (x =? d) = true -> (y =? d) = true -> (x =? infinity) = true ->
  (y =? infinity) = true.
Proof.
  rewrite !FloatAxioms.eqb_spec.
  change (Prim2SF infinity) with (S754_infinity false).
  intros Hx Hy Hi. apply SFeqb_infinity_r in Hi. rewrite Hi in Hx.
  apply SFeqb_infinity_l in Hx. rewrite Hx in Hy. exact Hy.
Qed.

End JsNumberOrderFacts.

(* ====================================================================== *)
(** * Facts about the classes of texts *)
(* ====================================================================== *)

Module JsStringClassesFacts.

Import JsString JsStringFacts JsStringClasses.
Local Open Scope string_scope.

Lemma digit_not_space c : isDigit c = true -> isWhiteSpace c = false.
Proof.
  unfold isDigit, isWhiteSpace.
  intros H. apply andb_prop in H as [H1 H2].
  apply N.leb_le in H1. apply N.leb_le in H2.
  repeat match goal with
  | |- context [(?a <=? ?b)%N] => destruct (N.leb_spec a b); try lia
  | |- context [(?a =? ?b)%N] => destruct (N.eqb_spec a b); try lia
  end; reflexivity.
Qed.

Lemma span_digits_app d rest :
  all_digits d = true ->
  match rest with String c _ => isDigit c | EmptyString => false end = false ->
  span isDigit (d ++ rest) = (d, rest).
Proof.
  intros Hd Hr. induction d as [|c d IH].
  - change ("" ++ rest) with rest.
    destruct rest as [|c rest]; [reflexivity|].
    cbn [span]. rewrite Hr. reflexivity.
  - cbn [all_digits] in Hd. apply andb_prop in Hd as [Hc Hd].
    change (String c d ++ rest) with (String c (d ++ rest)).
    cbn [span]. rewrite Hc, (IH Hd). reflexivity.
Qed.

Lemma has_digit_trimStart s :
  has_digit s = false -> has_digit (trimStart s) = false.
Proof.
  induction s as [|c s IH]; [reflexivity|].
  cbn [has_digit trimStart]. intros H.
  apply orb_false_elim in H as [Hc Hs].
  destruct (isWhiteSpace c); [apply IH, Hs|].
  cbn [has_digit]. rewrite Hc, Hs. reflexivity.
Qed.

Lemma has_digit_trimEnd s :
  has_digit s = false -> has_digit (trimEnd s) = false.
Proof.
  induction s as [|c s IH]; [reflexivity|].
  cbn [has_digit trimEnd]. intros H.
  apply orb_false_elim in H as [Hc Hs]. specialize (IH Hs).
  destruct (trimEnd s) as [|c' t].
  - destruct (isWhiteSpace c); [reflexivity|].
    cbn [has_digit]. rewrite Hc. reflexivity.
  - cbn [has_digit] in *. rewrite Hc. exact IH.
Qed.

Lemma has_digit_trim s : has_digit s = false -> has_digit (trim s) = false.
Proof. intros H. apply has_digit_trimEnd, has_digit_trimStart, H. Qed.

(** A text that ends on a character that is not white space loses nothing
    at its end. *)
Lemma trimEnd_app s c :
  isWhiteSpace c = false ->
  trimEnd (s ++ String c "") = s ++ String c "".
Proof.
  intros Hc. induction s as [|x s IH].
  - change ("" ++ String c "") with (String c "").
    cbn [trimEnd]. rewrite Hc. reflexivity.
  - change (String x s ++ String c "") with (String x (s ++ String c "")).
    cbn [trimEnd]. rewrite IH.
    destruct s; reflexivity.
Qed.

(** ** Trimming twice *)

Lemma trimEnd_idempotent s : trimEnd (trimEnd s) = trimEnd s.
Proof.
  induction s as [|c s IH]; [reflexivity|].
  cbn [trimEnd]. destruct (trimEnd s) as [|c' t] eqn:E.
  - destruct (isWhiteSpace c) eqn:Ec; [reflexivity|].
    cbn [trimEnd]. rewrite Ec. reflexivity.
  - cbn [trimEnd] in *. rewrite IH. reflexivity.
Qed.

(** [s] is empty or starts on a character that is not white space. *)
Definition trimmed_start (s : string) : Prop :=
  match s with
  | EmptyString => True
  | String c _ => isWhiteSpace c = false
  end.

Lemma trimStart_trimmed s : trimmed_start (trimStart s).
Proof.
  induction s as [|c s IH]; [exact I|].
  cbn [trimStart]. destruct (isWhiteSpace c) eqn:E; [exact IH|exact E].
Qed.

Lemma trimStart_fixed s : trimmed_start s -> trimStart s = s.
Proof. destruct s as [|c s]; [reflexivity|]. cbn. intros ->. reflexivity. Qed.

Lemma trimEnd_trimmed s : trimmed_start s -> trimmed_start (trimEnd s).
Proof.
  destruct s as [|c s]; [intros _; exact I|].
  cbn [trimmed_start trimEnd]. intros Hc.
  destruct (trimEnd s); [rewrite Hc|]; exact Hc.
Qed.

Lemma trim_idempotent s : trim (trim s) = trim s.
Proof.
  unfold trim.
  rewrite (trimStart_fixed (trimEnd (trimStart s)))
    by apply trimEnd_trimmed, trimStart_trimmed.
  apply trimEnd_idempotent.
Qed.

End JsStringClassesFacts.

(* ====================================================================== *)
(** * More facts about comparateur.ts *)
(* ====================================================================== *)

Module ComparateurSearchFacts.
Import JsNumber JsNumberFacts JsString JsStringClasses JsStringClassesFacts.
Import Comparateur ComparateurFacts ComparateurResult.
Local Open Scope float_scope.

(** What the scan holds is a vehicle it has seen, with its score. *)
Definition scan_holds (criteria : SearchCriteria) (seen : list Vehicle)
    (b : Best) : Prop :=
  match bestVehicle b with
  | Some vehicle =>
      In vehicle seen /\ bestScore b <> None
      /\ calculateScore vehicle criteria = bestScore b
  | None =>
      bestScore b = None
      /\ forall v, In v seen -> calculateScore v criteria = None
  end.

Lemma scan_step_holds criteria seen b vehicle :
  scan_holds criteria seen b ->
  scan_holds criteria (seen ++ [vehicle]) (scan_step criteria b vehicle).
Proof.
  unfold scan_holds, scan_step. intros H.
  destruct (calculateScore vehicle criteria) as [score|] eqn:Es.
  - destruct (bestVehicle b) as [best|] eqn:Eb.
    + destruct H as (Hin & Hs & Hc).
      destruct (bestScore b) as [bs|] eqn:Ebs; [|congruence].
      destruct (score <? bs); cbn [bestVehicle bestScore].
      * split; [apply in_or_app; right; left; reflexivity|].
        split; [discriminate|exact Es].
      * rewrite Eb, Ebs. split; [apply in_or_app; left; exact Hin|].
        split; [discriminate|exact Hc].
    + destruct H as (Hs & Hall). rewrite Hs. cbn [bestVehicle bestScore].
      split; [apply in_or_app; right; left; reflexivity|].
      split; [discriminate|exact Es].
  - destruct (bestVehicle b) as [best|] eqn:Eb.
    + destruct H as (Hin & Hs & Hc).
      split; [apply in_or_app; left; exact Hin|]. split; assumption.
    + destruct H as (Hs & Hall). split; [exact Hs|].
      intros v Hv. apply in_app_or in Hv as [Hv|[<-|[]]]; auto.
Qed.

Lemma scan_holds_all criteria vehicles :
  scan_holds criteria vehicles
    (scan criteria vehicles {| bestVehicle := None; bestScore := None |}).
Proof.
  induction vehicles as [|vehicle vehicles IH] using rev_ind.
  - split; [reflexivity|]. intros v [].
  - rewrite scan_app. apply scan_step_holds, IH.
Qed.

Lemma findBestMatchIn_sound vehicles criteria vehicle :
  findBestMatchIn vehicles criteria = Some vehicle ->
  In vehicle vehicles
  /\ c_type criteria = Some (type vehicle)
  /\ exists score, calculateScore vehicle criteria = Some score.
Proof.
  unfold findBestMatchIn. destruct (c_type criteria) as [t|] eqn:Et; [|discriminate].
  intros Hb. pose proof (scan_holds_all criteria vehicles) as H.
  unfold scan_holds in H. rewrite Hb in H. destruct H as (Hin & Hs & Hc).
  destruct (bestScore _) as [score|]; [|congruence].
  split; [exact Hin|]. split; [|exists score; exact Hc].
  rewrite <- Et. eapply calculateScore_type, Hc.
Qed.

Lemma findBestMatchIn_none vehicles criteria :
  findBestMatchIn vehicles criteria = None
  <-> forall v, In v vehicles -> calculateScore v criteria = None.
Proof.
  unfold findBestMatchIn. destruct (c_type criteria) as [t|] eqn:Et.
  - pose proof (scan_holds_all criteria vehicles) as H.
    unfold scan_holds in H.
    destruct (bestVehicle _) as [best|].
    + destruct H as (Hin & Hs & Hc). split; [discriminate|].
      intros Hall. rewrite (Hall best Hin) in Hc. congruence.
    + destruct H as (_ & Hall). split; [intros _; exact Hall|reflexivity].
  - split; [|reflexivity]. intros _ v _. unfold calculateScore. rewrite Et.
    reflexivity.
Qed.

(** X7. The vehicle [findBestMatch] returns is a vehicle of the catalog,
    of the type asked for, that [calculateScore] gave a score. *)
Theorem findBestMatch_sound (criteria : SearchCriteria) (vehicle : Vehicle) :
  findBestMatch criteria = Some vehicle ->
  In vehicle VEHICLES
  /\ c_type criteria = Some (type vehicle)
  /\ exists score, calculateScore vehicle criteria = Some score.
Proof. apply findBestMatchIn_sound. Qed.

Lemma findBestMatch_sound_witness :
  In deliver7 VEHICLES
  /\ c_type criteria_utilitaire_thermique_1300_9 = Some (type deliver7)
  /\ exists score,
       calculateScore deliver7 criteria_utilitaire_thermique_1300_9 = Some score.
Proof.
  apply (findBestMatch_sound criteria_utilitaire_thermique_1300_9 deliver7).
  vm_compute. reflexivity.
Defined.

Definition unscored (criteria : SearchCriteria) (vehicle : Vehicle) : bool :=
  match calculateScore vehicle criteria with None => true | Some _ => false end.

Lemma unscored_all vehicles criteria :
  (forall v, In v vehicles -> calculateScore v criteria = None)
  <-> forallb (unscored criteria) vehicles = true.
Proof.
  rewrite forallb_forall. unfold unscored.
  split; intros H v Hv; specialize (H v Hv);
    destruct (calculateScore v criteria); congruence.
Qed.

(** When no vehicle is found, on the catalog. *)
Lemma findBestMatch_none_iff (criteria : SearchCriteria) :
  findBestMatch criteria = None
  <-> match c_type criteria with
      | None => True
      | Some t =>
          c_charge criteria = None
          /\ (is_pickup t = true
              \/ (c_volume criteria = None /\ c_longueur criteria = None))
      end.
Proof.
  unfold findBestMatch. rewrite findBestMatchIn_none, unscored_all.
  destruct criteria as [[t|] [cc|] [cv|] [cl|]]; cbn [c_type c_charge c_volume c_longueur];
    try destruct t; vm_compute; intuition congruence.
Qed.

(** X8. [findBestMatch] returns no vehicle exactly when the type is
    unset, or the charge is unset and either the type is a pickup or both
    the volume and the length are unset: every pickup of the catalog has
    volume 0 and length 0, which [calculateScore] does not evaluate, while
    every type has a vehicle whose charge it evaluates. *)
Theorem findBestMatch_none (criteria : SearchCriteria) :
  findBestMatch criteria = None
  <-> match c_type criteria with
      | None => True
      | Some t =>
          c_charge criteria = None
          /\ (is_pickup t = true
              \/ (c_volume criteria = None /\ c_longueur criteria = None))
      end.
Proof. apply findBestMatch_none_iff. Qed.


(** ** The panel of the result *)

Lemma set_display_lookup vehicle value panels i :
  set_display vehicle value panels !! i
  = match panels !! i with
    | Some d => Some (if String.eqb i (id vehicle) then value else d)
    | None => None
    end.
Proof.
  unfold set_display.
  destruct (String.eqb_spec i (id vehicle)) as [->|Hne].
  - destruct (panels !! id vehicle) eqn:E.
    + rewrite lookup_insert_eq. reflexivity.
    + rewrite E. reflexivity.
  - destruct (panels !! id vehicle) eqn:E.
    + rewrite lookup_insert_ne by congruence.
      destruct (panels !! i); reflexivity.
    + destruct (panels !! i); reflexivity.
Qed.

Lemma hide_all_lookup vehicles : forall panels i,
  hide_all vehicles panels !! i
  = match panels !! i with
    | Some d =>
        Some (if existsb (fun vehicle => String.eqb i (id vehicle)) vehicles
              then "none"%string else d)
    | None => None
    end.
Proof.
  induction vehicles as [|vehicle vehicles IH]; intros panels i.
  - cbn. destruct (panels !! i); reflexivity.
  - cbn [hide_all fold_left existsb].
    change (fold_left _ vehicles ?p) with (hide_all vehicles p).
    rewrite IH, set_display_lookup.
    destruct (panels !! i) as [d|]; [|reflexivity].
    destruct (String.eqb i (id vehicle)); cbn [orb]; [|reflexivity].
    destruct (existsb _ vehicles); reflexivity.
Qed.

(** The ids of the catalog tell its vehicles apart. *)
Lemma VEHICLES_id_inj v w :
  In v VEHICLES -> In w VEHICLES -> id v = id w -> v = w.
Proof.
  intros Hv Hw. cbn in Hv, Hw.
  repeat (destruct Hv as [<-|Hv]; [|]); try contradiction;
    repeat (destruct Hw as [<-|Hw]; [|]); try contradiction;
    solve [reflexivity | intros H; discriminate H].
Qed.

Lemma existsb_id_In vehicles vehicle :
  In vehicle vehicles ->
  existsb (fun v => String.eqb (id vehicle) (id v)) vehicles = true.
Proof.
  intros H. apply existsb_exists. exists vehicle.
  split; [exact H|apply String.eqb_refl].
Qed.

Lemma existsb_id_not_In vehicles i :
  ~ In i (map id vehicles) ->
  existsb (fun v => String.eqb i (id v)) vehicles = false.
Proof.
  intros H. apply not_true_is_false. intros E.
  apply existsb_exists in E as (v & Hv & E). apply String.eqb_eq in E.
  apply H. subst i. apply in_map, Hv.
Qed.

(** X11. After a click on the trigger of step 2: when [findBestMatch]
    finds a vehicle, it is a vehicle of the catalog, the panel of every
    vehicle of the catalog that has one is displayed 'flex' if it is the
    panel of that vehicle and 'none' otherwise, the ids of the catalog tell
    the vehicles apart, and no other panel is touched or made; when it finds
    none, the panels are left as they were. *)
Theorem step2_click_shows_best
    (parseFloat : string -> float) (d : Dropdowns) (panels : Panels) :
  let panels' := step2_click parseFloat d panels in
  match findBestMatch (getSearchCriteria parseFloat d) with
  | Some best =>
      In best VEHICLES
      /\ (forall vehicle display,
            In vehicle VEHICLES -> panels !! id vehicle = Some display ->
            panels' !! id vehicle
            = Some (if String.eqb (id vehicle) (id best)
                    then "flex" else "none")%string
            /\ (id vehicle = id best <-> vehicle = best))
      /\ (forall i, ~ In i (map id VEHICLES) -> panels' !! i = panels !! i)
      /\ (forall i, panels !! i = None -> panels' !! i = None)
  | None => panels' = panels
  end.
Proof.
  cbv zeta. unfold step2_click.
  destruct (findBestMatch (getSearchCriteria parseFloat d)) as [best|] eqn:Eb;
    [|reflexivity].
  destruct (findBestMatchIn_sound _ _ _ Eb) as (Hin & _).
  unfold show_best.
  split; [exact Hin|]. split; [|split].
  - intros vehicle display Hv Hp.
    rewrite set_display_lookup, hide_all_lookup, Hp.
    rewrite (existsb_id_In _ _ Hv). split.
    + destruct (String.eqb (id vehicle) (id best)); reflexivity.
    + split; [apply VEHICLES_id_inj; assumption|congruence].
  - intros i Hi. rewrite set_display_lookup, hide_all_lookup.
    rewrite (existsb_id_not_In _ _ Hi).
    destruct (panels !! i) as [display|]; [|reflexivity].
    destruct (String.eqb_spec i (id best)) as [->|]; [|reflexivity].
    exfalso. apply Hi, in_map, Hin.
  - intros i Hi. rewrite set_display_lookup, hide_all_lookup, Hi. reflexivity.
Qed.

(** ** The numbers [extractNumber] reads *)

Local Open Scope string_scope.

Lemma match_number_here_none s :
  starts_with_digit s = false -> match_number_here s = None.
Proof.
  destruct s as [|c s]; [reflexivity|]. cbn [starts_with_digit]. intros Hc.
  unfold match_number_here. cbn [span]. rewrite Hc. reflexivity.
Qed.

Lemma match_number_here_some s :
  starts_with_digit s = true -> exists m, match_number_here s = Some m.
Proof.
  destruct s as [|c s]; [discriminate|]. cbn [starts_with_digit]. intros Hc.
  unfold match_number_here. cbn [span]. rewrite Hc.
  destruct (span isDigit s) as [pre rest]. cbn [falsy].
  destruct rest as [|c' r2]; [eauto|].
  destruct (isSeparator c'); [|eauto].
  destruct (span isDigit r2). eauto.
Qed.

Lemma match_number_head s m :
  match_number_here s = Some m -> match_number s = Some m.
Proof. destruct s; cbn [match_number]; intros ->; reflexivity. Qed.

Lemma match_number_none s : match_number s = None <-> has_digit s = false.
Proof.
  induction s as [|c s IH]; [split; reflexivity|].
  cbn [match_number has_digit].
  destruct (isDigit c) eqn:Ec.
  - destruct (match_number_here_some (String c s) Ec) as [m ->].
    split; discriminate.
  - rewrite (match_number_here_none (String c s) Ec). exact IH.
Qed.

Lemma match_number_skip p s :
  has_digit p = false -> match_number (p ++ s) = match_number s.
Proof.
  induction p as [|c p IH]; [reflexivity|].
  cbn [has_digit]. intros H. apply orb_false_elim in H as [Hc Hp].
  change (String c p ++ s) with (String c (p ++ s)). cbn [match_number].
  rewrite (match_number_here_none (String c (p ++ s)) Hc). apply IH, Hp.
Qed.

Lemma strip_digits d rest :
  all_digits d = true ->
  strip_spaces_commas (d ++ rest) = d ++ strip_spaces_commas rest.
Proof.
  induction d as [|c d IH]; [reflexivity|].
  cbn [all_digits]. intros H. apply andb_prop in H as [Hc Hd].
  change (String c d ++ rest) with (String c (d ++ rest)).
  cbn [strip_spaces_commas]. rewrite (digit_kept c Hc), (IH Hd). reflexivity.
Qed.

Lemma strip_all_digits d :
  all_digits d = true -> strip_spaces_commas d = d.
Proof.
  induction d as [|c d IH]; [reflexivity|].
  cbn [all_digits]. intros H. apply andb_prop in H as [Hc Hd].
  cbn [strip_spaces_commas]. rewrite (digit_kept c Hc), (IH Hd). reflexivity.
Qed.

Lemma separator_not_digit c : isSeparator c = true -> isDigit c = false.
Proof.
  unfold isSeparator, isWhiteSpace, isDigit.
  repeat match goal with
  | |- context [(?a <=? ?b)%N] => destruct (N.leb_spec a b); try lia
  | |- context [(?a =? ?b)%N] => destruct (N.eqb_spec a b); try lia
  end; cbn; congruence.
Qed.

(** X9. [extractNumber] returns null exactly on a text that holds no
    digit. *)
Theorem extractNumber_none (parseFloat : string -> float) (text : string) :
  extractNumber parseFloat text = None <-> has_digit text = false.
Proof.
  unfold extractNumber. rewrite <- match_number_none.
  destruct (match_number text); split; congruence.
Qed.

Lemma read_number_none parseFloat dropdown :
  read_number parseFloat dropdown = None <-> holds_digit dropdown = false.
Proof.
  unfold read_number, holds_digit, extractNumber.
  destruct dropdown as [textContent|]; [|tauto].
  rewrite <- match_number_none.
  destruct textContent as [|c textContent]; [cbn; tauto|].
  cbn [falsy]. destruct (match_number (String c textContent));
    split; congruence.
Qed.

(** X28. The comparator end to end: the click on the trigger of step 2
    finds no vehicle exactly when [getType] does not recognise the text of
    the type, or the text of the charge holds no digit and either the type
    is a pickup or neither the text of the volume nor the text of the length
    holds a digit. *)
Theorem comparator_finds_none
    (parseFloat : string -> float) (d : Dropdowns) :
  findBestMatch (getSearchCriteria parseFloat d) = None
  <-> match getType d with
      | None => True
      | Some t =>
          holds_digit (chargeSelect d) = false
          /\ (is_pickup t = true
              \/ (holds_digit (volumeSelect d) = false
                  /\ holds_digit (longueurSelect d) = false))
      end.
Proof.
  rewrite findBestMatch_none_iff. unfold getSearchCriteria.
  cbn [c_type c_charge c_volume c_longueur].
  destruct (getType d) as [t|]; [|tauto].
  rewrite !read_number_none. tauto.
Qed.

(** X10. On a text whose first digits [d1] are followed by one separator
    and the digits [d2], [extractNumber] reads the two runs joined: a white
    space or a comma between them is dropped, so that '1 000' reads as 1000
    and '7,2' as 72, and a dot is kept. *)
Theorem extractNumber_separator
    (parseFloat : string -> float) (before d1 d2 rest : string) (c : ascii) :
  has_digit before = false ->
  all_digits d1 = true -> d1 <> "" ->
  isSeparator c = true ->
  all_digits d2 = true ->
  starts_with_digit rest = false ->
  extractNumber parseFloat (before ++ d1 ++ String c (d2 ++ rest))
  = Some (parseFloat (if (code c =? 46)%N then d1 ++ String c d2
                      else d1 ++ d2)).
Proof.
  intros Hb H1 Hn Hc H2 Hr. unfold extractNumber.
  rewrite (match_number_skip _ _ Hb).
  assert (Hm : match_number_here (d1 ++ String c (d2 ++ rest))
               = Some (d1 ++ String c d2)).
  { unfold match_number_here.
    rewrite (span_digits_app d1 _ H1) by (apply separator_not_digit, Hc).
    destruct d1 as [|c1 d1]; [congruence|]. cbn [falsy].
    rewrite Hc, (span_digits_app d2 rest H2); [reflexivity|].
    destruct rest; [reflexivity|exact Hr]. }
  rewrite (match_number_head _ _ Hm). f_equal. f_equal.
  rewrite (strip_digits d1 _ H1). cbn [strip_spaces_commas].
  rewrite (strip_all_digits d2 H2).
  unfold isSeparator in Hc.
  destruct (code c =? 46)%N eqn:E46.
  - apply N.eqb_eq in E46.
    assert (isWhiteSpace c || (code c =? 44)%N = false) as ->; [|reflexivity].
    unfold isWhiteSpace. rewrite E46. reflexivity.
  - rewrite orb_false_r in Hc. rewrite Hc. reflexivity.
Qed.

Lemma extractNumber_separator_witness :
  extractNumber parseFloat_digits
    ("Jusque " ++ "1" ++ String " " ("000" ++ " kg"))
  = Some (parseFloat_digits "1000")
  /\ extractNumber parseFloat_digits
       ("" ++ "7" ++ String "," ("2" ++ " m3"))
     = Some (parseFloat_digits "72").
Proof.
  split.
  - apply (extractNumber_separator parseFloat_digits "Jusque " "1" "000" " kg" " ");
      solve [reflexivity | discriminate].
  - apply (extractNumber_separator parseFloat_digits "" "7" "2" " m3" ",");
      solve [reflexivity | discriminate].
Defined.

End ComparateurSearchFacts.

(* ====================================================================== *)
(** * Facts about the autocompletion *)
(* ====================================================================== *)

Module AutocompleteFacts.

Import JsString JsStringFacts Autocomplete.
Local Open Scope string_scope.
Local Open Scope Z_scope.

(** The highlight is on a suggestion of the list, or on none. *)
Definition in_range (s : Selection) : Prop :=
  -1 <= selectedIndex s <= Z.of_nat (length (currentSuggestions s)) - 1.

Lemma in_range_step s e : in_range s -> in_range (selection_step s e).
Proof.
  unfold in_range. intros H. destruct e as [suggestions|key]; cbn.
  - lia.
  - unfold keydown.
    destruct (negb _ || _) eqn:E; [exact H|].
    apply orb_false_elim in E as [_ E]. apply Nat.eqb_neq in E.
    destruct key; cbn; lia.
Qed.

Lemma in_range_run events : forall s,
  in_range s -> in_range (selection_run events s).
Proof.
  induction events as [|e events IH]; intros s H; [exact H|].
  apply IH, in_range_step, H.
Qed.

(** X13. Whatever suggestions arrive and whatever keys are pressed, in
    any order, [selectedIndex] stays between -1 and the index of the last
    suggestion: it is -1, and Enter takes no suggestion, or it is the index
    of a suggestion of the list, the one Enter takes. *)
Theorem selectedIndex_in_range (events : list SelectionEvent) :
  let s := selection_run events selection0 in
  -1 <= selectedIndex s <= Z.of_nat (length (currentSuggestions s)) - 1
  /\ (selectedIndex s = -1 /\ selected s = None
      \/ exists suggestion,
           nth_error (currentSuggestions s) (Z.to_nat (selectedIndex s))
             = Some suggestion
           /\ selected s = Some suggestion).
Proof.
  cbv zeta. pose proof (in_range_run events selection0) as H.
  unfold in_range in H. specialize (H ltac:(cbn; lia)).
  split; [exact H|]. unfold selected.
  set (s := selection_run events selection0) in *.
  destruct (Z.eq_dec (selectedIndex s) (-1)) as [E|E].
  - left. split; [exact E|]. rewrite E. reflexivity.
  - right.
    destruct (nth_error (currentSuggestions s) (Z.to_nat (selectedIndex s)))
      as [suggestion|] eqn:En.
    + exists suggestion. split; [reflexivity|].
      destruct (Z.leb_spec 0 (selectedIndex s)); [|lia].
      destruct (Z.ltb_spec (selectedIndex s)
                  (Z.of_nat (length (currentSuggestions s)))); [|lia].
      reflexivity.
    + apply nth_error_None in En. lia.
Qed.

Lemma ArrowDown_iter suggestions s0 (k : nat) :
  Nat.iter k (keydown ArrowDown) (suggestions_arrive suggestions s0)
  = {| suggestionsContainer := true; currentSuggestions := suggestions;
       selectedIndex :=
         Z.min (Z.of_nat k) (Z.of_nat (length suggestions)) - 1 |}.
Proof.
  induction k as [|k IH].
  - cbn [Nat.iter nat_rect]. unfold suggestions_arrive. f_equal. lia.
  - rewrite Nat.iter_succ, IH. unfold keydown.
    cbn [suggestionsContainer currentSuggestions selectedIndex negb orb].
    destruct (Nat.eqb_spec (length suggestions) 0) as [E|E]; f_equal; lia.
Qed.

Lemma ArrowUp_iter suggestions index (k : nat) :
  (length suggestions = 0%nat -> index = -1) -> -1 <= index ->
  Nat.iter k (keydown ArrowUp)
    {| suggestionsContainer := true; currentSuggestions := suggestions;
       selectedIndex := index |}
  = {| suggestionsContainer := true; currentSuggestions := suggestions;
       selectedIndex := Z.max (index - Z.of_nat k) (-1) |}.
Proof.
  intros H0 H1. induction k as [|k IH].
  - cbn [Nat.iter nat_rect]. f_equal. lia.
  - rewrite Nat.iter_succ, IH. unfold keydown.
    cbn [suggestionsContainer currentSuggestions selectedIndex negb orb].
    destruct (Nat.eqb_spec (length suggestions) 0) as [E|E]; f_equal; lia.
Qed.

(** X14. After suggestions arrive, [down] presses of ArrowDown followed
    by [up] presses of ArrowUp leave the highlight on the index
    max(min(down, length) - 1 - up, -1): it stops on the last suggestion on
    the way down and on none on the way up, and the list is not changed. *)
Theorem arrows_select (suggestions : list Geocoding.AddressSuggestion)
    (s0 : Selection) (down up : nat) :
  let s := Nat.iter up (keydown ArrowUp)
             (Nat.iter down (keydown ArrowDown)
                (suggestions_arrive suggestions s0)) in
  selectedIndex s
  = Z.max (Z.min (Z.of_nat down) (Z.of_nat (length suggestions)) - 1
           - Z.of_nat up) (-1)
  /\ currentSuggestions s = suggestions.
Proof.
  cbv zeta. rewrite ArrowDown_iter, ArrowUp_iter by lia.
  split; reflexivity.
Qed.

(** ** The debounce *)

(** The state in the middle of a burst: one timer pending, for the last
    text, and no search made yet. *)
Definition waiting (timer : nat) (t : Z) (query : string)
    (searched : list (Z * string)) : Typing :=
  {| debounceTimeout := Some timer;
     pending := [(timer, (t + 300, query))];
     next_timer := S timer; clock := t; searches := searched |}.

Lemma typing_step_waiting timer t query searched t' value :
  t <= t' < t + 300 ->
  typing_step (waiting timer t query searched) (t', value)
  = waiting (S timer) t' (trim value) searched.
Proof.
  intros H. unfold typing_step, typing_advance, waiting. cbn.
  destruct (Z.leb_spec (t + 300) t'); [lia|]. cbn.
  unfold input_listener, clearTimeout. cbn.
  rewrite Nat.eqb_refl. cbn. rewrite Z.max_r by lia. reflexivity.
Qed.

Lemma typing_step_first t value :
  0 <= t ->
  typing_step typing0 (t, value) = waiting 1 t (trim value) [].
Proof.
  intros H. unfold typing_step, typing_advance, typing0, waiting, input_listener. cbn.
  rewrite Z.max_r by lia. reflexivity.
Qed.

Lemma advance_waiting timer t query searched :
  typing_advance (t + 300) (waiting timer t query searched)
  = {| debounceTimeout := Some timer; pending := [];
       next_timer := S timer; clock := t + 300;
       searches := searched ++ [(t + 300, query)] |}.
Proof.
  unfold typing_advance, waiting. cbn.
  destruct (Z.leb_spec (t + 300) (t + 300)); [|lia]. cbn.
  rewrite Z.max_l by lia. reflexivity.
Qed.

Lemma last_cons {A} (a : A) l : forall d, List.last (a :: l) d = List.last l a.
Proof.
  revert a. induction l as [|b l IH]; intros a d; [reflexivity|].
  change (List.last (a :: b :: l) d) with (List.last (b :: l) d).
  rewrite !IH. reflexivity.
Qed.

Lemma typing_run_burst events : forall timer t value searched,
  burst t events ->
  exists timer',
    typing_run events (waiting timer t (trim value) searched)
    = waiting timer' (fst (List.last events (t, value)))
        (trim (snd (List.last events (t, value)))) searched.
Proof.
  induction events as [|[t' value'] events IH];
    intros timer t value searched Hb.
  - exists timer. reflexivity.
  - destruct Hb as [Ht Hb]. cbn [typing_run fold_left].
    rewrite typing_step_waiting by exact Ht.
    destruct (IH (S timer) t' value' searched Hb) as [timer' E].
    exists timer'. unfold typing_run in E. rewrite E, last_cons. reflexivity.
Qed.

Lemma searchSuggestions_requests_one fetch query :
  (length (searchSuggestions_requests fetch query) <= 1)%nat.
Proof.
  unfold searchSuggestions_requests, Geocoding.suggestions_for.
  destruct (_ <? _)%nat; [cbn; lia|].
  destruct (_ || _); cbn; lia.
Qed.

(** X15. The [input] listener debounces: of a burst of [input] events,
    each less than 300 ms after the one before, no search is made while the
    burst lasts, and exactly one call of [searchSuggestions] is made, 300 ms
    after the last event, with the trimmed text of the last event; no timer
    is left, and at most one request has gone to the geocoding service. *)
Theorem typing_burst_one_search
    (fetch : Geocoding.Url -> Geocoding.Response)
    (t : Z) (value : string) (events : list (Z * string)) :
  0 <= t -> burst t events ->
  let s := typing_run ((t, value) :: events) typing0 in
  let e := List.last events (t, value) in
  searches s = []
  /\ searches (typing_advance (fst e + 300) s) = [(fst e + 300, trim (snd e))]
  /\ pending (typing_advance (fst e + 300) s) = []
  /\ (length (requests fetch (typing_advance (fst e + 300) s)) <= 1)%nat.
Proof.
  intros Ht Hb. cbv zeta. cbn [typing_run fold_left].
  rewrite typing_step_first by exact Ht.
  destruct (typing_run_burst events 1%nat t value [] Hb) as [timer E].
  unfold typing_run in E. rewrite E, advance_waiting. clear E.
  split; [reflexivity|]. split; [reflexivity|]. split; [reflexivity|].
  unfold requests. cbn [searches app map concat snd].
  rewrite app_nil_r. apply searchSuggestions_requests_one.
Qed.

Lemma typing_burst_one_search_witness :
  let s := typing_run [(0, "L"); (120, "Ly"); (250, "Lyo"); (400, "Lyon ")]
             typing0 in
  let e := List.last [(120, "Ly"); (250, "Lyo"); (400, "Lyon ")] (0, "L") in
  searches s = []
  /\ searches (typing_advance (fst e + 300) s) = [(fst e + 300, trim (snd e))]
  /\ pending (typing_advance (fst e + 300) s) = []
  /\ (length (requests (fun _ => Geocoding.fetch_rejects)
                 (typing_advance (fst e + 300) s)) <= 1)%nat.
Proof.
  apply (typing_burst_one_search (fun _ => Geocoding.fetch_rejects) 0 "L"
           [(120, "Ly"); (250, "Lyo"); (400, "Lyon ")]).
  - lia.
  - cbn. lia.
Defined.

End AutocompleteFacts.

(* ====================================================================== *)
(** * Facts about locating an address *)
(* ====================================================================== *)

Module MapAddressFacts.

Import JsString JsStringFacts Geocoding MapAddress.
Local Open Scope string_scope.

Lemma test_digits_5_spec s : test_digits_5 s = true <-> is_5_digits s.
Proof.
  unfold test_digits_5, is_5_digits. split.
  - destruct (digits_upto 5 s) as [k rest] eqn:E. intros H.
    apply andb_prop in H as [Hk Hr]. apply falsy_true in Hr. subst rest.
    apply Nat.eqb_eq in Hk.
    destruct (digits_upto_end 5 s k E) as (Hl & Hk5 & Hd).
    split; [lia|]. eapply List.Forall_impl; [|exact Hd].
    intros c. apply isDigit_spec.
  - intros [Hl Hd]. rewrite digits_upto_all; [|lia|].
    + rewrite Hl. reflexivity.
    + eapply List.Forall_impl; [|exact Hd]. intros c. apply isDigit_spec.
Qed.

Lemma is_5_digits_nonempty s : is_5_digits s -> s <> "".
Proof. intros [H _] ->. discriminate H. Qed.

Lemma geocodeAddress_unfold fetch address :
  JsString16.trim address <> [] ->
  geocodeAddress fetch address
  = match JsString16.encodeURIComponent (JsString16.trim address) with
    | None => ([], inl URIError)
    | Some search =>
        ([geocode_url search
            (if JsString16.test_digits_5 (JsString16.trim address)
             then types_postcode else types_general)],
         snd (geocodeAddress fetch address))
    end.
Proof.
  intros H. unfold geocodeAddress.
  destruct (JsString16.trim address) as [|u s] eqn:E; [congruence|].
  cbn [JsString16.falsy].
  destruct (JsString16.encodeURIComponent (u :: s)); reflexivity.
Qed.

Lemma geocodeAddress_requests fetch address search :
  JsString16.trim address <> [] ->
  JsString16.encodeURIComponent (JsString16.trim address) = Some search ->
  fst (geocodeAddress fetch address)
  = [geocode_url search
       (if JsString16.test_digits_5 (JsString16.trim address)
        then types_postcode else types_general)].
Proof.
  intros H E. rewrite geocodeAddress_unfold by exact H. rewrite E.
  reflexivity.
Qed.

Lemma made_of_5_digits_nonempty s : made_of_5_digits s -> s <> [].
Proof. intros [H _] ->. discriminate H. Qed.

(** On an address of code units 0 to 255 [geocodeAddress] makes the
    request of [geocode_request]. *)
Lemma geocodeAddress_of_string fetch address :
  trim address <> "" ->
  fst (geocodeAddress fetch (JsString16.of_string address))
  = [geocode_request (trim address)
       (if test_digits_5 (trim address) then types_postcode else types_general)].
Proof.
  intros H.
  rewrite (geocodeAddress_requests fetch _
             (encodeURIComponent (trim address))).
  - rewrite JsString16Facts.trim_of_string,
      JsString16Facts.test_digits_5_of_string. reflexivity.
  - rewrite JsString16Facts.trim_of_string.
    destruct (trim address); [congruence|discriminate].
  - rewrite JsString16Facts.trim_of_string.
    apply JsString16Facts.encodeURIComponent_of_string.
Qed.

(** X12. [geocodeAddress], with [cleanAddress] the trimmed address:
    an empty [cleanAddress] throws 'Adresse vide' without a request; one
    that holds a surrogate without its partner throws the URIError of
    [encodeURIComponent], without a request either; five digits make one
    request, limited to one result, for the types
    'postcode,place,locality,address'; any other well-formed text makes one
    for 'place,locality,neighborhood,address'. So on 2 to 4 digits the
    autocompletion asks for postcodes and the geocoding does not. The
    coordinates returned are the centre of the first feature of a response
    that is ok. *)
Theorem geocodeAddress_request
    (fetch : Url -> Response) (address : list JsString16.CodeUnit) :
  let cleanAddress := JsString16.trim address in
  (cleanAddress = [] ->
     geocodeAddress fetch address = ([], inl Adresse_vide))
  /\ (cleanAddress <> [] -> JsString16.isWellFormed cleanAddress = false ->
     geocodeAddress fetch address = ([], inl URIError))
  /\ (made_of_5_digits cleanAddress ->
     fst (geocodeAddress fetch address)
       = [geocode_url (JsString16.latin1 cleanAddress) types_postcode])
  /\ (cleanAddress <> [] -> ~ made_of_5_digits cleanAddress ->
     JsString16.isWellFormed cleanAddress = true ->
     exists search,
       JsString16.encodeURIComponent cleanAddress = Some search
       /\ fst (geocodeAddress fetch address)
           = [geocode_url search types_general])
  /\ (made_of_2_to_5_digits cleanAddress -> ~ made_of_5_digits cleanAddress ->
     fst (Map.getAddressSuggestions fetch address)
       = [suggestions_url "fr" (JsString16.latin1 cleanAddress) types_postcode]
     /\ fst (geocodeAddress fetch address)
       = [geocode_url (JsString16.latin1 cleanAddress) types_general])
  /\ (forall coordinates,
        snd (geocodeAddress fetch address) = inr coordinates ->
        exists search feature features,
          JsString16.encodeURIComponent cleanAddress = Some search
          /\ fetch (geocode_url search
                      (if JsString16.test_digits_5 cleanAddress
                       then types_postcode else types_general))
              = fetch_resolves true (json_data (Some (feature :: features)))
          /\ coordinates = center feature).
Proof.
  cbv zeta. split; [|split; [|split; [|split; [|split]]]].
  - intros H. unfold geocodeAddress. rewrite H. reflexivity.
  - intros Hn Hw. rewrite geocodeAddress_unfold by exact Hn.
    apply JsString16Facts.encodeURIComponent_throws in Hw. rewrite Hw.
    reflexivity.
  - intros H.
    rewrite (geocodeAddress_requests fetch address
               (JsString16.latin1 (JsString16.trim address)))
      by (apply made_of_5_digits_nonempty, H
          || apply JsString16Facts.encodeURIComponent_digits, H).
    apply JsString16Facts.test_digits16_5_spec in H. rewrite H. reflexivity.
  - intros Hn H Hw.
    destruct (JsString16Facts.encodeURIComponent_well_formed _ Hw)
      as [search E].
    exists search. split; [exact E|].
    rewrite (geocodeAddress_requests fetch address search Hn E).
    destruct (JsString16.test_digits_5 (JsString16.trim address)) eqn:Et;
      [|reflexivity].
    apply JsString16Facts.test_digits16_5_spec in Et. contradiction.
  - intros H2 H5.
    assert (Ht : JsString16.test_digits_2_5 (JsString16.trim address) = true)
      by (apply JsString16Facts.test_digits16_2_5_spec, H2).
    destruct H2 as [Hl Hd].
    pose proof (JsString16Facts.encodeURIComponent_digits _ Hd) as E.
    split.
    + unfold Map.getAddressSuggestions.
      rewrite (GeocodingFacts.getAddressSuggestions_requests "fr" fetch
                 address _ (proj1 Hl) E).
      rewrite Ht. reflexivity.
    + rewrite (geocodeAddress_requests fetch address
                 (JsString16.latin1 (JsString16.trim address))); [| |exact E].
      * destruct (JsString16.test_digits_5 (JsString16.trim address)) eqn:Et;
          [|reflexivity].
        apply JsString16Facts.test_digits16_5_spec in Et. contradiction.
      * intros E0. rewrite E0 in Hl. cbn in Hl. lia.
  - intros coordinates. unfold geocodeAddress.
    destruct (JsString16.falsy (JsString16.trim address)); [discriminate|].
    destruct (JsString16.encodeURIComponent (JsString16.trim address))
      as [search|]; [|discriminate].
    cbn [snd].
    destruct (fetch _) as [|ok body] eqn:Ef; [discriminate|].
    destruct ok; cbn [negb]; [|discriminate].
    destruct body as [|[[|feature features]|]]; try discriminate.
    destruct (center feature) as [longitude latitude] eqn:Ec.
    intros [= <-]. exists search, feature, features.
    split; [reflexivity|]. split; [exact Ef|].
    symmetry. exact Ec.
Qed.

End MapAddressFacts.

(* ====================================================================== *)
(** * More facts about concessionCta.ts *)
(* ====================================================================== *)

Module ConcessionCtaStorageFacts.

Import JsString JsStringFacts ConcessionCta ConcessionCtaStorage.
Local Open Scope string_scope.

(** X17. [navigateToConcessions] never reloads: a pathname holds no '#',
    so it cannot be '/concessions#scroll', and the navigation is always
    [location.assign('/concessions#scroll')]. *)
Theorem navigateToConcessions_assigns (page : Page) :
  ~ In "#"%char (list_ascii_of_string (pathname page)) ->
  navigateToConcessions page = [location_assign "/concessions#scroll"].
Proof.
  intros H. unfold navigateToConcessions.
  destruct (String.eqb_spec (pathname page) "/concessions#scroll") as [E|E];
    [|reflexivity].
  exfalso. apply H. rewrite E. cbn. tauto.
Qed.

Definition page_concessions : Page :=
  {| pathname := "/concessions"; input_value := "Lyon"; has_input := true;
     has_searchButton := true; has_geolocateButton := true;
     has_suggestionsContainer := false; currentSuggestions := [];
     selectedIndex := -1 |}.

Lemma navigateToConcessions_assigns_witness :
  navigateToConcessions page_concessions
  = [location_assign "/concessions#scroll"].
Proof.
  apply (navigateToConcessions_assigns page_concessions).
  cbn. intros H. decompose [or] H; try discriminate; contradiction.
Defined.

(** X16. On the call-to-action, Enter with a suggestion highlighted
    reaches two listeners: the one of the autocompletion stores the intent
    of the suggestion, then the one [initConcessionCta] binds clicks the
    search button, which stores the intent of the text typed in the input.
    When that text is not blank, the value left in storage is the intent of
    the typed text, not of the suggestion. *)
Theorem Enter_on_suggestion_overwritten
    (page : Page) (suggestion : Geocoding.AddressSuggestion)
    (storage : gmap string string) :
  has_input page = true ->
  has_searchButton page = true ->
  has_suggestionsContainer page = true ->
  (0 <= selectedIndex page)%Z ->
  nth_error (currentSuggestions page) (Z.to_nat (selectedIndex page))
    = Some suggestion ->
  trim (Geocoding.place_name suggestion) <> "" ->
  trim (input_value page) <> "" ->
  handle page Enter_pressed
  = ((localStorage_setItem "concessionIntent"
       (address_intent (Geocoding.place_name suggestion))
     :: navigateToConcessions page)
    ++ (localStorage_setItem "concessionIntent"
          (address_intent (trim (input_value page)))
        :: navigateToConcessions page))%list
  /\ stored (handle page Enter_pressed) storage !! "concessionIntent"
     = Some (address_intent (trim (input_value page))).
Proof.
  intros Hi Hb Hc H0 Hn Hs Hv.
  assert (E : handle page Enter_pressed
    = ((localStorage_setItem "concessionIntent"
         (address_intent (Geocoding.place_name suggestion))
       :: navigateToConcessions page)
      ++ (localStorage_setItem "concessionIntent"
            (address_intent (trim (input_value page)))
          :: navigateToConcessions page))%list).
  { cbn [handle]. rewrite Hi, Hb. cbn [andb].
    unfold autocomplete_keydown_Enter. rewrite Hc. cbn [negb orb].
    assert (Hlen : (Z.to_nat (selectedIndex page)
                    < length (currentSuggestions page))%nat).
    { apply nth_error_Some. congruence. }
    destruct (Nat.eqb_spec (length (currentSuggestions page)) 0); [lia|].
    destruct (Z.leb_spec 0 (selectedIndex page)); [|lia].
    destruct (Z.ltb_spec (selectedIndex page)
                (Z.of_nat (length (currentSuggestions page)))); [|lia].
    cbn [andb]. rewrite Hn. unfold performSearch, searchButton_click.
    apply falsy_false in Hs. rewrite Hs.
    assert (Hf : falsy (input_value page) = false).
    { destruct (input_value page); [exfalso; apply Hv; reflexivity|reflexivity]. }
    rewrite Hf. apply falsy_false in Hv. rewrite Hv. reflexivity. }
  split; [exact E|]. rewrite E. unfold stored, navigateToConcessions.
  destruct (String.eqb _ _); cbn; apply lookup_insert_eq.
Qed.

Definition suggestion_Lyon : Geocoding.AddressSuggestion :=
  {| Geocoding.id := "place.1"; Geocoding.place_name := "Lyon, France";
     Geocoding.center := (4.835%float, 45.758%float);
     Geocoding.text := "Lyon" |}.

Definition page_Ly : Page :=
  {| pathname := "/"; input_value := "Ly"; has_input := true;
     has_searchButton := true; has_geolocateButton := true;
     has_suggestionsContainer := true; currentSuggestions := [suggestion_Lyon];
     selectedIndex := 0 |}.

Lemma Enter_on_suggestion_overwritten_witness :
  handle page_Ly Enter_pressed
  = ((localStorage_setItem "concessionIntent"
       (address_intent (Geocoding.place_name suggestion_Lyon))
     :: navigateToConcessions page_Ly)
    ++ (localStorage_setItem "concessionIntent"
          (address_intent (trim (input_value page_Ly)))
        :: navigateToConcessions page_Ly))%list
  /\ stored (handle page_Ly Enter_pressed) ∅ !! "concessionIntent"
     = Some (address_intent (trim (input_value page_Ly))).
Proof.
  apply (Enter_on_suggestion_overwritten page_Ly suggestion_Lyon ∅);
    solve [reflexivity | discriminate | cbn; lia].
Defined.

End ConcessionCtaStorageFacts.

(* ====================================================================== *)
(** * Facts about an intent whose target mounts late *)
(* ====================================================================== *)

Module MapIntentMountFacts.

Import JsString JsStringFacts Map MapIntentFacts MapInit.
Local Open Scope string_scope.
Local Open Scope Z_scope.

Section Mount.

Variable dom : Z -> Dom.

Lemma tryConsume_present intent d retries w :
  readable intent -> target_present intent d = true ->
  exists a, intent_action intent = Some a
            /\ tryConsume intent d retries w
               = Some (removeItem "concessionIntent" (perform a w)).
Proof.
  intros Hr. unfold tryConsume, target_present, intent_action.
  destruct (readable_get intent "type" Hr) as [type ->].
  destruct (readable_get intent "address" Hr) as [address ->].
  destruct (is_string type "address"), (truthy address),
    (is_string type "geolocate"), (addressInput d), (geolocationButton d);
    cbn; intros H; try discriminate H; eexists; split; reflexivity.
Qed.

Lemma tryConsume_absent intent d retries w :
  readable intent -> target_present intent d = false ->
  tryConsume intent d retries w = Some (retry intent retries w).
Proof.
  intros Hr. unfold tryConsume, target_present.
  destruct (readable_get intent "type" Hr) as [type ->].
  destruct (readable_get intent "address" Hr) as [address ->].
  destruct (is_string type "address"), (truthy address),
    (is_string type "geolocate"), (addressInput d), (geolocationButton d);
    cbn; intros H; try discriminate H; reflexivity.
Qed.

(** The world when the first timer runs, 150 ms on. *)
Definition later (w : World) : World :=
  {| localStorage := localStorage w; actions := actions w;
     timers := []; now := now w + 150 |}.

Lemma run_retry_step intent retries w fuel :
  timers w = [] -> 0 < retries ->
  run dom (S fuel) (retry intent retries w)
  = match tryConsume intent (dom (now w + 150)) (retries - 1) (later w) with
    | Some w2 => let '(ran, w') := run dom fuel w2 in
                 ({| at_time := now w + 150; threw := false |} :: ran, w')
    | None => let '(ran, w') := run dom fuel (later w) in
              ({| at_time := now w + 150; threw := true |} :: ran, w')
    end.
Proof.
  intros Ht Hk. unfold retry.
  replace (0 <? retries) with true by (symmetry; apply Z.ltb_lt; lia).
  simpl. unfold run_timer, setTimeout. simpl. rewrite Ht. simpl.
  fold (later w). destruct (tryConsume _ _ _ (later w)); reflexivity.
Qed.

Lemma run_retry_until intent a : forall (k : nat) retries w,
  readable intent ->
  intent_action intent = Some a ->
  timers w = [] ->
  Z.of_nat (S k) <= retries ->
  (forall j, 1 <= j <= Z.of_nat k ->
     target_present intent (dom (now w + 150 * j)) = false) ->
  target_present intent (dom (now w + 150 * Z.of_nat (S k))) = true ->
  exists ran,
    length ran = S k
    /\ paced (now w) ran
    /\ forall fuel, (S k <= fuel)%nat ->
         run dom fuel (retry intent retries w)
         = (ran, consumed a (now w + 150 * Z.of_nat (S k)) w).
Proof.
  induction k as [|k IH]; intros retries w Hr Ha Ht Hk Habs Hpres.
  - exists [{| at_time := now w + 150; threw := false |}].
    split; [reflexivity|]. split; [cbn; auto|].
    intros [|fuel] Hf; [lia|].
    rewrite run_retry_step by (auto; lia).
    replace (now w + 150 * Z.of_nat 1) with (now w + 150) in * by lia.
    destruct (tryConsume_present intent (dom (now w + 150)) (retries - 1)
                (later w) Hr Hpres) as (a' & Ha' & ->).
    assert (a' = a) as -> by congruence.
    rewrite run_done by reflexivity. reflexivity.
  - destruct (IH (retries - 1) (later w) Hr Ha eq_refl ltac:(lia))
      as (ran & Hl & Hp & Hrun).
    + intros j Hj. cbn [now later].
      replace (now w + 150 + 150 * j) with (now w + 150 * (j + 1)) by lia.
      apply Habs. lia.
    + cbn [now later].
      replace (now w + 150 + 150 * Z.of_nat (S k))
        with (now w + 150 * Z.of_nat (S (S k))) by lia.
      exact Hpres.
    + exists ({| at_time := now w + 150; threw := false |} :: ran).
      split; [cbn [length]; rewrite Hl; reflexivity|].
      split; [cbn [paced at_time threw]; auto|].
      intros [|fuel] Hf; [lia|].
      rewrite run_retry_step by (auto; lia).
      rewrite (tryConsume_absent intent (dom (now w + 150)) (retries - 1)
                 (later w) Hr)
        by (replace (now w + 150) with (now w + 150 * 1) by lia;
            apply Habs; lia).
      rewrite Hrun by lia. unfold consumed. cbn [localStorage actions now later].
      f_equal. f_equal. lia.
Qed.

End Mount.

Lemma consumeIntent_mounts
    (JSON_parse : string -> option JsValue) (dom : Z -> Dom) (w : World)
    (raw : string) (intent : JsValue) (k : nat) :
  timers w = [] ->
  localStorage w !! "concessionIntent" = Some raw ->
  raw <> "" ->
  JSON_parse raw = Some intent ->
  readable intent ->
  (k <= 20)%nat ->
  (forall j, 0 <= j < Z.of_nat k ->
     target_present intent (dom (now w + 150 * j)) = false) ->
  target_present intent (dom (now w + 150 * Z.of_nat k)) = true ->
  exists a ran,
    intent_action intent = Some a
    /\ length ran = k
    /\ paced (now w) ran
    /\ forall fuel, (k <= fuel)%nat ->
         run dom fuel (consumeIntent JSON_parse dom w)
         = (ran, {| localStorage := delete "concessionIntent" (localStorage w);
                    actions := actions w ++ [a]; timers := [];
                    now := now w + 150 * Z.of_nat k |}).
Proof.
  intros Ht Hraw Hne Hparse Hr Hk Habs Hpres.
  unfold consumeIntent. apply falsy_false in Hne. rewrite Hraw, Hne, Hparse.
  destruct k as [|k].
  - replace (now w + 150 * Z.of_nat 0) with (now w) in * by lia.
    destruct (tryConsume_present intent (dom (now w)) 20 w Hr Hpres)
      as (a & Ha & ->).
    exists a, []. split; [exact Ha|]. split; [reflexivity|]. split; [exact I|].
    intros fuel _. rewrite run_done by (cbn; exact Ht).
    unfold removeItem, perform. cbn. rewrite Ht. reflexivity.
  - rewrite (tryConsume_absent intent (dom (now w)) 20 w Hr)
      by (replace (now w) with (now w + 150 * 0) by lia; apply Habs; lia).
    destruct (tryConsume_present intent _ 0 w Hr Hpres) as (a & Ha & _).
    destruct (run_retry_until dom intent a k 20 w Hr Ha Ht ltac:(lia))
      as (ran & Hl & Hp & Hrun); [intros j Hj; apply Habs; lia|exact Hpres|].
    exists a, ran. split; [exact Ha|]. split; [exact Hl|]. split; [exact Hp|].
    exact Hrun.
Qed.

(** X18. A readable intent whose target is absent at the first [k]
    attempts and mounted at the next one, [k] at most 20, is consumed at
    that attempt, 150 ms times [k] after the load: [k] timers have run,
    150 ms apart, the action of the intent is done once, the key is removed
    from storage and no timer is left. *)
Theorem intent_consumed_when_target_mounts
    (JSON_parse : string -> option JsValue) (dom : Z -> Dom) (w : World)
    (raw : string) (intent : JsValue) (k : nat) :
  timers w = [] ->
  localStorage w !! "concessionIntent" = Some raw ->
  raw <> "" ->
  JSON_parse raw = Some intent ->
  readable intent ->
  (k <= 20)%nat ->
  (forall j, 0 <= j < Z.of_nat k ->
     target_present intent (dom (now w + 150 * j)) = false) ->
  target_present intent (dom (now w + 150 * Z.of_nat k)) = true ->
  exists a ran,
    intent_action intent = Some a
    /\ length ran = k
    /\ paced (now w) ran
    /\ forall fuel, (k <= fuel)%nat ->
         run dom fuel (consumeIntent JSON_parse dom w)
         = (ran, {| localStorage := delete "concessionIntent" (localStorage w);
                    actions := actions w ++ [a]; timers := [];
                    now := now w + 150 * Z.of_nat k |}).
Proof. apply consumeIntent_mounts. Qed.

(** The geolocation button mounts 450 ms after the page loads. *)
Definition dom_late : Z -> Dom :=
  fun t => {| addressInput := false; geolocationButton := 450 <=? t |}.

Lemma intent_consumed_when_target_mounts_witness :
  exists a ran,
    intent_action (JsObject [("type", JsString "geolocate")]) = Some a
    /\ length ran = 3%nat
    /\ paced (now world_geolocate) ran
    /\ forall fuel, (3 <= fuel)%nat ->
         run dom_late fuel (consumeIntent parse_geolocate dom_late world_geolocate)
         = (ran, {| localStorage :=
                      delete "concessionIntent" (localStorage world_geolocate);
                    actions := actions world_geolocate ++ [a]; timers := [];
                    now := now world_geolocate + 150 * Z.of_nat 3 |}).
Proof.
  apply (intent_consumed_when_target_mounts parse_geolocate dom_late
           world_geolocate ConcessionCta.geolocate_intent
           (JsObject [("type", JsString "geolocate")]) 3).
  - reflexivity.
  - reflexivity.
  - discriminate.
  - reflexivity.
  - discriminate.
  - lia.
  - intros j Hj. cbn -[Z.leb Z.mul]. 
    destruct (Z.leb_spec 450 (0 + 150 * j)); [lia|reflexivity].
  - reflexivity.
Defined.

End MapIntentMountFacts.

(* ====================================================================== *)
(** * Facts about what a consumed intent sets off *)
(* ====================================================================== *)

Module MapInitFacts.

Import JsString JsStringFacts JsStringClassesFacts Geocoding Map MapAddress MapInit.
Import MapIntentFacts MapIntentMountFacts MapAddressFacts.
Local Open Scope string_scope.

(** ** From the call-to-action to the geocoding request *)

Lemma stored_searchButton_click page storage :
  trim (ConcessionCta.input_value page) <> "" ->
  ConcessionCtaStorage.stored (ConcessionCta.searchButton_click page) storage
    !! "concessionIntent"
  = Some (ConcessionCta.address_intent (trim (ConcessionCta.input_value page))).
Proof.
  intros Hv. unfold ConcessionCta.searchButton_click.
  assert (Hf : falsy (ConcessionCta.input_value page) = false).
  { destruct (ConcessionCta.input_value page);
      [exfalso; apply Hv; reflexivity|reflexivity]. }
  rewrite Hf. apply falsy_false in Hv. rewrite Hv.
  unfold ConcessionCtaStorage.stored, ConcessionCta.navigateToConcessions.
  destruct (String.eqb _ _); cbn; apply lookup_insert_eq.
Qed.

Lemma readable_object props : readable (JsObject props).
Proof. discriminate. Qed.

Lemma processAddress_requests fetch address :
  trim address <> "" ->
  fst (processAddress fetch (JsString16.of_string address) None)
  = [geocode_request (trim address)
       (if test_digits_5 (trim address) then types_postcode else types_general)].
Proof.
  intros H. unfold processAddress.
  pose proof (geocodeAddress_of_string fetch address H) as Hg.
  rewrite JsString16Facts.trim_of_string, JsString16Facts.falsy_of_string.
  apply falsy_false in H. rewrite H.
  destruct (geocodeAddress fetch (JsString16.of_string address))
    as [requests located].
  exact Hg.
Qed.

(** X20. From one page to the other, for a text of code units 0 to 255
    (where [encodeURIComponent] does not throw): the text typed in the
    call-to-action and sent by its search button is, on the map page where
    the address input is mounted at the load and [JSON.parse] reads the
    intent back, dispatched in the event, removed from storage, and looked
    up by [geocodeAddress] in one request for the trimmed text. *)
Theorem cta_address_is_geocoded
    (JSON_parse : string -> option JsValue) (dom : Z -> Dom)
    (fetch : Url -> Response) (navigator_geolocation : bool)
    (page : ConcessionCta.Page) (w : World) (storage : gmap string string) :
  let address := trim (ConcessionCta.input_value page) in
  ConcessionCta.has_input page = true ->
  ConcessionCta.has_searchButton page = true ->
  address <> "" ->
  localStorage w
    = ConcessionCtaStorage.stored
        (ConcessionCta.handle page ConcessionCta.search_clicked) storage ->
  JSON_parse (ConcessionCta.address_intent address)
    = Some (JsObject [("type", JsString "address");
                      ("address", JsString address)]) ->
  addressInput (dom (now w)) = true ->
  let w' := consumeIntent JSON_parse dom w in
  actions w'
    = (actions w ++ [dispatch_concession_intent_address (JsString address)])%list
  /\ localStorage w' !! "concessionIntent" = None
  /\ exists effects,
       react fetch navigator_geolocation (bind (dom (now w)))
         (dispatch_concession_intent_address (JsString address))
       = address_processed address
           [geocode_request address
              (if test_digits_5 address
               then types_postcode else types_general)]
           effects.
Proof.
  intros address Hi Hb Hne Hs Hp Hd. cbv zeta.
  assert (Hraw : localStorage w !! "concessionIntent"
                 = Some (ConcessionCta.address_intent address)).
  { rewrite Hs. cbn [ConcessionCta.handle]. rewrite Hi, Hb. cbn [andb].
    apply stored_searchButton_click, Hne. }
  assert (Ht : truthy (JsString address) = true).
  { cbn. destruct address; [congruence|reflexivity]. }
  assert (Hc : consumeIntent JSON_parse dom w
               = removeItem "concessionIntent"
                   (perform (dispatch_concession_intent_address
                               (JsString address)) w)).
  { unfold consumeIntent. rewrite Hraw.
    change (falsy (ConcessionCta.address_intent address)) with false.
    cbv iota. rewrite Hp.
    destruct (tryConsume_present
                (JsObject [("type", JsString "address");
                           ("address", JsString address)])
                (dom (now w)) 20 w (readable_object _)) as (a & Ha & ->).
    - unfold target_present. cbn -[truthy]. rewrite Ht. exact Hd.
    - unfold intent_action in Ha. cbn -[truthy] in Ha. rewrite Ht in Ha.
      injection Ha as <-. reflexivity. }
  rewrite Hc. split; [reflexivity|]. split.
  - cbn. apply lookup_delete_eq.
  - unfold react, bind. cbn [intent_address_bound]. rewrite Hd.
    unfold on_concession_intent_address. rewrite Ht. cbn [negb].
    pose proof (processAddress_requests fetch address) as Hr.
    assert (Htrim : trim address = address) by apply trim_idempotent.
    rewrite !Htrim in Hr.
    destruct (processAddress fetch (JsString16.of_string address) None)
      as [requests effects].
    cbn [fst] in Hr. rewrite Hr by exact Hne.
    exists effects. reflexivity.
Qed.

(** The page of the call-to-action where ' Lyon ' is typed, and the map
    page loaded after its search button is clicked. *)
Definition world_from_cta : World :=
  {| localStorage :=
       ConcessionCtaStorage.stored
         (ConcessionCta.handle ConcessionCtaFacts.page_Lyon
            ConcessionCta.search_clicked) ∅;
     actions := []; timers := []; now := 0 |}.

Lemma cta_address_is_geocoded_witness :
  let address := trim (ConcessionCta.input_value ConcessionCtaFacts.page_Lyon) in
  let w' := consumeIntent parse_Lyon dom_ready world_from_cta in
  actions w'
    = (actions world_from_cta
       ++ [dispatch_concession_intent_address (JsString address)])%list
  /\ localStorage w' !! "concessionIntent" = None
  /\ exists effects,
       react (fun _ => fetch_rejects) true
         (bind (dom_ready (now world_from_cta)))
         (dispatch_concession_intent_address (JsString address))
       = address_processed address
           [MapAddress.geocode_request address
              (if test_digits_5 address
               then types_postcode else types_general)]
           effects.
Proof.
  apply (cta_address_is_geocoded parse_Lyon dom_ready (fun _ => fetch_rejects)
           true ConcessionCtaFacts.page_Lyon world_from_cta ∅);
    solve [reflexivity | discriminate].
Defined.

Lemma react_absent fetch navigator_geolocation intent d a :
  readable intent ->
  target_present intent d = false ->
  intent_action intent = Some a ->
  react fetch navigator_geolocation (bind d) a = no_listener.
Proof.
  intros Hr. unfold target_present, intent_action, react, bind.
  destruct (readable_get intent "type" Hr) as [type ->].
  destruct (readable_get intent "address" Hr) as [address ->].
  destruct (is_string type "address" && truthy address).
  - intros -> [= <-]. reflexivity.
  - destruct (is_string type "geolocate"); [|discriminate].
    intros -> [= <-]. reflexivity.
Qed.

(** X19. An intent whose target is not mounted when the page loads is
    lost: [setupGeolocation] and [setupAddressInput] bound no listener at
    the load, so when the target mounts at a later attempt the intent is
    removed from storage and its action, the click or the event, reaches
    no listener. *)
Theorem late_intent_unanswered
    (JSON_parse : string -> option JsValue) (dom : Z -> Dom)
    (fetch : Url -> Response) (navigator_geolocation : bool) (w : World)
    (raw : string) (intent : JsValue) (k : nat) :
  timers w = [] ->
  localStorage w !! "concessionIntent" = Some raw ->
  raw <> "" ->
  JSON_parse raw = Some intent ->
  readable intent ->
  (1 <= k <= 20)%nat ->
  (forall j, (0 <= j < Z.of_nat k)%Z ->
     target_present intent (dom (now w + 150 * j)%Z) = false) ->
  target_present intent (dom (now w + 150 * Z.of_nat k)%Z) = true ->
  exists a ran,
    (forall fuel, (k <= fuel)%nat ->
       run dom fuel (consumeIntent JSON_parse dom w)
       = (ran, {| localStorage := delete "concessionIntent" (localStorage w);
                  actions := (actions w ++ [a])%list; timers := [];
                  now := (now w + 150 * Z.of_nat k)%Z |}))
    /\ react fetch navigator_geolocation (bind (dom (now w))) a = no_listener.
Proof.
  intros Ht Hraw Hne Hp Hr Hk Habs Hpres.
  destruct (consumeIntent_mounts JSON_parse dom w raw intent k Ht Hraw Hne Hp
              Hr ltac:(lia) Habs Hpres) as (a & ran & Ha & _ & _ & Hrun).
  exists a, ran. split; [exact Hrun|].
  apply (react_absent fetch navigator_geolocation intent); auto.
  replace (now w) with (now w + 150 * 0)%Z by lia. apply Habs. lia.
Qed.

Lemma late_intent_unanswered_witness :
  exists a ran,
    (forall fuel, (3 <= fuel)%nat ->
       run dom_late fuel
         (consumeIntent parse_geolocate dom_late world_geolocate)
       = (ran, {| localStorage :=
                    delete "concessionIntent" (localStorage world_geolocate);
                  actions := (actions world_geolocate ++ [a])%list;
                  timers := [];
                  now := (now world_geolocate + 150 * Z.of_nat 3)%Z |}))
    /\ react (fun _ => fetch_rejects) true
         (bind (dom_late (now world_geolocate))) a = no_listener.
Proof.
  apply (late_intent_unanswered parse_geolocate dom_late
           (fun _ => fetch_rejects) true
           world_geolocate ConcessionCta.geolocate_intent
           (JsObject [("type", JsString "geolocate")]) 3).
  - reflexivity.
  - reflexivity.
  - discriminate.
  - reflexivity.
  - discriminate.
  - lia.
  - intros j Hj. cbn -[Z.leb Z.mul].
    destruct (Z.leb_spec 450 (0 + 150 * j)); [lia|reflexivity].
  - reflexivity.
Defined.

End MapInitFacts.

(* ====================================================================== *)
(** * More facts about the sort of the cards *)
(* ====================================================================== *)

Module MapSortStabilityFacts.

Import JsNumberFacts JsNumberOrderFacts JsString JsStringFacts JsStringClasses.
Import JsStringClassesFacts.
Import Map MapSortFacts MapDistanceText.
Local Open Scope float_scope.

(** ** Insertion, again *)

Section Insertion.

Context {A : Type}.
Variable comparefn : A -> A -> float.

(** The elements a filter keeps do not go past one another. *)
Variable keep : A -> bool.
Hypothesis kept_stop :
  forall a b, keep a = true -> keep b = true -> (0 <? comparefn a b) = false.

Lemma insert_by_filter_kept a l :
  List.filter keep (insert_by comparefn a l) = List.filter keep (a :: l).
Proof.
  induction l as [|b l IH]; [reflexivity|].
  cbn [insert_by]. destruct (0 <? comparefn a b) eqn:E; [|reflexivity].
  cbn [List.filter] in *. rewrite IH.
  destruct (keep a) eqn:Ka, (keep b) eqn:Kb; try reflexivity.
  rewrite (kept_stop a b Ka Kb) in E. discriminate.
Qed.

Lemma sort_filter_kept l :
  List.filter keep (sort comparefn l) = List.filter keep l.
Proof.
  induction l as [|a l IH]; [reflexivity|].
  cbn [sort fold_right]. fold (sort comparefn l).
  rewrite insert_by_filter_kept. cbn [List.filter]. rewrite IH. reflexivity.
Qed.

(** What goes past an element is not passed by it. *)
Hypothesis pass_stop :
  forall a b, (0 <? comparefn a b) = true -> (0 <? comparefn b a) = false.

Definition stops (a b : A) : Prop := (0 <? comparefn a b) = false.

Lemma insert_by_HdRel a b l :
  stops b a -> HdRel stops b l -> HdRel stops b (insert_by comparefn a l).
Proof.
  intros Hba Hl. destruct l as [|c l]; cbn [insert_by].
  - constructor. exact Hba.
  - destruct (0 <? comparefn a c).
    + constructor. inversion Hl; assumption.
    + constructor. exact Hba.
Qed.

Lemma insert_by_Sorted a l :
  Sorted stops l -> Sorted stops (insert_by comparefn a l).
Proof.
  induction 1 as [|b l Hs IH Hb]; cbn [insert_by].
  - repeat constructor.
  - destruct (0 <? comparefn a b) eqn:E.
    + constructor; [exact IH|].
      apply insert_by_HdRel; [apply pass_stop, E|exact Hb].
    + constructor; [constructor; assumption|]. constructor. exact E.
Qed.

Lemma sort_Sorted l : Sorted stops (sort comparefn l).
Proof.
  induction l as [|a l IH]; [constructor|].
  cbn [sort fold_right]. apply insert_by_Sorted, IH.
Qed.

Lemma sort_of_Sorted l : Sorted stops l -> sort comparefn l = l.
Proof.
  induction 1 as [|a l Hs IH Ha]; [reflexivity|].
  cbn [sort fold_right]. fold (sort comparefn l). rewrite IH.
  destruct Ha as [|b l Hab]; [reflexivity|].
  cbn [insert_by]. unfold stops in Hab. rewrite Hab. reflexivity.
Qed.

Lemma sort_idempotent l :
  sort comparefn (sort comparefn l) = sort comparefn l.
Proof. apply sort_of_Sorted, sort_Sorted. Qed.

End Insertion.

Section Cards.

Variable parseFloat : string -> float.

Abbreviation dist := (Map.dist parseFloat).
Abbreviation unknown := (Map.unknown parseFloat).
Abbreviation compareCards := (MapSortFacts.compareCards parseFloat).

Lemma compareCards_pass_stop a b :
  (0 <? compareCards a b) = true -> (0 <? compareCards b a) = false.
Proof.
  rewrite !compareCards_unfold.
  destruct (unknown a), (unknown b); cbn [andb]; try reflexivity.
  - intros H. exfalso. revert H. change (0 <? -1) with false. discriminate.
  - intros H. destruct (sub_gt0_numbers _ _ H) as [Ha Hb].
    rewrite sub_gt0 in * by assumption. apply ltb_asym, H.
Qed.

(** X22. [sortConcessionsByDistanceImmediate] is idempotent: a second
    pass on cards whose texts have not changed moves no card. *)
Theorem sortConcessionsByDistanceImmediate_idempotent (cards : list Card) :
  sortConcessionsByDistanceImmediate parseFloat
    (sortConcessionsByDistanceImmediate parseFloat cards)
  = sortConcessionsByDistanceImmediate parseFloat cards.
Proof.
  rewrite !sortConcessionsByDistanceImmediate_sort.
  apply sort_idempotent, compareCards_pass_stop.
Qed.

Lemma compareCards_tie a b d :
  (dist a =? d) = true -> (dist b =? d) = true ->
  (0 <? compareCards a b) = false.
Proof.
  intros Ha Hb. rewrite compareCards_unfold.
  destruct (eqb_not_ltb _ _ _ Hb Ha) as (Hlt & Nb & Na).
  destruct (unknown a) eqn:Ua, (unknown b) eqn:Ub; cbn [andb];
    try reflexivity.
  - unfold Map.unknown in Ua, Ub.
    rewrite (eqb_infinity _ _ _ Ha Hb Ua) in Ub. discriminate.
  - rewrite sub_gt0 by assumption. exact Hlt.
Qed.

(** X21. The sort is stable on ties: for every distance, the cards at
    that distance are, after [sortConcessionsByDistanceImmediate], in the
    order they had. *)
Theorem sortConcessionsByDistanceImmediate_stable
    (cards : list Card) (d : float) :
  List.filter (fun card => dist card =? d)
    (sortConcessionsByDistanceImmediate parseFloat cards)
  = List.filter (fun card => dist card =? d) cards.
Proof.
  rewrite sortConcessionsByDistanceImmediate_sort.
  apply sort_filter_kept. intros a b. apply compareCards_tie.
Qed.

(** ** The distances read off the cards *)

Local Open Scope string_scope.

Lemma match_here_digit s m :
  match_here s = Some m -> Comparateur.starts_with_digit m = true.
Proof.
  unfold match_here.
  destruct (span isDigit s) as [int r1] eqn:E.
  destruct (falsy int) eqn:Ef; [discriminate|].
  pose proof (ComparateurFacts.span_isDigit_head s int r1 E Ef) as Hd.
  assert (Hnum : forall (num : string) r2,
    Comparateur.starts_with_digit num = true ->
    (let '(_, r3) := span isWhiteSpace r2 in
     match r3 with
     | String k (String m0 _) => if is_k k && is_m m0 then Some num else None
     | _ => None
     end) = Some m -> Comparateur.starts_with_digit m = true).
  { intros num r2 Hn. destruct (span isWhiteSpace r2) as [w r3].
    destruct r3 as [|k [|m0 r4]]; try discriminate.
    destruct (is_k k && is_m m0); [|discriminate]. intros [= <-]. exact Hn. }
  destruct r1 as [|c r]; [apply Hnum, Hd|].
  destruct (Ascii.eqb_spec c ".") as [->|Hc].
  - destruct (span isDigit r) as [frac r'].
    destruct (falsy frac); [apply Hnum, Hd|].
    apply Hnum. apply ComparateurFacts.starts_with_digit_app, Hd.
  - destruct c as [[] [] [] [] [] [] [] []]; try (apply Hnum, Hd).
    congruence.
Qed.

Lemma match_distance_digit s : forall m,
  match_distance s = Some m -> Comparateur.starts_with_digit m = true.
Proof.
  induction s as [|c s IH]; intros m; cbn [match_distance].
  - destruct (match_here "") eqn:E; [|discriminate].
    intros [= <-]. eapply match_here_digit, E.
  - destruct (match_here (String c s)) eqn:E.
    + intros [= <-]. eapply match_here_digit, E.
    + apply IH.
Qed.

Lemma dist_number card :
  Comparateur.parses_digits parseFloat -> is_nan (dist card) = false.
Proof.
  intros Hp. unfold Map.dist, extractDistanceValue.
  destruct (distance_textContent card) as [t|]; [|reflexivity].
  destruct (falsy t); [reflexivity|].
  destruct (match_distance (trim t)) as [m|] eqn:E; [|reflexivity].
  apply Hp. eapply match_distance_digit, E.
Qed.

(** X23. Given that [parseFloat] returns a number on a text that starts
    with a digit, every distance [extractDistanceValue] reads off a card is a
    number, never NaN: the pattern hands [parseFloat] a decimal numeral. So
    in the order the sort leaves, the known distances ascend, whatever the
    cards hold. *)
Theorem distances_are_numbers (cards : list Card) :
  Comparateur.parses_digits parseFloat ->
  (forall card, is_nan (dist card) = false)
  /\ forall before a between b after,
       sortConcessionsByDistanceImmediate parseFloat cards
         = (before ++ a :: between ++ b :: after)%list ->
       unknown a = false -> unknown b = false ->
       (dist a <=? dist b)%float = true.
Proof.
  intros Hp. split; [intros card; apply dist_number, Hp|].
  intros before a between b after E.
  apply (StronglySorted_pair (by_distance parseFloat) before a between b after).
  rewrite <- E. apply sorted_by_distance.
  intros card _. apply dist_number, Hp.
Qed.

Lemma match_here_none s :
  Comparateur.starts_with_digit s = false -> match_here s = None.
Proof.
  destruct s as [|c s]; [reflexivity|].
  cbn [Comparateur.starts_with_digit]. intros Hc.
  unfold match_here. cbn [span]. rewrite Hc. reflexivity.
Qed.

Lemma match_distance_none s : has_digit s = false -> match_distance s = None.
Proof.
  induction s as [|c s IH]; [reflexivity|].
  cbn [has_digit match_distance]. intros H.
  apply orb_false_elim in H as [Hc Hs].
  rewrite (match_here_none (String c s) Hc). apply IH, Hs.
Qed.

(** X24. A text without a digit has an unknown distance:
    [extractDistanceValue] returns Infinity, whatever [parseFloat] is. *)
Theorem extractDistanceValue_no_digit (text : string) :
  has_digit text = false ->
  extractDistanceValue parseFloat (Some text) = infinity.
Proof.
  intros H. unfold extractDistanceValue.
  destruct (falsy text); [reflexivity|].
  rewrite (match_distance_none _ (has_digit_trim _ H)). reflexivity.
Qed.

Lemma match_here_numeral int frac rest :
  all_digits int = true -> int <> "" ->
  all_digits frac = true -> frac <> "" ->
  match_here (int ++ String "." (frac ++ String " " (String "K" (String "M" rest))))
  = Some (int ++ String "." frac).
Proof.
  intros Hi Ni Hf Nf. unfold match_here.
  rewrite (span_digits_app int _ Hi) by reflexivity.
  destruct int as [|c int]; [congruence|]. cbn [falsy].
  rewrite (span_digits_app frac _ Hf) by reflexivity.
  destruct frac as [|c' frac]; [congruence|]. cbn [falsy].
  reflexivity.
Qed.

Lemma trim_numeral_KM int frac :
  all_digits int = true -> int <> "" ->
  trim ((int ++ String "." frac) ++ " KM")
  = int ++ String "." (frac ++ " KM").
Proof.
  intros Hi Ni. unfold trim.
  assert (Hs : trimStart ((int ++ String "." frac) ++ " KM")
               = (int ++ String "." frac) ++ " KM").
  { destruct int as [|c int]; [congruence|].
    cbn [all_digits] in Hi. apply andb_prop in Hi as [Hc _].
    change ((String c int ++ ?r) ++ ?r') with (String c ((int ++ r) ++ r')).
    cbn [trimStart]. rewrite (digit_not_space c Hc). reflexivity. }
  rewrite Hs.
  replace ((int ++ String "." frac) ++ " KM")
    with (((int ++ String "." frac) ++ " K") ++ String "M" "")
    by (rewrite (append_assoc _ " K" "M"); reflexivity).
  rewrite trimEnd_app by reflexivity.
  rewrite !append_assoc. reflexivity.
Qed.

(** X25. The distance [updateAllDistances] writes is the one the sort
    reads back: on a card with a distance element, after the text
    'int.frac KM' of a route is written, [extractDistanceValue] is
    [parseFloat] of 'int.frac'. *)
Theorem distance_round_trip (card : Card) (int frac : string) :
  distance_textContent card <> None ->
  all_digits int = true -> int <> "" ->
  all_digits frac = true -> frac <> "" ->
  dist (write_distance (route_found (int ++ String "." frac)) card)
  = parseFloat (int ++ String "." frac).
Proof.
  intros Hc Hi Ni Hf Nf. unfold Map.dist, write_distance.
  destruct (distance_textContent card) as [old|]; [|congruence].
  cbn [distance_textContent]. unfold extractDistanceValue.
  assert (Hne : falsy ((int ++ String "." frac) ++ " KM") = false).
  { destruct int; [congruence|reflexivity]. }
  rewrite Hne, trim_numeral_KM by assumption.
  assert (Hm : match_here (int ++ String "." (frac ++ " KM"))
               = Some (int ++ String "." frac))
    by (apply (match_here_numeral int frac ""); assumption).
  destruct int as [|c int]; [congruence|].
  change (String c int ++ ?r) with (String c (int ++ r)) in *.
  cbn [match_distance]. rewrite Hm. reflexivity.
Qed.

(** ** The texts that show a distance *)

Lemma span_space_app spaces rest :
  all_white_space spaces = true ->
  match rest with String c _ => isWhiteSpace c | EmptyString => false end = false ->
  span isWhiteSpace (spaces ++ rest) = (spaces, rest).
Proof.
  intros Hs Hr. induction spaces as [|c s IH].
  - change ("" ++ rest) with rest.
    destruct rest as [|c rest]; [reflexivity|].
    cbn [span]. rewrite Hr. reflexivity.
  - cbn [all_white_space] in Hs. apply andb_prop in Hs as [Hc Hs].
    change (String c s ++ rest) with (String c (s ++ rest)).
    cbn [span]. rewrite Hc, (IH Hs). reflexivity.
Qed.

Lemma unit_follows_no_digit tail :
  unit_follows tail ->
  match tail with String c _ => isDigit c | EmptyString => false end = false.
Proof.
  intros (spaces & k & m & after & -> & Hs & Hk & _).
  destruct spaces as [|c s].
  - destruct Hk as [->| ->]; reflexivity.
  - cbn [all_white_space] in Hs. apply andb_prop in Hs as [Hc _].
    change (String c s ++ ?r) with (String c (s ++ r)).
    destruct (isDigit c) eqn:E; [|reflexivity].
    apply digit_not_space in E. congruence.
Qed.

(** The end of [match_here], once the numeral is read. *)
Lemma unit_follows_matches {A} (num : A) tail :
  unit_follows tail ->
  (let '(_, r3) := span isWhiteSpace tail in
   match r3 with
   | String k (String m _) => if is_k k && is_m m then Some num else None
   | _ => None
   end) = Some num.
Proof.
  intros (spaces & k & m & after & -> & Hs & Hk & Hm).
  rewrite span_space_app; [|exact Hs|destruct Hk as [->| ->]; reflexivity].
  destruct Hk as [->| ->], Hm as [->| ->]; reflexivity.
Qed.

Lemma unit_follows_no_dot tail :
  unit_follows tail ->
  match tail with String "." _ => true | _ => false end = false.
Proof.
  intros (spaces & k & m & after & -> & Hs & Hk & _).
  destruct spaces as [|c s].
  - destruct Hk as [->| ->]; reflexivity.
  - cbn [all_white_space] in Hs. apply andb_prop in Hs as [Hc _].
    change (String c s ++ ?r) with (String c (s ++ r)).
    destruct c as [[] [] [] [] [] [] [] []]; try reflexivity.
    discriminate Hc.
Qed.

Lemma match_here_shows numeral tail :
  decimal_numeral numeral -> unit_follows tail ->
  match_here (numeral ++ tail) = Some numeral.
Proof.
  intros (int & Hi & Ni & Hn) Ht. unfold match_here.
  destruct Hn as [->|(frac & Hf & Nf & ->)].
  - rewrite (span_digits_app int tail Hi (unit_follows_no_digit tail Ht)).
    destruct int as [|c int]; [congruence|]. cbn [falsy].
    pose proof (unit_follows_no_dot tail Ht) as Hd.
    pose proof (unit_follows_matches (String c int) tail Ht) as Hm.
    destruct tail as [|x tail']; [exact Hm|].
    destruct x as [[] [] [] [] [] [] [] []]; try exact Hm.
    discriminate Hd.
  - rewrite append_assoc.
    rewrite (span_digits_app int _ Hi) by reflexivity.
    destruct int as [|c int]; [congruence|]. cbn [falsy].
    change (String "." frac ++ tail) with (String "." (frac ++ tail)).
    cbv iota.
    rewrite (span_digits_app frac tail Hf (unit_follows_no_digit tail Ht)).
    destruct frac as [|c' frac]; [congruence|]. cbn [falsy].
    apply unit_follows_matches, Ht.
Qed.

Lemma match_distance_skip before rest :
  has_digit before = false ->
  match_distance (before ++ rest) = match_distance rest.
Proof.
  induction before as [|c b IH]; [reflexivity|].
  cbn [has_digit]. intros H. apply orb_false_elim in H as [Hc Hb].
  change (String c b ++ rest) with (String c (b ++ rest)).
  cbn [match_distance]. rewrite (match_here_none (String c (b ++ rest)) Hc).
  apply IH, Hb.
Qed.

Lemma match_distance_here s num :
  match_here s = Some num -> match_distance s = Some num.
Proof. intros H. destruct s; cbn [match_distance]; rewrite H; reflexivity. Qed.

Lemma shows_distance_unit text numeral :
  shows_distance text numeral <->
  exists before tail,
    text = before ++ numeral ++ tail
    /\ has_digit before = false /\ decimal_numeral numeral /\ unit_follows tail.
Proof.
  split.
  - intros (before & spaces & k & m & after & -> & Hb & Hn & Hs & Hk & Hm).
    exists before, (spaces ++ String k (String m after)).
    split; [reflexivity|]. split; [exact Hb|]. split; [exact Hn|].
    exists spaces, k, m, after. repeat split; assumption.
  - intros (before & tail & -> & Hb & Hn & spaces & k & m & after & -> & Hs & Hk & Hm).
    exists before, spaces, k, m, after. repeat split; assumption.
Qed.

(** The pattern finds the numeral that a text shows. *)
Lemma match_distance_shows text numeral :
  shows_distance text numeral -> match_distance text = Some numeral.
Proof.
  rewrite shows_distance_unit.
  intros (before & tail & -> & Hb & Hn & Ht).
  rewrite match_distance_skip by exact Hb.
  apply match_distance_here, match_here_shows; assumption.
Qed.

(** *** Trimming a text that shows a distance *)

Lemma decimal_numeral_head numeral :
  decimal_numeral numeral ->
  exists c rest, numeral = String c rest /\ isDigit c = true.
Proof.
  intros (int & Hi & Ni & Hn).
  destruct int as [|c int]; [congruence|].
  cbn [all_digits] in Hi. apply andb_prop in Hi as [Hc _].
  destruct Hn as [->|(frac & _ & _ & ->)]; eauto.
Qed.

Lemma trimStart_shows before rest c :
  has_digit before = false -> isWhiteSpace c = false ->
  exists before',
    trimStart (before ++ String c rest) = before' ++ String c rest
    /\ has_digit before' = false.
Proof.
  intros Hb Hc. induction before as [|x b IH].
  - exists "". split; [|reflexivity].
    change ("" ++ String c rest) with (String c rest).
    cbn [trimStart]. rewrite Hc. reflexivity.
  - cbn [has_digit] in Hb. apply orb_false_elim in Hb as [Hx Hb].
    change (String x b ++ String c rest) with (String x (b ++ String c rest)).
    cbn [trimStart]. destruct (isWhiteSpace x).
    + apply IH, Hb.
    + exists (String x b). split; [reflexivity|].
      cbn [has_digit]. rewrite Hx, Hb. reflexivity.
Qed.

(** A text loses nothing before a character that is not white space. *)
Lemma trimEnd_app_tail s c after :
  isWhiteSpace c = false ->
  trimEnd (s ++ String c after) = s ++ String c (trimEnd after).
Proof.
  intros Hc. induction s as [|x s IH].
  - change ("" ++ ?r) with r.
    cbn [trimEnd]. destruct (trimEnd after); [rewrite Hc|]; reflexivity.
  - change (String x s ++ ?r) with (String x (s ++ r)).
    cbn [trimEnd]. rewrite IH.
    destruct s; reflexivity.
Qed.

Lemma shows_distance_trim text numeral :
  shows_distance text numeral -> shows_distance (trim text) numeral.
Proof.
  intros (before & spaces & k & m & after & -> & Hb & Hn & Hs & Hk & Hm).
  destruct (decimal_numeral_head numeral Hn) as (c & rest & En & Hc).
  unfold trim.
  destruct (trimStart_shows before
              (rest ++ spaces ++ String k (String m after)) c Hb
              (digit_not_space c Hc)) as (before' & Et & Hb').
  rewrite En.
  change (String c rest ++ ?r) with (String c (rest ++ r)).
  rewrite Et.
  replace (before' ++ String c (rest ++ spaces ++ String k (String m after)))
    with ((before' ++ String c (rest ++ spaces ++ String k "")) ++ String m after).
  2:{ rewrite append_assoc.
      change (String c ?a ++ ?b) with (String c (a ++ b)).
      rewrite !append_assoc. reflexivity. }
  rewrite trimEnd_app_tail by (destruct Hm as [->| ->]; reflexivity).
  exists before', spaces, k, m, (trimEnd after).
  repeat split; try assumption.
  - rewrite append_assoc.
    change (String c ?a ++ ?b) with (String c (a ++ b)).
    rewrite !append_assoc. reflexivity.
  - rewrite <- En. exact Hn.
Qed.

Lemma shows_distance_nonempty text numeral :
  shows_distance text numeral -> falsy text = false.
Proof.
  intros (before & spaces & k & m & after & -> & _ & Hn & _).
  destruct (decimal_numeral_head numeral Hn) as (c & rest & -> & _).
  destruct before; reflexivity.
Qed.

(** The distance of a card that shows one is what [parseFloat] reads in
    its numeral. *)
Lemma dist_shows card text numeral :
  distance_textContent card = Some text ->
  shows_distance text numeral ->
  dist card = parseFloat numeral.
Proof.
  intros Ec Hs. unfold Map.dist, extractDistanceValue. rewrite Ec.
  rewrite (shows_distance_nonempty text numeral Hs).
  rewrite (match_distance_shows _ _ (shows_distance_trim _ _ Hs)).
  reflexivity.
Qed.

(** The distance of a card that shows none is unknown. *)
Lemma dist_shows_none card :
  shows_no_distance (distance_textContent card) -> dist card = infinity.
Proof.
  unfold Map.dist, extractDistanceValue, shows_no_distance.
  destruct (distance_textContent card) as [text|]; [|reflexivity].
  intros H. destruct (falsy text); [reflexivity|].
  rewrite (match_distance_none _ (has_digit_trim _ H)). reflexivity.
Qed.

(** C5. For every list of cards, [sortConcessionsByDistanceImmediate] puts
    the same cards back in an order in which no card of unknown distance
    comes before a card of known distance, the cards of unknown distance are
    in the order they had, and the cards of known distance are in ascending
    order of distance. A distance is unknown when [extractDistanceValue]
    gives Infinity, and what it gives follows what the card shows: on a
    card whose text shows a numeral before km, it is what [parseFloat] reads
    in this numeral; on a card with no distance element, or with a text
    that holds no digit, as the 'Calcul' of a computation under way and the
    '-- KM' of a failed one, it is unknown. So a card that shows no
    distance never comes before one that shows a numeral [parseFloat] reads
    as a finite number, and the cards that show such numerals come in
    ascending order of them. The parts on ascending order take [parseFloat]
    to return numbers, as it does on a decimal numeral. *)
Theorem sortConcessionsByDistanceImmediate_order (cards : list Card) :
  let sorted := sortConcessionsByDistanceImmediate parseFloat cards in
  Permutation cards sorted
  /\ (forall before a between b after,
        sorted = (before ++ a :: between ++ b :: after)%list ->
        unknown a = true -> unknown b = true)
  /\ List.filter unknown sorted = List.filter unknown cards
  /\ ((forall card, In card cards -> is_nan (dist card) = false) ->
      forall before a between b after,
        sorted = (before ++ a :: between ++ b :: after)%list ->
        unknown a = false -> unknown b = false ->
        (dist a <=? dist b)%float = true)
  /\ (forall card text numeral,
        distance_textContent card = Some text ->
        shows_distance text numeral ->
        dist card = parseFloat numeral)
  /\ (forall card,
        shows_no_distance (distance_textContent card) ->
        unknown card = true)
  /\ (forall before a between b after text numeral,
        sorted = (before ++ a :: between ++ b :: after)%list ->
        shows_no_distance (distance_textContent a) ->
        distance_textContent b = Some text ->
        shows_distance text numeral ->
        (parseFloat numeral =? infinity)%float = true)
  /\ (Comparateur.parses_digits parseFloat ->
      forall before a between b after text_a numeral_a text_b numeral_b,
        sorted = (before ++ a :: between ++ b :: after)%list ->
        distance_textContent a = Some text_a ->
        shows_distance text_a numeral_a ->
        distance_textContent b = Some text_b ->
        shows_distance text_b numeral_b ->
        (parseFloat numeral_a =? infinity)%float = false ->
        (parseFloat numeral_b =? infinity)%float = false ->
        (parseFloat numeral_a <=? parseFloat numeral_b)%float = true).
Proof.
  intros sorted.
  destruct (cards_order parseFloat cards) as (Hperm & Hlast & Hkeep & Hasc).
  fold sorted in Hperm, Hlast, Hkeep, Hasc.
  assert (Hnone : forall card,
            shows_no_distance (distance_textContent card) ->
            unknown card = true).
  { intros card H. unfold Map.unknown. rewrite (dist_shows_none card H).
    reflexivity. }
  split; [exact Hperm|]. split; [exact Hlast|]. split; [exact Hkeep|].
  split; [exact Hasc|]. split; [exact dist_shows|]. split; [exact Hnone|].
  split.
  - intros before a between b after text numeral E Ha Eb Hb.
    rewrite <- (dist_shows b text numeral Eb Hb).
    apply (Hlast before a between b after E), Hnone, Ha.
  - intros Hp before a between b after ta na tb nb E Ea Ha Eb Hb Fa Fb.
    rewrite <- (dist_shows a ta na Ea Ha), <- (dist_shows b tb nb Eb Hb).
    apply (Hasc (fun card _ => dist_number card Hp)
             before a between b after E).
    + unfold Map.unknown. rewrite (dist_shows a ta na Ea Ha). exact Fa.
    + unfold Map.unknown. rewrite (dist_shows b tb nb Eb Hb). exact Fb.
Qed.

End Cards.

(** A card that shows a distance. *)
Definition card_shown : Card :=
  {| element := 1; distance_textContent := Some "Calcul"%string |}.

Lemma distances_are_numbers_witness :
  (forall card, is_nan (Map.dist JsString.parseFloat_digits card) = false)
  /\ forall before a between b after,
       sortConcessionsByDistanceImmediate JsString.parseFloat_digits
         [card_shown]
         = before ++ a :: between ++ b :: after ->
       Map.unknown JsString.parseFloat_digits a = false ->
       Map.unknown JsString.parseFloat_digits b = false ->
       (Map.dist JsString.parseFloat_digits a
        <=? Map.dist JsString.parseFloat_digits b) = true.
Proof.
  apply (distances_are_numbers JsString.parseFloat_digits [card_shown]).
  exact ComparateurFacts.parseFloat_digits_number.
Defined.

Lemma extractDistanceValue_no_digit_witness :
  extractDistanceValue JsString.parseFloat_short (Some text_failed) = infinity.
Proof.
  apply (extractDistanceValue_no_digit JsString.parseFloat_short text_failed).
  reflexivity.
Defined.

Lemma distance_round_trip_witness :
  Map.dist JsString.parseFloat_short
    (write_distance (route_found ("12" ++ String "." "5")%string) card_shown)
  = JsString.parseFloat_short ("12" ++ String "." "5")%string.
Proof.
  apply (distance_round_trip JsString.parseFloat_short card_shown "12" "5");
    solve [reflexivity | discriminate].
Defined.



(** The text a route leaves shows its distance, as does a text with words
    around the numeral and no space before km; the texts of a computation
    under way and of a failed one show none. *)
Example shows_distance_texts :
  shows_distance "12.5 KM" "12.5"
  /\ shows_distance "route: 3km (est.)" "3"
  /\ shows_no_distance (Some text_loading)
  /\ shows_no_distance (Some text_failed)
  /\ Map.dist JsString.parseFloat_short
       {| element := 1; distance_textContent := Some "route: 3km (est.)"%string |}
     = 3%float.
Proof.
  split; [|split; [|repeat split]].
  - exists ""%string, " "%string, "K"%char, "M"%char, ""%string.
    repeat split; auto.
    exists "12"%string. repeat split; [discriminate|].
    right. exists "5"%string. repeat split. discriminate.
  - exists "route: "%string, ""%string, "k"%char, "m"%char, " (est.)"%string.
    repeat split; auto.
    exists "3"%string. repeat split; [discriminate|]. left. reflexivity.
Qed.

End MapSortStabilityFacts.

(* ====================================================================== *)
(** * Facts about the markers *)
(* ====================================================================== *)

Set Warnings "-clear-no-such-hyp".

Module MapMarkersFacts.

Import MapMarkers.

(** What is highlighted: the clicked marker and its card, or nothing. *)
Definition highlight_ok (s : Markers) : Prop :=
  if isClickActive s then
    exists m, m ∈ allMarkers s
              /\ currentClickedMarker s = Some m
              /\ currentClickedItem s = Some m
              /\ active s = {[m]}
              /\ m ∈ show s
              /\ cards_active s = {[m]}
  else
    currentClickedMarker s = None
    /\ currentClickedItem s = None
    /\ active s = ∅
    /\ cards_active s = ∅.

Lemma highlight_active_markers s :
  highlight_ok s -> active s ⊆ list_to_set (allMarkers s).
Proof.
  unfold highlight_ok. destruct (isClickActive s).
  - intros (m & Hm & _ & _ & -> & _). set_solver.
  - intros (_ & _ & -> & _). set_solver.
Qed.

Lemma clearElementTimeout_ok m s :
  highlight_ok s -> highlight_ok (clearElementTimeout m s).
Proof.
  unfold clearElementTimeout. destruct (hoverTimeouts s !! m); auto.
Qed.

Lemma clearElementTimeout_clicked m m' s :
  is_clicked m' (clearElementTimeout m s) = is_clicked m' s.
Proof.
  unfold clearElementTimeout. destruct (hoverTimeouts s !! m); reflexivity.
Qed.

Lemma clearAll_ok s :
  highlight_ok s -> highlight_ok (clearAllPopupsAndMarkers s).
Proof.
  intros H. pose proof (highlight_active_markers s H) as Ha.
  unfold highlight_ok, clearAllPopupsAndMarkers. cbn.
  repeat split; auto. set_solver.
Qed.

Lemma clearAll_inactive s :
  isClickActive (clearAllPopupsAndMarkers s) = false.
Proof. reflexivity. Qed.

Lemma step_ok s e : highlight_ok s -> highlight_ok (step s e).
Proof.
  intros H. destruct e as [m|m|m|m|m| |timeout]; cbn [step];
    try (destruct (has_marker m s) eqn:Hm; [|exact H];
         apply bool_decide_eq_true in Hm).
  - (* click *)
    pose proof (clearAll_ok s H) as H'.
    unfold highlight_ok in H'. rewrite clearAll_inactive in H'.
    destruct H' as (_ & _ & Ha & Hc).
    unfold marker_click, highlight_ok.
    cbn [isClickActive allMarkers currentClickedMarker currentClickedItem
         active show cards_active].
    exists m. rewrite Ha, Hc.
    repeat split; auto; set_solver.
  - (* mouseenter *)
    unfold marker_mouseenter.
    pose proof (clearElementTimeout_ok m s H) as H'.
    destruct (is_clicked m (clearElementTimeout m s)); [exact H'|].
    revert H'. generalize (clearElementTimeout m s). intros s' H'.
    unfold highlight_ok in *.
    cbn [isClickActive allMarkers currentClickedMarker currentClickedItem
         active show cards_active].
    destruct (isClickActive s'); [|exact H'].
    destruct H' as (m' & ? & ? & ? & ? & ? & ?). exists m'.
    repeat split; auto. set_solver.
  - (* mouseleave *)
    unfold marker_mouseleave. destruct (is_clicked m s); [exact H|].
    unfold setElementTimeout.
    pose proof (clearElementTimeout_ok m s H) as H'.
    revert H'. generalize (clearElementTimeout m s). intros s' H'. exact H'.
  - apply clearElementTimeout_ok, H.
  - unfold marker_mouseleave. destruct (is_clicked m s); [exact H|].
    unfold setElementTimeout.
    pose proof (clearElementTimeout_ok m s H) as H'.
    revert H'. generalize (clearElementTimeout m s). intros s' H'. exact H'.
  - (* click on the map *)
    induction (length (allMarkers s)) as [|n IH]; [exact H|].
    rewrite Nat.iter_succ. apply clearAll_ok, IH.
  - (* a timer *)
    destruct (timers s !! timeout) as [m|]; [|exact H].
    unfold close_popup.
    cbn [currentClickedMarker isClickActive].
    destruct (bool_decide (currentClickedMarker s <> Some m)
              || negb (isClickActive s)) eqn:E; [|exact H].
    unfold highlight_ok in *.
    cbn [isClickActive allMarkers currentClickedMarker currentClickedItem
         active show cards_active].
    destruct (isClickActive s).
    + destruct H as (m' & ? & Hc & ? & Ha & ? & ?).
      rewrite orb_false_r in E. apply bool_decide_eq_true in E.
      assert (m' <> m) by congruence.
      exists m'. repeat split; auto; set_solver.
    + destruct H as (? & ? & Ha & ?). repeat split; auto. set_solver.
Qed.

(** X26. From a page loaded with nothing highlighted, whatever happens
    on the map page, clicks on markers and on the map, the pointer entering
    and leaving markers and popups, hover timers running, in any order: a
    marker with the class 'active' is the marker last clicked, which has
    the class 'show' too, a card with the class 'active' is the card of that
    marker, and while a click is active exactly one marker and one card are
    active. No hover timer takes the highlight of the clicked marker
    away. *)
Theorem one_marker_highlighted
    (markers : list nat) (events : list MarkerEvent) :
  let s := markers_run events (markers0 markers) in
  (forall m, m ∈ active s ->
     isClickActive s = true /\ currentClickedMarker s = Some m
     /\ m ∈ show s /\ m ∈ allMarkers s)
  /\ (forall m, m ∈ cards_active s ->
        isClickActive s = true /\ currentClickedItem s = Some m)
  /\ (isClickActive s = true ->
        exists m, active s = {[m]} /\ cards_active s = {[m]})
  /\ allMarkers s = markers.
Proof.
  cbv zeta.
  assert (H : highlight_ok (markers_run events (markers0 markers))
              /\ allMarkers (markers_run events (markers0 markers)) = markers).
  { assert (H0 : highlight_ok (markers0 markers)
                 /\ allMarkers (markers0 markers) = markers)
      by (split; [repeat split|reflexivity]).
    revert H0. generalize (markers0 markers).
    induction events as [|e events IH]; intros s [H1 H2]; [auto|].
    cbn [markers_run fold_left]. apply IH. split; [apply step_ok, H1|].
    rewrite <- H2. clear.
    destruct e as [m|m|m|m|m| |timeout]; cbn [step];
      try (destruct (has_marker m s); [|reflexivity]).
    - reflexivity.
    - unfold marker_mouseenter, clearElementTimeout.
      destruct (hoverTimeouts s !! m); destruct (is_clicked _ _); reflexivity.
    - unfold marker_mouseleave, setElementTimeout, clearElementTimeout.
      destruct (is_clicked _ _); [reflexivity|].
      destruct (hoverTimeouts s !! m); reflexivity.
    - unfold popup_mouseenter, clearElementTimeout.
      destruct (hoverTimeouts s !! m); reflexivity.
    - unfold marker_mouseleave, setElementTimeout, clearElementTimeout.
      destruct (is_clicked _ _); [reflexivity|].
      destruct (hoverTimeouts s !! m); reflexivity.
    - induction (length (allMarkers s)) as [|n IHn]; [reflexivity|].
      rewrite Nat.iter_succ. exact IHn.
    - destruct (timers s !! timeout); [|reflexivity].
      unfold close_popup. destruct (_ || _); reflexivity. }
  destruct H as [H Hm]. unfold highlight_ok in H.
  destruct (isClickActive (markers_run events (markers0 markers))).
  - destruct H as (m & ? & ? & ? & Ha & ? & Hc).
    split; [|split; [|split]]; auto.
    + intros m' Hm'. rewrite Ha in Hm'.
      assert (m' = m) as -> by set_solver. auto.
    + intros m' Hm'. rewrite Hc in Hm'.
      assert (m' = m) as -> by set_solver. auto.
    + intros _. exists m. auto.
  - destruct H as (? & ? & Ha & Hc).
    split; [|split; [|split]]; auto.
    + intros m' Hm'. rewrite Ha in Hm'. set_solver.
    + intros m' Hm'. rewrite Hc in Hm'. set_solver.
    + discriminate.
Qed.

(** ** The hover timers *)

(** Every pending timer is the one recorded for its marker, and the
    identifiers in use are below the next one. *)
Definition timers_ok (s : Markers) : Prop :=
  (forall timeout m,
     timers s !! timeout = Some m -> hoverTimeouts s !! m = Some timeout)
  /\ (forall timeout m,
        hoverTimeouts s !! m = Some timeout -> (timeout < next_timer s)%positive).

Lemma clear_all_lookup (entries : list (nat * positive))
    (pending : gmap positive nat) timeout :
  foldr (fun entry pending => delete (snd entry) pending) pending entries
    !! timeout
  = if bool_decide (timeout ∈ map snd entries) then None
    else pending !! timeout.
Proof.
  induction entries as [|[m t] entries IH]; cbn [foldr map snd].
  - rewrite bool_decide_eq_false_2 by set_solver. reflexivity.
  - destruct (decide (t = timeout)) as [->|Hne].
    + rewrite lookup_delete_eq, bool_decide_eq_true_2 by set_solver.
      reflexivity.
    + rewrite lookup_delete_ne, IH by exact Hne.
      destruct (decide (timeout ∈ map snd entries)) as [Hin|Hin].
      * rewrite !bool_decide_eq_true_2 by set_solver. reflexivity.
      * rewrite !bool_decide_eq_false_2 by set_solver. reflexivity.
Qed.

Lemma clearAll_timers s :
  timers_ok s -> timers (clearAllPopupsAndMarkers s) = ∅.
Proof.
  intros [H1 _]. apply map_eq. intros timeout.
  cbn [timers clearAllPopupsAndMarkers]. rewrite clear_all_lookup, lookup_empty.
  destruct (timers s !! timeout) as [m|] eqn:E.
  - rewrite bool_decide_eq_true_2; [reflexivity|].
    apply H1 in E. apply elem_of_map_to_list in E.
    apply list_elem_of_In, in_map_iff. exists (m, timeout).
    split; [reflexivity|]. apply list_elem_of_In, E.
  - destruct (bool_decide _); reflexivity.
Qed.

Lemma clearAll_timers_ok s :
  timers_ok s -> timers_ok (clearAllPopupsAndMarkers s).
Proof.
  intros H. split.
  - rewrite (clearAll_timers s H). intros timeout m E.
    rewrite lookup_empty in E. discriminate.
  - cbn. intros timeout m E. rewrite lookup_empty in E. discriminate.
Qed.

Lemma clearElementTimeout_timers_ok m s :
  timers_ok s -> timers_ok (clearElementTimeout m s).
Proof.
  intros [H1 H2]. unfold clearElementTimeout.
  destruct (hoverTimeouts s !! m) as [t|] eqn:E; [|split; assumption].
  split; cbn.
  - intros timeout m' Ht.
    destruct (decide (timeout = t)) as [->|Hne].
    + rewrite lookup_delete_eq in Ht. discriminate.
    + rewrite lookup_delete_ne in Ht by congruence.
      apply H1 in Ht. rewrite lookup_delete_ne; [exact Ht|]. congruence.
  - intros timeout m' Ht.
    destruct (decide (m = m')) as [->|Hne].
    + rewrite lookup_delete_eq in Ht. discriminate.
    + rewrite lookup_delete_ne in Ht by exact Hne. eapply H2, Ht.
Qed.

Lemma clearElementTimeout_cleared m s :
  hoverTimeouts (clearElementTimeout m s) !! m = None
  /\ next_timer (clearElementTimeout m s) = next_timer s.
Proof.
  unfold clearElementTimeout.
  destruct (hoverTimeouts s !! m) as [t|] eqn:E; cbn.
  - rewrite lookup_delete_eq. auto.
  - auto.
Qed.

Lemma setElementTimeout_timers_ok m s :
  timers_ok s -> timers_ok (setElementTimeout m s).
Proof.
  intros H. unfold setElementTimeout.
  pose proof (clearElementTimeout_timers_ok m s H) as [H1 H2].
  destruct (clearElementTimeout_cleared m s) as [Hc _].
  revert H1 H2 Hc. generalize (clearElementTimeout m s). intros s' H1 H2 Hc.
  split; cbn.
  - intros timeout m' Ht.
    destruct (decide (timeout = next_timer s')) as [->|Hne].
    + rewrite lookup_insert_eq in Ht. injection Ht as <-.
      apply lookup_insert_eq.
    + rewrite lookup_insert_ne in Ht by congruence.
      apply H1 in Ht. rewrite lookup_insert_ne; [exact Ht|]. congruence.
  - intros timeout m' Ht.
    destruct (decide (m = m')) as [->|Hne].
    + rewrite lookup_insert_eq in Ht. injection Ht as <-. lia.
    + rewrite lookup_insert_ne in Ht by exact Hne.
      apply H2 in Ht. lia.
Qed.

Lemma step_timers_ok s e : timers_ok s -> timers_ok (step s e).
Proof.
  intros H. destruct e as [m|m|m|m|m| |timeout]; cbn [step];
    try (destruct (has_marker m s); [|exact H]).
  - pose proof (clearAll_timers_ok s H) as [H1 H2]. split; assumption.
  - unfold marker_mouseenter.
    pose proof (clearElementTimeout_timers_ok m s H) as H'.
    destruct (is_clicked m (clearElementTimeout m s)); [exact H'|].
    destruct H' as [H1 H2]. split; assumption.
  - unfold marker_mouseleave. destruct (is_clicked m s); [exact H|].
    apply setElementTimeout_timers_ok, H.
  - apply clearElementTimeout_timers_ok, H.
  - unfold marker_mouseleave. destruct (is_clicked m s); [exact H|].
    apply setElementTimeout_timers_ok, H.
  - induction (length (allMarkers s)) as [|n IH]; [exact H|].
    rewrite Nat.iter_succ. apply clearAll_timers_ok, IH.
  - destruct (timers s !! timeout) as [m|] eqn:E; [|exact H].
    destruct H as [H1 H2].
    assert (H' : timers_ok
      {| allMarkers := allMarkers s;
         currentClickedMarker := currentClickedMarker s;
         currentClickedItem := currentClickedItem s;
         isClickActive := isClickActive s;
         hoverTimeouts := hoverTimeouts s;
         show := show s; active := active s;
         cards_active := cards_active s;
         timers := delete timeout (timers s);
         next_timer := next_timer s; calls := calls s |}).
    { split; cbn; [|exact H2]. intros t m' Ht.
      destruct (decide (t = timeout)) as [->|Hne].
      - rewrite lookup_delete_eq in Ht. discriminate.
      - rewrite lookup_delete_ne in Ht by congruence. apply H1, Ht. }
    revert H'. generalize ({| allMarkers := allMarkers s;
         currentClickedMarker := currentClickedMarker s;
         currentClickedItem := currentClickedItem s;
         isClickActive := isClickActive s;
         hoverTimeouts := hoverTimeouts s;
         show := show s; active := active s;
         cards_active := cards_active s;
         timers := delete timeout (timers s);
         next_timer := next_timer s; calls := calls s |}).
    intros s' H'. unfold close_popup. destruct (_ || _); [|exact H'].
    destruct H' as [H1' H2']. split; assumption.
Qed.

Lemma run_timers_ok events : forall s,
  timers_ok s -> timers_ok (markers_run events s).
Proof.
  induction events as [|e events IH]; intros s H; [exact H|].
  apply IH, step_timers_ok, H.
Qed.

(** X27. The hover timers do not pile up: whatever happens on the map
    page, a marker has at most one timer pending, and a click on a marker or
    on the map leaves no timer pending. *)
Theorem hover_timers_bounded
    (markers : list nat) (events : list MarkerEvent) :
  let s := markers_run events (markers0 markers) in
  (forall timeout timeout' m,
     timers s !! timeout = Some m -> timers s !! timeout' = Some m ->
     timeout = timeout')
  /\ (forall m, m ∈ allMarkers s -> timers (step s (click_marker m)) = ∅)
  /\ (allMarkers s <> [] -> timers (step s click_map) = ∅).
Proof.
  cbv zeta.
  assert (H : timers_ok (markers_run events (markers0 markers))).
  { apply run_timers_ok. split; cbn; intros timeout m E;
      rewrite lookup_empty in E; discriminate. }
  revert H. generalize (markers_run events (markers0 markers)). intros s H.
  split; [|split].
  - intros timeout timeout' m E1 E2. destruct H as [H1 _].
    apply H1 in E1, E2. congruence.
  - intros m Hm. cbn [step]. unfold has_marker.
    rewrite bool_decide_eq_true_2 by exact Hm.
    apply (clearAll_timers s H).
  - intros Hne. cbn [step].
    destruct (allMarkers s) as [|m l] eqn:E; [congruence|].
    cbn [length]. rewrite Nat.iter_succ_r.
    assert (Hi : forall n s', timers s' = ∅ ->
              timers (Nat.iter n clearAllPopupsAndMarkers s') = ∅).
    { induction n as [|n IH]; intros s' Hs; [exact Hs|].
      rewrite Nat.iter_succ_r. apply IH.
      cbn [timers clearAllPopupsAndMarkers].
      apply map_eq. intros t. rewrite clear_all_lookup, Hs, lookup_empty.
      destruct (bool_decide _); reflexivity. }
    apply Hi, clearAll_timers, H.
Qed.

End MapMarkersFacts.
